(** * apng: chunk-level assembly of an animated PNG container

    A shallow embedding of [writer.go] of setanarut/apng (the encoder with
    palette and disposal support, i.e. the declarations that start at the
    second [package apng] clause of the file) together with the properties
    of the container it emits.

    Conventions of the embedding.
    - A Go [byte]/[uint8], [uint16], [uint32] and [int] value is a [Z]; every
      conversion to a narrower type is written out as a [mod].
    - A [[]byte] is a [list Z]; a slice that the code tests against [nil] is
      an [option (list Z)].
    - The scratch arrays [tmp], [tmpHeader] and [tmpFooter] of the encoder are
      not part of the state: every function fills the bytes it is about to
      pass on before it reads them, so they are modelled as local values.
    - A run-time panic of the Go program is the [None] of an [option]
      (written [panic]), never an [error] value. *)

From Stdlib Require Import ZArith Lia String Ascii.
From stdpp Require Import base option list gmap strings pretty.

Open Scope Z_scope.

(** ** Bytes and big-endian integers *)

Abbreviation byte := Z (only parsing).

Definition uint8 (x : Z) : Z := x mod 2 ^ 8.
Definition uint16 (x : Z) : Z := x mod 2 ^ 16.
Definition uint32 (x : Z) : Z := x mod 2 ^ 32.

(** [writeUint16(b, u)] and [writeUint32(b, u)]: the bytes stored into
    [b[0..1]], resp. [b[0..3]]. *)
Definition writeUint16 (u : Z) : list byte :=
  [uint8 (Z.shiftr u 8); uint8 u].

Definition writeUint32 (u : Z) : list byte :=
  [uint8 (Z.shiftr u 24); uint8 (Z.shiftr u 16); uint8 (Z.shiftr u 8); uint8 u].

(** [binary.BigEndian.Uint32] and [Uint16] (encoding/binary), computed in
    [uint32], resp. [uint16], arithmetic.  Go panics on a slice shorter than
    the integer; every caller in the package passes a slice it has just
    filled. *)
Definition BigEndian_Uint32 (b : list byte) : Z :=
  match b with
  | b0 :: b1 :: b2 :: b3 :: _ =>
      uint32 (Z.lor (Z.lor (Z.lor b3 (Z.shiftl b2 8)) (Z.shiftl b1 16)) (Z.shiftl b0 24))
  | _ => 0
  end.

Definition BigEndian_Uint16 (b : list byte) : Z :=
  match b with
  | b0 :: b1 :: _ => uint16 (Z.lor b1 (Z.shiftl b0 8))
  | _ => 0
  end.

(** The bytes of a Go string. *)
Fixpoint bytesOf (s : string) : list byte :=
  match s with
  | EmptyString => []
  | String a s' => Z.of_N (N_of_ascii a) :: bytesOf s'
  end.

(** [const pngHeader string = "\x89PNG\r\n\x1a\n"]. *)
Definition pngHeader : list byte := [0x89; 0x50; 0x4e; 0x47; 0x0d; 0x0a; 0x1a; 0x0a].

(** ** hash/crc32

    The reference ("simple") implementation of the Go standard library:
    [simpleMakeTable] and [simpleUpdate] over the IEEE polynomial; the
    optimised implementations the library may select compute the same
    function. *)
Module crc32.

Definition IEEE : Z := 0xedb88320.

Definition tableStep (crc : Z) : Z :=
  if Z.testbit crc 0 then Z.lxor (Z.shiftr crc 1) IEEE else Z.shiftr crc 1.

(** Entry [i] of [IEEETable]. *)
Definition IEEETable (i : Z) : Z :=
  Nat.iter 8 tableStep i.

Definition not32 (crc : Z) : Z := Z.lxor crc 0xffffffff.

Definition simpleUpdate (crc : Z) (p : list byte) : Z :=
  not32 (fold_left
           (fun crc v => Z.lxor (IEEETable (Z.lxor (uint8 crc) v)) (Z.shiftr crc 8))
           p (not32 crc)).

(** The [digest] behind [crc32.NewIEEE()]: [Write] and [Sum32]. *)
Definition NewIEEE : Z := 0.
Definition Write (d : Z) (p : list byte) : Z := simpleUpdate d p.
Definition Sum32 (d : Z) : Z := d.

Definition ChecksumIEEE (data : list byte) : Z := simpleUpdate 0 data.

End crc32.

(** ** Errors *)

(** A Go [error] value: [errors.New(s)] and the two sentinels of package io
    that the parser compares by identity. *)
Inductive error : Type :=
  | errorString (s : string)
  | EOF
  | ErrUnexpectedEOF.

(** A function that may panic returns an [option]: [None] is the panic. *)
Notation "'panic'" := None (only parsing).

(** ** io.Writer *)

(** The interface [io.Writer] with its documented contract: [Write] returns
    a nil error only if it has accepted all of [p].  [written] is what the
    destination has accepted so far; the number of bytes [Write] returns is
    dropped by every caller in the package. *)
Class Writer (W : Type) : Type := {
  Write : W -> list byte -> W * option error;
  written : W -> list byte;
  Write_nil : forall w p w', Write w p = (w', None) -> written w' = written w ++ p
}.

(** [bytes.Buffer] as a destination: it grows, and never fails. *)
Record Buffer : Type := mkBuffer { bufBytes : list byte }.

(** A destination with room for [room] more bytes: a write that does not
    fit stores the prefix that does and reports [io.ErrShortWrite]. *)
Record LimitedWriter : Type := mkLimited { lwBytes : list byte; room : nat }.

Definition ErrShortWrite : error := errorString "short write".

Definition LimitedWriter_Write (w : LimitedWriter) (p : list byte)
  : LimitedWriter * option error :=
  if decide (length p <= room w)%nat
  then (mkLimited (lwBytes w ++ p) (room w - length p), None)
  else (mkLimited (lwBytes w ++ take (room w) p) 0, Some ErrShortWrite).

(** ** Package image: what the encoder reads of a frame *)
Module image.

Record Point : Type := mkPoint { X : Z; Y : Z }.
Record Rectangle : Type := mkRect { Min : Point; Max : Point }.

(** [color.Model] values.  The models of package color are pointers, and
    comparable; a [color.Palette] is a slice. *)
Inductive Model : Type :=
| RGBAModel | NRGBAModel | GrayModel | Gray16Model
| Palette (colors : list (Z * Z * Z * Z)).

#[global] Instance Model_eq_dec : EqDecision Model.
Proof. solve_decision. Defined.

(** A non-nil [image.Image]: its [Bounds()], its [ColorModel()], whether
    its dynamic type is [*image.Paletted], and its pixels. *)
Record Image : Type := mkImage {
  Bounds : Rectangle;
  ColorModel : Model;
  isPaletted : bool;
  Pix : list byte
}.

Definition Rect (x0 y0 x1 y1 : Z) : Rectangle :=
  mkRect (mkPoint x0 y0) (mkPoint x1 y1).

End image.

(** ** The encoder *)

(** [type APNG struct]; an entry of [Images] is [None] for a nil interface
    value, [Disposals] is [None] for a nil slice.  [Config] is never read. *)
Record APNG : Type := mkAPNG {
  Images : list (option image.Image);
  Delays : list Z;
  Disposals : option (list byte);
  LoopCount : Z
}.

Section Encoder.
Context {W : Type} `{Writer W}.

(** [type encoder struct]. *)
Record encoder : Type := mkEncoder {
  aPNG : APNG;
  writer : W;
  seqNum : Z;
  ihdr : list byte;
  idats : list (list byte);
  err : option error
}.

Definition setWriterErr (e : encoder) (w : W) (r : option error) : encoder :=
  mkEncoder (aPNG e) w (seqNum e) (ihdr e) (idats e) r.

Definition setSeqNum (e : encoder) (n : Z) : encoder :=
  mkEncoder (aPNG e) (writer e) n (ihdr e) (idats e) (err e).

Definition setFrame (e : encoder) (hdr : list byte) (ds : list (list byte)) : encoder :=
  mkEncoder (aPNG e) (writer e) (seqNum e) hdr ds (err e).

(** [name[0]], ..., [name[3]]: a panic on a shorter string. *)
Definition nameBytes (name : string) : option (list byte) :=
  if decide (4 <= String.length name)%nat then Some (take 4 (bytesOf name)) else panic.

(** [func (e *encoder) writeChunk(b []byte, name string)]. *)
Definition writeChunk (e : encoder) (b : list byte) (name : string) : option encoder :=
  match err e with
  | Some _ => Some e
  | None =>
      let n := uint32 (Z.of_nat (length b)) in
      if negb (n =? Z.of_nat (length b))
      then Some (setWriterErr e (writer e) (Some (errorString "apng: chunk is too large")))
      else
        tag ← nameBytes name;
        let tmpHeader := writeUint32 n ++ tag in
        let '(w1, r1) := Write (writer e) tmpHeader in
        match r1 with
        | Some _ => Some (setWriterErr e w1 r1)
        | None =>
            let '(w2, r2) := Write w1 b in
            match r2 with
            | Some _ => Some (setWriterErr e w2 r2)
            | None =>
                let crc := crc32.NewIEEE in
                let crc := crc32.Write crc (drop 4 tmpHeader) in
                let crc := crc32.Write crc b in
                let tmpFooter := writeUint32 (crc32.Sum32 crc) in
                let '(w3, r3) := Write w2 tmpFooter in
                Some (setWriterErr e w3 r3)
            end
        end
  end.

Definition writeIHDR (e : encoder) : option encoder :=
  writeChunk e (ihdr e) "IHDR".

(** The bytes [writeacTL] stores in [e.tmp[:8]]. *)
Definition acTLData (a : APNG) : list byte :=
writeUint32 (uint32 (Z.of_nat (length (Images a)))) ++ writeUint32 (LoopCount a).

Definition writeacTL (e : encoder) : option encoder :=
writeChunk e (acTLData (aPNG e)) "acTL".

(** The bytes [writefcTL] stores in [e.tmp[:26]]. *)
Definition fcTLData (seq : Z) (bounds : image.Rectangle) (delay dispose : Z) : list byte :=
writeUint32 seq
++ writeUint32 (uint32 (image.X (image.Max bounds) - image.X (image.Min bounds)))
++ writeUint32 (uint32 (image.Y (image.Max bounds) - image.Y (image.Min bounds)))
++ writeUint32 (uint32 (image.X (image.Min bounds)))
++ writeUint32 (uint32 (image.Y (image.Min bounds)))
++ writeUint16 delay
++ writeUint16 (uint16 100)
++ [dispose]
++ [0].

(** [e.tmp[24]]: zero, or [e.aPNG.Disposals[frameIndex]] when [Disposals]
    is not nil. *)
Definition disposeOp (a : APNG) (frameIndex : nat) : option Z :=
match Disposals a with
| None => Some 0
| Some ds => ds !! frameIndex
end.

(** [func (e *encoder) writefcTL(frameIndex int)].  Indexing [Images],
    [Delays] or [Disposals] out of range panics, and so does calling
    [Bounds] on a nil image. *)
Definition writefcTL (e : encoder) (frameIndex : nat) : option encoder :=
img ← mjoin (Images (aPNG e) !! frameIndex);
delay ← Delays (aPNG e) !! frameIndex;
dispose ← disposeOp (aPNG e) frameIndex;
e' ← writeChunk e (fcTLData (seqNum e) (image.Bounds img) delay dispose) "fcTL";
Some (setSeqNum e' (uint32 (seqNum e' + 1))).

(** [func (e *encoder) writeIDATs()]: the body of the range loop, and the
    loop over a copy of the slice header [e.idats]. *)
Fixpoint writeIDATs_loop (e : encoder) (ids : list (list byte)) : option encoder :=
  match ids with
  | [] => Some e
  | id :: ids' => e' ← writeChunk e id "IDAT"; writeIDATs_loop e' ids'
  end.

Definition writeIDATs (e : encoder) : option encoder :=
  writeIDATs_loop e (idats e).

(** [func (e *encoder) writefdATs()]. *)
Fixpoint writefdATs_loop (e : encoder) (ids : list (list byte)) : option encoder :=
  match ids with
  | [] => Some e
  | id :: ids' =>
      let fdat := writeUint32 (seqNum e) ++ id in
      e' ← writeChunk e fdat "fdAT";
      writefdATs_loop (setSeqNum e' (uint32 (seqNum e' + 1))) ids'
  end.

Definition writefdATs (e : encoder) : option encoder :=
  writefdATs_loop e (idats e).

Definition writeIEND (e : encoder) : option encoder :=
  writeChunk e [] "IEND".

End Encoder.

Arguments encoder W : clear implicits.

(** ** Reading a single-image stream back into chunks *)

(** A [*bytes.Buffer] that is only read is its unread bytes.
    [bb.Next(n)] returns at most [n] of them. *)
Definition Next (bb : list byte) (n : nat) : list byte * list byte :=
  (take n bb, drop n bb).

(** [io.ReadFull(bb, buf)] with [len(buf) = n]: [Buffer.Read] reports
    [io.EOF] on an empty buffer and a non-empty [buf]; [ReadAtLeast] turns a
    short read into [io.ErrUnexpectedEOF]. *)
Definition ReadFull (bb : list byte) (n : nat) : list byte * option error * list byte :=
  if decide (n = 0%nat) then ([], None, bb)
  else if decide (length bb = 0%nat) then ([], Some EOF, bb)
  else if decide (length bb < n)%nat then (bb, Some ErrUnexpectedEOF, [])
  else (take n bb, None, drop n bb).

Inductive stage_t : Type :=
  dsStart | dsSeenIHDR | dsSeenPLTE | dsSeentRNS | dsSeenIDAT | dsSeenIEND.

#[export] Instance stage_eq_dec : EqDecision stage_t.
Proof. solve_decision. Defined.

(** [type pngChunk struct]. *)
Record pngChunk : Type := mkPngChunk {
  pc_ihdr : list byte;
  pc_idats : list (list byte);
  pc_plte : option (list byte);
  pc_trns : option (list byte)
}.

(** [new(pngChunk)]. *)
Definition new_pngChunk : pngChunk := mkPngChunk [] [] None None.

(** [type chunkFetcher struct]; [pc] is [None] for a nil pointer.  The
    scratch array [tmp [3 * 256]byte] only shows through its size. *)
Record chunkFetcher : Type := mkFetcher {
  bb : list byte;
  stage : stage_t;
  pc : option pngChunk;
  plte : option (list byte);
  trns : option (list byte)
}.

Definition tmpSize : Z := 3 * 256.

Definition setBB (c : chunkFetcher) (b : list byte) : chunkFetcher :=
  mkFetcher b (stage c) (pc c) (plte c) (trns c).

Definition setStage (c : chunkFetcher) (s : stage_t) : chunkFetcher :=
  mkFetcher (bb c) s (pc c) (plte c) (trns c).

Definition setPC (c : chunkFetcher) (p : option pngChunk) : chunkFetcher :=
  mkFetcher (bb c) (stage c) p (plte c) (trns c).

(** A method of [*chunkFetcher] that returns an [error]: the fetcher after
    the call and the error, or a panic. *)
Abbreviation fetcherM := (option (chunkFetcher * option error)) (only parsing).

(** [func (c *chunkFetcher) parseIHDR(length uint32) error]:
    [c.tmp[:length]] panics beyond the size of [tmp]. *)
Definition parseIHDR (c : chunkFetcher) (length : Z) : fetcherM :=
  if decide (tmpSize < length) then panic
  else
    let '(data, r, bb') := ReadFull (bb c) (Z.to_nat length) in
    match r with
    | Some _ => Some (setBB c bb', r)
    | None =>
        p ← pc c;
        Some (setPC (setBB c bb')
                (Some (mkPngChunk data (pc_idats p) (pc_plte p) (pc_trns p))), None)
    end.

(** [func (c *chunkFetcher) parseIDAT(length uint32) error]. *)
Definition parseIDAT (c : chunkFetcher) (length : Z) : fetcherM :=
  let '(id, bb') := Next (bb c) (Z.to_nat length) in
  if decide (Z.of_nat (List.length id) < length) then Some (setBB c bb', Some EOF)
  else
    p ← pc c;
    Some (setPC (setBB c bb')
            (Some (mkPngChunk (pc_ihdr p) (pc_idats p ++ [id]) (pc_plte p) (pc_trns p))), None).

(** The slice built by [parsePLTE] and [parsetRNS]:
    [make([]byte, length+8)] in [uint32] arithmetic, then the length, the
    tag and the data stored at [[:4]], [[4:8]] and [[8:]]; the slice
    expressions panic when the size has wrapped around. *)
Definition framed (name : string) (length : Z) (data : list byte) : option (list byte) :=
  if decide (uint32 (length + 8) < 8) then panic
  else Some (writeUint32 length ++ bytesOf name ++ data).

(** [func (c *chunkFetcher) parsePLTE(length uint32) error]. *)
Definition parsePLTE (c : chunkFetcher) (length : Z) : fetcherM :=
  let '(data, r, bb') := ReadFull (bb c) (Z.to_nat length) in
  match r with
  | Some _ => Some (setBB c bb', r)
  | None =>
      fr ← framed "PLTE" length data;
      let pc' := match pc c with
                 | Some p => Some (mkPngChunk (pc_ihdr p) (pc_idats p) (Some data) (pc_trns p))
                 | None => None
                 end in
      Some (mkFetcher bb' (stage c) pc' (Some fr) (trns c), None)
  end.

(** [func (c *chunkFetcher) parsetRNS(length uint32) error]. *)
Definition parsetRNS (c : chunkFetcher) (length : Z) : fetcherM :=
  let '(data, r, bb') := ReadFull (bb c) (Z.to_nat length) in
  match r with
  | Some _ => Some (setBB c bb', r)
  | None =>
      fr ← framed "tRNS" length data;
      let pc' := match pc c with
                 | Some p => Some (mkPngChunk (pc_ihdr p) (pc_idats p) (pc_plte p) (Some data))
                 | None => None
                 end in
      Some (mkFetcher bb' (stage c) pc' (plte c) (Some fr), None)
  end.

(** The tail shared by both chunk dispatchers: [c.bb.Next(4)] drops the
    CRC, then the error of the case is returned. *)
Definition skipCRC (r : fetcherM) : fetcherM :=
  '(c, e) ← r; Some (setBB c (Next (bb c) 4).2, e).

(** [func (c *chunkFetcher) parsePNGChunk() error]. *)
Definition parsePNGChunk (c : chunkFetcher) : fetcherM :=
  let '(tmp, r, bb') := ReadFull (bb c) 8 in
  match r with
  | Some _ => Some (setBB c bb', r)
  | None =>
      let c := setBB c bb' in
      let length := BigEndian_Uint32 (take 4 tmp) in
      let name := drop 4 tmp in
      skipCRC
        (if decide (name = bytesOf "IHDR") then parseIHDR (setStage c dsSeenIHDR) length
         else if decide (name = bytesOf "PLTE") then parsePLTE (setStage c dsSeenPLTE) length
         else if decide (name = bytesOf "tRNS") then parsetRNS (setStage c dsSeentRNS) length
         else if decide (name = bytesOf "IDAT") then parseIDAT (setStage c dsSeenIDAT) length
         else if decide (name = bytesOf "IEND") then Some (setStage c dsSeenIEND, None)
         else Some (setBB c (Next (bb c) (Z.to_nat length)).2, None))
  end.

(** [func (c *chunkFetcher) parsePNGChunkWithPalette() error]. *)
Definition parsePNGChunkWithPalette (c : chunkFetcher) : fetcherM :=
  let '(tmp, r, bb') := ReadFull (bb c) 8 in
  match r with
  | Some _ => Some (setBB c bb', r)
  | None =>
      let c := setBB c bb' in
      let length := BigEndian_Uint32 (take 4 tmp) in
      let name := drop 4 tmp in
      skipCRC
        (if decide (name = bytesOf "IHDR") then
           if decide (tmpSize < length) then panic
           else
             let '(_, r, bb') := ReadFull (bb c) (Z.to_nat length) in
             Some (setBB (setStage c dsSeenIHDR) bb', r)
         else if decide (name = bytesOf "PLTE") then parsePLTE (setStage c dsSeenPLTE) length
         else if decide (name = bytesOf "tRNS") then parsetRNS (setStage c dsSeentRNS) length
         else if decide (name = bytesOf "IDAT") then
           Some (setBB (setStage c dsSeenIDAT) (Next (bb c) (Z.to_nat length)).2, None)
         else if decide (name = bytesOf "IEND") then Some (setStage c dsSeenIEND, None)
         else Some (setBB c (Next (bb c) (Z.to_nat length)).2, None))
  end.

(** The outcome of a loop run on fuel. *)
Inductive run (A : Type) : Type :=
  | Finished (a : A)
  | OutOfFuel.
Arguments Finished {A} a.
Arguments OutOfFuel {A}.

(** The result of a function that returns a value or an error. *)
Inductive result (A : Type) : Type :=
  | Ok (a : A)
  | Fail (e : error).
Arguments Ok {A} a.
Arguments Fail {A} e.

(** [for c.stage != dsSeenIEND { if err := step(); err != nil { ... } }]
    of [fetchPNGChunk] and [fetchPaletteChunk]: [io.EOF] is reported as
    [io.ErrUnexpectedEOF]. *)
Fixpoint fetchLoop (step : chunkFetcher -> fetcherM) (fuel : nat) (c : chunkFetcher)
  : run (option (result chunkFetcher)) :=
  match fuel with
  | O => OutOfFuel
  | S fuel' =>
      if decide (stage c = dsSeenIEND) then Finished (Some (Ok c))
      else
        match step c with
        | None => Finished panic
        | Some (_, Some e) =>
            Finished (Some (Fail (match e with EOF => ErrUnexpectedEOF | _ => e end)))
        | Some (c', None) => fetchLoop step fuel' c'
        end
  end.

(** Every successful step consumes the eight bytes of a chunk header, so
    the length of the stream bounds the number of iterations. *)
Definition runFetch (step : chunkFetcher -> fetcherM) (c : chunkFetcher)
  : option (result chunkFetcher) :=
  match fetchLoop step (S (length (bb c))) c with
  | Finished r => r
  | OutOfFuel => panic
  end.

(** [func fetchPNGChunk(bb *bytes.Buffer)], returning the chunks or an error. *)
Definition fetchPNGChunk (stream : list byte) : option (result pngChunk) :=
  let bb := (Next stream (length pngHeader)).2 in
  r ← runFetch parsePNGChunk (mkFetcher bb dsStart (Some new_pngChunk) None None);
  match r with
  | Ok c => p ← pc c; Some (Ok p)
  | Fail e => Some (Fail e)
  end.

(** [func fetchPaletteChunk(bb *bytes.Buffer) (plte []byte, trns []byte, err error)]. *)
Definition fetchPaletteChunk (stream : list byte)
  : option (result (option (list byte) * option (list byte))) :=
  let bb := (Next stream (length pngHeader)).2 in
  r ← runFetch parsePNGChunkWithPalette (mkFetcher bb dsStart None None None);
  match r with
  | Ok c => Some (Ok (plte c, trns c))
  | Fail e => Some (Fail e)
  end.

(** ** Validation *)

Definition inCanvas (reference bounds : image.Rectangle) : bool :=
  (0 <=? image.X (image.Min bounds)) && (0 <=? image.Y (image.Min bounds))
  && (image.X (image.Max bounds) <=? image.X (image.Max reference))
  && (image.Y (image.Max bounds) <=? image.Y (image.Max reference)).

(** [func fullfillFrameRegionConstraints(img []image.Image) bool]. *)
Definition fullfillFrameRegionConstraints (img : list (option image.Image)) : bool :=
  match img with
  | [] | None :: _ => false
  | Some img0 :: rest =>
      let reference := image.Bounds img0 in
      if negb ((0 <=? image.X (image.Min reference)) && (0 <=? image.Y (image.Min reference)))
      then false
      else
        forallb (fun o => match o with
                          | None => false
                          | Some imgi => inCanvas reference (image.Bounds imgi)
                          end) rest
  end.

(** The four checks that open [EncodeAll], in order: the error of the first
    one that fails. *)
Definition validate (a : APNG) : option error :=
  if decide (length (Images a) = 0%nat) then
    Some (errorString "apng: need at least one image")
  else if decide (length (Images a) ≠ length (Delays a)) then
    Some (errorString "apng: mismatched image and delay lengths")
  else if match Disposals a with
          | Some ds => bool_decide (length (Images a) ≠ length ds)
          | None => false
          end then
    Some (errorString "apng: mismatch image and disposal lengths")
  else if negb (fullfillFrameRegionConstraints (Images a)) then
    Some (errorString "apng: must fullfill frame region constraints")
  else None.

(** ** EncodeAll *)

(** [type frameData struct]. *)
Record frameData : Type := mkFrameData {
  fd_index : nat;
  fd_ihdr : list byte;
  fd_idats : list (list byte);
  fd_isPaletted : bool
}.

(** What the last statements of [EncodeAll] see of the fan-in: the map
    filled from the channel and the shared error. *)
Definition fanIn : Type := gmap nat frameData * option error.

(** [s[8 : 8+binary.BigEndian.Uint32(s[:4])]]: the bounds are computed in
    [uint32]; a slice expression out of range panics. *)
Definition payloadOfFramed (s : list byte) : option (list byte) :=
  if decide (length s < 4)%nat then panic
  else
    let hi := uint32 (8 + BigEndian_Uint32 (take 4 s)) in
    if decide (8 <= hi <= Z.of_nat (length s))
    then Some (take (Z.to_nat hi - 8) (drop 8 s))
    else panic.

Section EncodeAll.
Context {W : Type} `{Writer W}.

(** [png.Encode] into a fresh buffer, the external single-image encoder:
    the message of its error, or the stream it has written. *)
Variable pngEncode : image.Image -> string + list byte.

(** [func encodePalettedImage(img *image.Paletted)]. *)
Definition encodePalettedImage (img : image.Image) : option (result pngChunk) :=
  match pngEncode img with
  | inl msg => Some (Fail (errorString ("apng: palette encoding error: " +:+ msg)))
  | inr stream => fetchPNGChunk stream
  end.

(** The body of the goroutine started for the frame [index], up to the
    point where it either stores its error or sends its [frameData]. *)
Definition frameWork (index : nat) (img : option image.Image) : option (result frameData) :=
  img ← img;
  r ← (if image.isPaletted img then encodePalettedImage img
       else match pngEncode img with
            | inl msg =>
                Some (Fail (errorString ("apng: png encoding error(" +:+ msg +:+ ")")))
            | inr stream => fetchPNGChunk stream
            end);
  match r with
  | Fail e => Some (Fail e)
  | Ok p => Some (Ok (mkFrameData index (pc_ihdr p) (pc_idats p) (image.isPaletted img)))
  end.

(** One goroutine reaching its end: under the mutex it stores its error
    unless one is stored already, or else it sends its data, which the
    receiving loop files under its index. *)
Definition complete (results : list (result frameData)) (st : fanIn) (i : nat) : fanIn :=
  match results !! i with
  | Some (Ok fd) => (<[fd_index fd := fd]> st.1, st.2)
  | Some (Fail x) => (st.1, match st.2 with None => Some x | Some _ => st.2 end)
  | None => st
  end.

(** The fan-out and fan-in for the order [sched] in which the goroutines
    finish. *)
Definition gather (results : list (result frameData)) (sched : list nat)
    (err0 : option error) : fanIn :=
  foldl (complete results) (∅, err0) sched.

(** The block [if firstImg, ok := a.Images[0].( *image.Paletted); ok]:
    [hasFirstPaletted], [globalPLTE] and [globalTRNS], or the error the
    block returns. *)
Definition firstPalette (a : APNG)
  : option (result (bool * option (list byte) * option (list byte))) :=
  first ← Images a !! 0%nat;
  match first with
  | Some firstImg =>
      if image.isPaletted firstImg then
        match pngEncode firstImg with
        | inl msg => Some (Fail (errorString ("apng: png encoding error(" +:+ msg +:+ ")")))
        | inr stream =>
            r ← fetchPaletteChunk stream;
            match r with
            | Fail e => Some (Fail e)
            | Ok (p, t) => Some (Ok (true, p, t))
            end
        end
      else Some (Ok (false, None, None))
  | None => Some (Ok (false, None, None))
  end.

(** [if hasFirstPaletted && globalPLTE != nil { ... }]. *)
Definition writeGlobalPalette (e : encoder W) (hasFirstPaletted : bool)
    (globalPLTE globalTRNS : option (list byte)) : option (encoder W) :=
  match hasFirstPaletted, globalPLTE with
  | true, Some gp =>
      b ← payloadOfFramed gp;
      e ← writeChunk e b "PLTE";
      match globalTRNS with
      | Some gt => b ← payloadOfFramed gt; writeChunk e b "tRNS"
      | None => Some e
      end
  | _, _ => Some e
  end.

(** [for i := 1; i < len(a.Images); i++ { ... }] over the indices still to
    do: the encoder at the end, or the error the loop returns. *)
Fixpoint otherFrames (frameDataMap : gmap nat frameData) (e : encoder W) (todo : list nat)
  : option (encoder W * option error) :=
  match todo with
  | [] => Some (e, None)
  | i :: todo' =>
      match frameDataMap !! i with
      | None =>
          Some (e, Some (errorString ("apng: missing frame data for index " +:+ pretty i)))
      | Some fd =>
          let e := setFrame e (fd_ihdr fd) (fd_idats fd) in
          e ← writefcTL e i;
          e ← writefdATs e;
          otherFrames frameDataMap e todo'
      end
  end.

(** Everything after the error check: the frames are written in the order
    of their indices. *)
Definition assemble (a : APNG) (w : W) (frameDataMap : gmap nat frameData)
    (hasFirstPaletted : bool) (globalPLTE globalTRNS : option (list byte))
  : option (W * option error) :=
  match frameDataMap !! 0%nat with
  | None => Some (w, Some (errorString "apng: missing frame data for index 0"))
  | Some fd =>
      let e := mkEncoder a w 0 (fd_ihdr fd) (fd_idats fd) None in
      e ← writeIHDR e;
      e ← writeGlobalPalette e hasFirstPaletted globalPLTE globalTRNS;
      e ← writeacTL e;
      e ← writefcTL e 0;
      e ← writeIDATs e;
      '(e, ret) ← otherFrames frameDataMap e (seq 1 (length (Images a) - 1));
      match ret with
      | Some _ => Some (writer e, ret)
      | None => e ← writeIEND e; Some (writer e, err e)
      end
  end.

(** [func EncodeAll(w io.Writer, a *APNG) error].  [sched] lists the frame
    indices in the order in which their goroutines finish (in a run of the
    program, a permutation of the indices); the result is the destination
    after the call and the error returned, or a panic.  A panic in any
    goroutine ends the program. *)
Definition EncodeAll (sched : list nat) (w : W) (a : APNG) : option (W * option error) :=
  match validate a with
  | Some e => Some (w, Some e)
  | None =>
      let '(w, err0) := Write w pngHeader in
      pal ← firstPalette a;
      match pal with
      | Fail e => Some (w, Some e)
      | Ok (hasFirstPaletted, globalPLTE, globalTRNS) =>
          results ← mapM (fun '(i, img) => frameWork i img) (imap pair (Images a));
          let '(frameDataMap, err1) := gather results sched err0 in
          match err1 with
          | Some _ => Some (w, err1)
          | None => assemble a w frameDataMap hasFirstPaletted globalPLTE globalTRNS
          end
      end
  end.

End EncodeAll.

(** ** The container format, as the specification words it

    "Each chunk: 4-byte length (payload only) ‖ 4-byte ASCII type tag ‖
    payload ‖ 4-byte CRC-32 over (tag ‖ payload)", big-endian throughout.
    These definitions follow the specification, not the code: they are what
    the output of the encoder is compared with. *)
Module Container.

Record chunk : Type := mkChunk {
  c_type : list byte;
  c_data : list byte;
  c_crc : list byte
}.

(** The bytes of a chunk in a stream. *)
Definition chunkBytes (c : chunk) : list byte :=
writeUint32 (Z.of_nat (length (c_data c))) ++ c_type c ++ c_data c ++ c_crc c.

Definition serialize (cs : list chunk) : list byte :=
concat (map chunkBytes cs).

(** The CRC a chunk must carry. *)
Definition crcOf (c : chunk) : list byte :=
writeUint32 (crc32.ChecksumIEEE (c_type c ++ c_data c)).

(** The chunk with tag [name] and payload [data], with its CRC. *)
Definition sealed (name : string) (data : list byte) : chunk :=
let tag := take 4 (bytesOf name) in
mkChunk tag data (writeUint32 (crc32.ChecksumIEEE (tag ++ data))).

(** Re-parsing a chunk stream: length, tag, payload and CRC of each chunk
    up to the end of the stream; [None] on a truncated stream. *)
Fixpoint readChunks (fuel : nat) (s : list byte) : option (list chunk) :=
match s with
| [] => Some []
| _ =>
    match fuel with
    | O => None
    | S fuel' =>
        let n := Z.to_nat (BigEndian_Uint32 (take 4 s)) in
        let body := drop 8 s in
        if decide (length s < 8 \/ length body < n + 4)%nat then None
        else
          cs ← readChunks fuel' (drop (n + 4) body);
          Some (mkChunk (take 4 (drop 4 s)) (take n body) (take 4 (drop n body)) :: cs)
    end
end.

Definition parse (s : list byte) : option (list chunk) :=
readChunks (length s) s.

Definition hasType (name : string) (c : chunk) : bool :=
bool_decide (c_type c = bytesOf name).

(** The sequence number that opens the payload of an fcTL or fdAT chunk. *)
Definition sequenceNumber (c : chunk) : Z :=
BigEndian_Uint32 (take 4 (c_data c)).

Definition carriesSequence (c : chunk) : bool :=
hasType "fcTL" c || hasType "fdAT" c.

(** The fields of a frame-control payload. *)
Record frameControl : Type := mkFrameControl {
  fc_sequence : Z;
  fc_width : Z;
  fc_height : Z;
  fc_xOffset : Z;
  fc_yOffset : Z;
  fc_delayNum : Z;
  fc_delayDen : Z;
  fc_disposeOp : Z;
  fc_blendOp : Z
}.

Definition decodeFrameControl (d : list byte) : frameControl :=
mkFrameControl
  (BigEndian_Uint32 (take 4 d))
  (BigEndian_Uint32 (take 4 (drop 4 d)))
  (BigEndian_Uint32 (take 4 (drop 8 d)))
  (BigEndian_Uint32 (take 4 (drop 12 d)))
  (BigEndian_Uint32 (take 4 (drop 16 d)))
  (BigEndian_Uint16 (take 2 (drop 20 d)))
  (BigEndian_Uint16 (take 2 (drop 22 d)))
  (default 0 (d !! 24%nat))
  (default 0 (d !! 25%nat)).

End Container.

(** ** The container [EncodeAll] is expected to emit

    The chunk sequence of the specification: header chunk, optional global
    palette and transparency chunks, animation-control chunk, then per
    frame its control chunk followed by its IDAT chunks (frame 0) or its
    fdAT chunks (later frames), and the terminator, with one sequence
    number per fcTL and fdAT chunk in this order.  Like [Container], these
    definitions are what the output of the code is compared with. *)

(** A frame as the last statements of [EncodeAll] see it: its bounds, delay
    and disposal code, and the header and data payloads found in its own
    single-image stream. *)
Record frame : Type := mkFrame {
  f_bounds : image.Rectangle;
  f_delay : Z;
  f_dispose : Z;
  f_ihdr : list byte;
  f_idats : list (list byte)
}.

(** The fdAT chunks of one frame, from the sequence number [seq] on. *)
Fixpoint fdATChunks (seq : Z) (ids : list (list byte)) : list Container.chunk :=
match ids with
| [] => []
| id :: ids' =>
    Container.sealed "fdAT" (writeUint32 seq ++ id) :: fdATChunks (uint32 (seq + 1)) ids'
end.

(** The sequence number after [n] more chunks. *)
Fixpoint advance (seq : Z) (n : nat) : Z :=
match n with
| O => seq
| S n' => advance (uint32 (seq + 1)) n'
end.

(** The chunks of the frames after the first. *)
Fixpoint laterFrames (seq : Z) (fs : list frame) : list Container.chunk :=
match fs with
| [] => []
| f :: fs' =>
    Container.sealed "fcTL" (fcTLData seq (f_bounds f) (f_delay f) (f_dispose f))
    :: fdATChunks (uint32 (seq + 1)) (f_idats f)
    ++ laterFrames (advance seq (S (length (f_idats f)))) fs'
end.

(** The whole container after the signature: [pal] are the global palette
    chunks. *)
Definition container (a : APNG) (pal : list Container.chunk) (fs : list frame)
  : list Container.chunk :=
match fs with
| [] => []
| f0 :: fs' =>
    Container.sealed "IHDR" (f_ihdr f0)
    :: pal
    ++ Container.sealed "acTL" (acTLData a)
    :: Container.sealed "fcTL" (fcTLData 0 (f_bounds f0) (f_delay f0) (f_dispose f0))
    :: map (Container.sealed "IDAT") (f_idats f0)
    ++ laterFrames 1 fs'
    ++ [Container.sealed "IEND" []]
end.

(** A slice as [parsePLTE] and [parsetRNS] build it: the slice expression
    of [EncodeAll] cuts the payload out of it again. *)
Definition wfFramed (g : list byte) : Prop :=
payloadOfFramed g = Some (drop 8 g).

(** The global palette chunks for the slices [fetchPaletteChunk] returned. *)
Definition paletteChunks (hasFirstPaletted : bool) (globalPLTE globalTRNS : option (list byte))
  : list Container.chunk :=
match hasFirstPaletted, globalPLTE with
| true, Some gp =>
    Container.sealed "PLTE" (drop 8 gp)
    :: match globalTRNS with
       | Some gt => [Container.sealed "tRNS" (drop 8 gt)]
       | None => []
       end
| _, _ => []
end.

Section Frames.
Variable pngEncode : image.Image -> string + list byte.

(** Frame [i] of [a]: [None] when an index is out of range, the image is
    nil, or its stream could not be read back. *)
Definition frameOf (a : APNG) (i : nat) : option frame :=
img ← mjoin (Images a !! i);
delay ← Delays a !! i;
dispose ← disposeOp a i;
r ← frameWork pngEncode i (Some img);
match r with
| Ok fd => Some (mkFrame (image.Bounds img) delay dispose (fd_ihdr fd) (fd_idats fd))
| Fail _ => None
end.

Definition framesOf (a : APNG) : option (list frame) :=
mapM (frameOf a) (seq 0 (length (Images a))).

End Frames.

(** ** The encoder before palette support

    The declarations of the first [package apng] clause of [writer.go] that
    [EncodeAll] of the second one no longer has. *)
Module Legacy.

(** [x != y] on two [color.Model] interface values: the models of package
    color are compared as pointers; two values of the slice type
    [color.Palette] make the comparison panic. *)
Definition modelNe (x y : image.Model) : option bool :=
match x, y with
| image.Palette _, image.Palette _ => panic
| _, _ => Some (bool_decide (x ≠ y))
end.

(** The loop of [isSameColorModel]. *)
Fixpoint sameAs (reference : image.Model) (rest : list (option image.Image)) : option bool :=
match rest with
| [] => Some true
| None :: _ => Some false
| Some img :: rest' =>
    ne ← modelNe (image.ColorModel img) reference;
    if (ne : bool) then Some false else sameAs reference rest'
end.

(** [func isSameColorModel(img []image.Image) bool]. *)
Definition isSameColorModel (img : list (option image.Image)) : option bool :=
match img with
| [] | None :: _ => Some false
| Some img0 :: rest => sameAs (image.ColorModel img0) rest
end.

(** The checks that open the earlier [EncodeAll]: the error of the first
    one that fails, or a panic. *)
Definition validate (a : APNG) : option (option error) :=
if decide (length (Images a) = 0%nat) then
  Some (Some (errorString "apng: need at least one image"))
else if decide (length (Images a) ≠ length (Delays a)) then
  Some (Some (errorString "apng: mismatched image and delay lengths"))
else if match Disposals a with
        | Some ds => bool_decide (length (Images a) ≠ length ds)
        | None => false
        end then
  Some (Some (errorString "apng: mismatch image and disposal lengths"))
else
  same ← isSameColorModel (Images a);
  if negb (same : bool) then
    Some (Some (errorString "apng: must be all the same color model of images"))
  else if negb (fullfillFrameRegionConstraints (Images a)) then
    Some (Some (errorString "apng: must fullfill frame region constraints"))
  else Some None.

End Legacy.

(** ** A stand-in for the external encoder

    [png.Encode] is outside the package.  The examples run the encoder on
    this stand-in, which keeps the shape of a PNG stream (signature, IHDR,
    PLTE and tRNS for a paletted image, one IDAT, IEND) and the size check
    of the real encoder, and stores the pixels uncompressed. *)
Module Demo.

Definition width (img : image.Image) : Z :=
image.X (image.Max (image.Bounds img)) - image.X (image.Min (image.Bounds img)).

Definition height (img : image.Image) : Z :=
image.Y (image.Max (image.Bounds img)) - image.Y (image.Min (image.Bounds img)).

Definition colorType (img : image.Image) : Z :=
match image.ColorModel img with
| image.Palette _ => 3
| image.GrayModel | image.Gray16Model => 0
| _ => 6
end.

Definition paletteOf (img : image.Image) : list Container.chunk :=
match image.ColorModel img with
| image.Palette colors =>
    if image.isPaletted img then
      Container.sealed "PLTE" (flat_map (fun '(r, g, b, _) => [uint8 r; uint8 g; uint8 b]) colors)
      :: (if forallb (fun '(_, _, _, al) => al =? 255) colors then []
          else [Container.sealed "tRNS" (map (fun '(_, _, _, al) => uint8 al) colors)])
    else []
| _ => []
end.

Definition encode (img : image.Image) : string + list byte :=
if bool_decide (width img <= 0 \/ height img <= 0 \/ 2 ^ 32 <= width img \/ 2 ^ 32 <= height img)
then inl "png: invalid format: invalid image size"
else inr (pngHeader
          ++ Container.serialize
               (Container.sealed "IHDR"
                  (writeUint32 (width img) ++ writeUint32 (height img)
                   ++ [8; colorType img; 0; 0; 0])
                :: paletteOf img
                ++ [Container.sealed "IDAT" (map uint8 (image.Pix img));
                    Container.sealed "IEND" []])).

(** Frames for the examples. *)
Definition rgba (x0 y0 x1 y1 : Z) (pix : list byte) : option image.Image :=
Some (image.mkImage (image.Rect x0 y0 x1 y1) image.RGBAModel false pix).

Definition gray (x0 y0 x1 y1 : Z) (pix : list byte) : option image.Image :=
Some (image.mkImage (image.Rect x0 y0 x1 y1) image.GrayModel false pix).

Definition paletted (x0 y0 x1 y1 : Z) (colors : list (Z * Z * Z * Z)) (pix : list byte)
  : option image.Image :=
Some (image.mkImage (image.Rect x0 y0 x1 y1) (image.Palette colors) true pix).

End Demo.

(** ** Vocabulary of the statements *)

Section Emission.
Context {W : Type} `{Writer W}.

(** Between [e] and [e'] the chunks [cs] went out: if no error is stored at
    the end then none was at the start, and the destination has accepted the
    bytes of [cs], all of them of a size a length field can hold. *)
Definition emits (e e' : encoder W) (cs : list Container.chunk) : Prop :=
err e' = None ->
err e = None
/\ written (writer e') = written (writer e) ++ Container.serialize cs
/\ Forall (fun c => Z.of_nat (length (Container.c_data c)) < 2 ^ 32) cs.

(** [e'] works on the same animation and the same frame as [e]. *)
Definition sameFrame (e e' : encoder W) : Prop :=
aPNG e' = aPNG e /\ ihdr e' = ihdr e /\ idats e' = idats e.

End Emission.

(** Frame [i] of [a] with the data filed under [i] in the map. *)
Definition frameFrom (a : APNG) (frameDataMap : gmap nat frameData) (i : nat) : option frame :=
img ← mjoin (Images a !! i);
delay ← Delays a !! i;
dispose ← disposeOp a i;
fd ← frameDataMap !! i;
Some (mkFrame (image.Bounds img) delay dispose (fd_ihdr fd) (fd_idats fd)).

(** A fetcher method shortens the buffer or leaves it alone. *)
Definition shrinks (c : chunkFetcher) (r : option (chunkFetcher * option error)) : Prop :=
  forall c' e, r = Some (c', e) -> (length (bb c') <= length (bb c))%nat.

(** Both palette slices of a fetcher are as [parsePLTE] and [parsetRNS]
    build them. *)
Definition palWf (c : chunkFetcher) : Prop :=
(forall g, plte c = Some g -> wfFramed g) /\ (forall g, trns c = Some g -> wfFramed g).

(** A chunk whose tag and CRC have four bytes and whose payload fits the
    length field. *)
Definition wfChunk (c : Container.chunk) : Prop :=
length (Container.c_type c) = 4%nat
/\ length (Container.c_crc c) = 4%nat
/\ Z.of_nat (length (Container.c_data c)) < 2 ^ 32.

(** The tags of the chunks that carry a sequence number, frame by frame:
    the frame-control chunk, then one frame-data chunk per data payload. *)
Definition sequenceTags (fs : list frame) : list (list byte) :=
flat_map (fun f => bytesOf "fcTL" :: replicate (length (f_idats f)) (bytesOf "fdAT")) fs.

(** The numbers an interval of the counter takes: [s], [s+1], ... in 32
    bits. *)
Definition countFrom (s : Z) (n : nat) : list Z :=
  map (fun k => uint32 (s + Z.of_nat k)) (seq 0 n).

(** ** Inputs of the examples *)
Module Inputs.

(** Three frames of different sizes and color models inside the canvas of
    the first, with a uniform delay. *)
Definition three : APNG :=
mkAPNG [Demo.rgba 0 0 2 1 [1; 2; 3; 4; 5; 6; 7; 8];
        Demo.rgba 1 0 2 1 [9; 9; 9; 9];
        Demo.gray 0 0 1 1 [7]]
       [10; 10; 10] None 0.

(** Two paletted frames with a translucent color, and disposal codes. *)
Definition twoPaletted : APNG :=
mkAPNG [Demo.paletted 0 0 2 1 [(0, 0, 0, 255); (255, 0, 0, 128)] [0; 1];
        Demo.paletted 0 0 2 1 [(0, 0, 0, 255); (255, 0, 0, 128)] [1; 0]]
       [10; 20] (Some [1; 2]) 3.

(** Two frames of the same size that are not paletted and differ in their
    color model. *)
Definition mixed : APNG :=
mkAPNG [Demo.rgba 0 0 1 1 [1; 2; 3; 4]; Demo.gray 0 0 1 1 [7]] [10; 10] None 0.

(** A second frame that reaches beyond the canvas of the first. *)
Definition outside : APNG :=
mkAPNG [Demo.rgba 0 0 2 2 []; Demo.rgba 1 1 3 2 []] [10; 10] None 0.

(** One pixel, far from the origin. *)
Definition farOffset : APNG :=
mkAPNG [Demo.rgba (2 ^ 32) 0 (2 ^ 32 + 1) 1 [1; 2; 3; 4]] [10] None 0.

(** A paletted frame without pixels, which the external encoder refuses. *)
Definition emptyPaletted : APNG :=
mkAPNG [Demo.paletted 0 0 0 0 [(0, 0, 0, 255)] []] [10] None 0.

End Inputs.

(** The stream [s], read chunk by chunk from its start, has a chunk with
    tag [name] and payload [data] before any IEND chunk: each chunk is four
    bytes of length, four bytes of tag, the payload and four bytes of CRC. *)
Inductive chunkAt (name : string) (data : list byte) : list byte -> Prop :=
| chunkAt_here (lenb rest : list byte) :
    length lenb = 4%nat ->
    BigEndian_Uint32 lenb = Z.of_nat (length data) ->
    chunkAt name data (lenb ++ bytesOf name ++ data ++ rest)
| chunkAt_later (lenb tag body crc rest : list byte) :
    length lenb = 4%nat ->
    length tag = 4%nat ->
    tag <> bytesOf "IEND" ->
    BigEndian_Uint32 lenb = Z.of_nat (length body) ->
    length crc = 4%nat ->
    chunkAt name data rest ->
    chunkAt name data (lenb ++ tag ++ body ++ crc ++ rest).

(** One of the two palette slots of a fetcher, with the tag that fills it. *)
Inductive slot : Type := slotPLTE | slotTRNS.

Definition slotName (k : slot) : string :=
match k with slotPLTE => "PLTE" | slotTRNS => "tRNS" end.

Definition slotOf (k : slot) (c : chunkFetcher) : option (list byte) :=
match k with slotPLTE => plte c | slotTRNS => trns c end.

(** The errors of the taxonomy of the specification that [EncodeAll] builds
    itself: a violated count invariant, and any violated input invariant. *)
Definition CountError (e : error) : Prop :=
e = errorString "apng: need at least one image"
\/ e = errorString "apng: mismatched image and delay lengths"
\/ e = errorString "apng: mismatch image and disposal lengths".

Definition RegionError (e : error) : Prop :=
e = errorString "apng: must fullfill frame region constraints".

Definition ValidationError (e : error) : Prop :=
CountError e \/ RegionError e.

(** The frame-control chunks of the frames after the first, from the
    sequence number [seq] on. *)
Fixpoint frameControls (seq : Z) (fs : list frame) : list Container.chunk :=
match fs with
| [] => []
| f :: fs' =>
    Container.sealed "fcTL" (fcTLData seq (f_bounds f) (f_delay f) (f_dispose f))
    :: frameControls (advance seq (S (length (f_idats f)))) fs'
end.

(** Neither a palette nor a transparency chunk. *)
Definition notPalette (c : Container.chunk) : Prop :=
Container.hasType "PLTE" c = false /\ Container.hasType "tRNS" c = false.

(** The animation [a] with the color model of every frame replaced. *)
Definition recolor (f : image.Image -> image.Model) (a : APNG) : APNG :=
mkAPNG
  (map (option_map (fun img =>
          image.mkImage (image.Bounds img) (f img) (image.isPaletted img) (image.Pix img)))
       (Images a))
  (Delays a) (Disposals a) (LoopCount a).

(** The count invariants of [EncodeAll]. *)
Definition countsOK (a : APNG) : Prop :=
length (Images a) <> 0%nat
/\ length (Images a) = length (Delays a)
/\ forall ds, Disposals a = Some ds -> length (Images a) = length ds.

(** Every frame is an image, frame 0 has a non-negative origin, and every
    later frame has a non-negative origin and a maximum within that of
    frame 0. *)
Definition withinCanvas (imgs : list (option image.Image)) : Prop :=
exists img0 rest,
  imgs = Some img0 :: rest
  /\ 0 <= image.X (image.Min (image.Bounds img0))
  /\ 0 <= image.Y (image.Min (image.Bounds img0))
  /\ Forall (fun o => exists img,
                o = Some img
                /\ 0 <= image.X (image.Min (image.Bounds img))
                /\ 0 <= image.Y (image.Min (image.Bounds img))
                /\ image.X (image.Max (image.Bounds img)) <= image.X (image.Max (image.Bounds img0))
                /\ image.Y (image.Max (image.Bounds img)) <= image.Y (image.Max (image.Bounds img0)))
       rest.

(** A value that a 32-bit field holds as it is. *)
Definition fits32 (v : Z) : Prop := 0 <= v < 2 ^ 32.

(** What [parsePNGChunk] keeps of a chunk. *)
Definition absorb (p : pngChunk) (c : Container.chunk) : pngChunk :=
if decide (Container.c_type c = bytesOf "IHDR") then
  mkPngChunk (Container.c_data c) (pc_idats p) (pc_plte p) (pc_trns p)
else if decide (Container.c_type c = bytesOf "PLTE") then
  mkPngChunk (pc_ihdr p) (pc_idats p) (Some (Container.c_data c)) (pc_trns p)
else if decide (Container.c_type c = bytesOf "tRNS") then
  mkPngChunk (pc_ihdr p) (pc_idats p) (pc_plte p) (Some (Container.c_data c))
else if decide (Container.c_type c = bytesOf "IDAT") then
  mkPngChunk (pc_ihdr p) (pc_idats p ++ [Container.c_data c]) (pc_plte p) (pc_trns p)
else p.

(** A chunk of a single-image stream that [fetchPNGChunk] reads without a
    panic: not the terminator, a header that fits the scratch array, a
    palette or transparency payload that leaves room for its frame. *)
Definition readable (c : Container.chunk) : Prop :=
wfChunk c
/\ Container.c_type c <> bytesOf "IEND"
/\ (Container.c_type c = bytesOf "IHDR" -> Z.of_nat (length (Container.c_data c)) <= tmpSize)
/\ (Container.c_type c = bytesOf "PLTE" \/ Container.c_type c = bytesOf "tRNS" ->
    Z.of_nat (length (Container.c_data c)) + 8 < 2 ^ 32).

(** Frame data whose chunks fit the 32-bit length field, also behind a
    sequence number. *)
Definition okData (fd : frameData) : Prop :=
Z.of_nat (length (fd_ihdr fd)) < 2 ^ 32
/\ Forall (fun id => Z.of_nat (length id) + 4 < 2 ^ 32) (fd_idats fd).

(** The external encoder returns a well-formed stream for [img]: eight
    bytes of signature, readable chunks whose data payloads leave room for
    a sequence number, and the terminator. *)
Definition wellEncoded (pngEncode : image.Image -> string + list byte) (img : image.Image)
  : Prop :=
exists sig cs lenb rest,
  pngEncode img = inr (sig ++ Container.serialize cs ++ lenb ++ bytesOf "IEND" ++ rest)
  /\ length sig = 8%nat /\ length lenb = 4%nat
  /\ Forall readable cs
  /\ Forall (fun c => Z.of_nat (length (Container.c_data c)) + 4 < 2 ^ 32) cs.

(** The frames the loop still has to write are images with a delay, a
    disposal code and data in the map. *)
Definition ready (a : APNG) (m : gmap nat frameData) (i : nat) : Prop :=
  (exists img delay dispose,
     Images a !! i = Some (Some img) /\ Delays a !! i = Some delay
     /\ disposeOp a i = Some dispose)
  /\ exists fd, m !! i = Some fd /\ okData fd.

(** ** The convenience functions

    [Save] and [APNGBytes] of the helper file of the package: an animation
    with one delay for every frame, no disposal list and loop count 0, sent
    to a file or to a buffer. *)

Section APNGBytes.
(** [bytes.Buffer] as an [io.Writer]. *)
Context `{Writer Buffer}.
Variable pngEncode : image.Image -> string + list byte.

(** [func APNGBytes(images []image.Image, delay uint16) ([]byte, error)]:
    [buf.Bytes()], or the error. *)
Definition APNGBytes (sched : list nat) (images : list (option image.Image)) (delay : Z)
  : option (result (list byte)) :=
let totalFrames := length images in
if decide (totalFrames = 0%nat) then Some (Fail (errorString "apng: no images provided"))
else
  let delays := replicate totalFrames delay in
  let animPng := mkAPNG images delays None 0 in
  let buf := mkBuffer [] in
  '(buf, r) ← EncodeAll pngEncode sched buf animPng;
  match r with
  | Some e => Some (Fail e)
  | None => Some (Ok (bufBytes buf))
  end.

End APNGBytes.

Section Save.
Context {W : Type} `{Writer W}.
Variable pngEncode : image.Image -> string + list byte.

(** [os.Create]: the file, empty and open for writing, or an error. *)
Variable osCreate : string -> W + error.

(** [func Save(filePath string, images []image.Image, delay uint16) error]:
    the file as the call leaves it, when it has created one, and the error
    returned.  The error of the deferred [file.Close] is dropped. *)
Definition Save (sched : list nat) (filePath : string) (images : list (option image.Image))
    (delay : Z) : option (option W * option error) :=
let totalFrames := length images in
if decide (totalFrames = 0%nat) then Some (None, Some (errorString "apng: no images provided"))
else
  let delays := replicate totalFrames delay in
  let animPng := mkAPNG images delays None 0 in
  match osCreate filePath with
  | inr err => Some (None, Some err)
  | inl file =>
      '(file, r) ← EncodeAll pngEncode sched file animPng;
      Some (Some file, r)
  end.

End Save.

(** ** Vocabulary of the statements on streams, writes and errors *)

(** The chunks [parsePNGChunk] keeps something of, and what it looks at in
    a chunk. *)
Definition kept (c : Container.chunk) : bool :=
Container.hasType "IHDR" c || Container.hasType "PLTE" c
|| Container.hasType "tRNS" c || Container.hasType "IDAT" c.

Definition content (c : Container.chunk) : list byte * list byte :=
(Container.c_type c, Container.c_data c).

(** A chunk as [parsePLTE] and [parsetRNS] keep it: length, tag, payload. *)
Definition framedOf (name : string) (c : Container.chunk) : list byte :=
writeUint32 (Z.of_nat (length (Container.c_data c))) ++ bytesOf name ++ Container.c_data c.

(** A palette slot of a fetcher after the chunk [ch]: filled by a chunk
    with the tag [name], left alone by any other. *)
Definition fill (name : string) (old : option (list byte)) (ch : Container.chunk)
  : option (list byte) :=
if Container.hasType name ch then Some (framedOf name ch) else old.

(** The three writes a chunk goes out in: length and tag, payload, CRC. *)
Definition pieces (c : Container.chunk) : list (list byte) :=
[writeUint32 (Z.of_nat (length (Container.c_data c))) ++ Container.c_type c;
 Container.c_data c; Container.c_crc c].

(** A payload that fits the length field. *)
Definition small (c : Container.chunk) : Prop :=
Z.of_nat (length (Container.c_data c)) < 2 ^ 32.

Section WriteAll.
Context {W : Type} `{Writer W}.

(** Successive writes to a destination, up to the first that fails: the
    destination as the last write attempted has left it, and the error of
    that write. *)
Fixpoint writeAll (w : W) (r : option error) (ps : list (list byte)) : W * option error :=
match r, ps with
| None, p :: ps' => let '(w', r') := Write w p in writeAll w' r' ps'
| _, _ => (w, r)
end.

(** The encoder [e] after the writes [ps]. *)
Definition after (e : encoder W) (ps : list (list byte)) : encoder W :=
setWriterErr e (writeAll (writer e) (err e) ps).1 (writeAll (writer e) (err e) ps).2.

(** Between [e] and [e'] the encoder has gone through the writes [ps]. *)
Definition replay (e e' : encoder W) (ps : list (list byte)) : Prop :=
writeAll (writer e) (err e) ps = (writer e', err e').

End WriteAll.

(** The errors of the external encoder and of the chunk readers, as
    [EncodeAll] reports them, and the two errors it makes while it writes. *)
Definition EncodingError (e : error) : Prop :=
(exists msg, e = errorString ("apng: png encoding error(" +:+ msg +:+ ")"))
\/ (exists msg, e = errorString ("apng: palette encoding error: " +:+ msg))
\/ e = ErrUnexpectedEOF.

Definition TooLarge (e : error) : Prop := e = errorString "apng: chunk is too large".

Definition MissingFrame (e : error) : Prop :=
exists i : nat, e = errorString ("apng: missing frame data for index " +:+ pretty i).

(** An encoder on a buffer holds no error, or the one [writeChunk] makes. *)
Definition quiet (e : encoder Buffer) : Prop :=
err e = None \/ err e = Some (errorString "apng: chunk is too large").

(** Further inputs of the examples. *)
Module Samples.

(** A single-image stream with a chunk the readers do not know, two
    palettes and a transparency chunk. *)
Definition chunks : list Container.chunk :=
[Container.sealed "IHDR" (writeUint32 2 ++ writeUint32 1 ++ [8; 3; 0; 0; 0]);
 Container.sealed "gAMA" [0; 0; 177; 143];
 Container.sealed "PLTE" [0; 0; 0; 255; 0; 0];
 Container.sealed "PLTE" [0; 0; 0; 0; 255; 0];
 Container.sealed "tRNS" [255; 128];
 Container.sealed "IDAT" [0; 1];
 Container.sealed "IDAT" [1; 0]].

(** The same chunks without the unknown one, with CRC fields that are
    wrong. *)
Definition bareChunks : list Container.chunk :=
map (fun c => Container.mkChunk (Container.c_type c) (Container.c_data c) [0; 0; 0; 0])
  (List.filter kept chunks).

Definition stream : list byte :=
pngHeader ++ Container.serialize chunks ++ writeUint32 0 ++ bytesOf "IEND" ++ [174; 66; 96; 130].

(** A second frame without pixels, which the external encoder refuses. *)
Definition brokenSecond : APNG :=
mkAPNG [Demo.rgba 0 0 1 1 [1; 2; 3; 4]; Demo.rgba 0 0 0 0 []] [10; 10] None 0.

(** An encoder on an empty buffer. *)
Definition fresh : encoder Buffer := mkEncoder Inputs.three (mkBuffer []) 0 [] [] None.

End Samples.

(** * Properties *)

(** ** The two destinations are writers *)

Lemma Buffer_Write_nil (w : Buffer) (p : list byte) (w' : Buffer) :
  (mkBuffer (bufBytes w ++ p), @None error) = (w', None) ->
  bufBytes w' = bufBytes w ++ p.
Proof. intros Hw. injection Hw as <-. reflexivity. Qed.

#[export] Instance Buffer_Writer : Writer Buffer := {|
  Write b p := (mkBuffer (bufBytes b ++ p), None);
  written := bufBytes;
  Write_nil := Buffer_Write_nil
|}.

Lemma LimitedWriter_Write_nil (w : LimitedWriter) (p : list byte) (w' : LimitedWriter) :
  LimitedWriter_Write w p = (w', None) -> lwBytes w' = lwBytes w ++ p.
Proof.
  unfold LimitedWriter_Write.
  case_decide; intros Hw; [injection Hw as <- | discriminate Hw]. reflexivity.
Qed.

#[export] Instance LimitedWriter_Writer : Writer LimitedWriter := {|
  Write := LimitedWriter_Write;
  written := lwBytes;
  Write_nil := LimitedWriter_Write_nil
|}.

(** ** Big-endian integers *)

Lemma length_writeUint32 (u : Z) : length (writeUint32 u) = 4%nat.
Proof. reflexivity. Qed.

Lemma length_writeUint16 (u : Z) : length (writeUint16 u) = 2%nat.
Proof. reflexivity. Qed.

Lemma uint32_range (x : Z) : 0 <= uint32 x < 2 ^ 32.
Proof. unfold uint32. apply Z.mod_pos_bound. lia. Qed.

Lemma uint32_small (x : Z) : 0 <= x < 2 ^ 32 -> uint32 x = x.
Proof. intros Hx. unfold uint32. apply Z.mod_small. exact Hx. Qed.

Lemma uint32_idemp (x : Z) : uint32 (uint32 x) = uint32 x.
Proof. apply uint32_small, uint32_range. Qed.

Lemma uint16_small (x : Z) : 0 <= x < 2 ^ 16 -> uint16 x = x.
Proof. intros Hx. unfold uint16. apply Z.mod_small. exact Hx. Qed.

Lemma testbit_uint8 (x n : Z) :
  0 <= n -> Z.testbit (uint8 x) n = if n <? 8 then Z.testbit x n else false.
Proof.
  intros Hn. unfold uint8. destruct (Z.ltb_spec n 8).
  - apply Z.mod_pow2_bits_low. lia.
  - apply Z.mod_pow2_bits_high. lia.
Qed.

(** Bit [n] of the byte that [writeUint32] takes from bit [k] on, put back
    at bit [k]. *)
Lemma testbit_byte_at (u k n : Z) :
  0 <= k -> 0 <= n ->
  Z.testbit (Z.shiftl (uint8 (Z.shiftr u k)) k) n
  = if (k <=? n) && (n <? k + 8) then Z.testbit u n else false.
Proof.
  intros Hk Hn. rewrite Z.shiftl_spec by lia.
  destruct (Z.leb_spec k n) as [Hle | Hlt]; simpl.
  - rewrite testbit_uint8 by lia.
    destruct (Z.ltb_spec (n - k) 8), (Z.ltb_spec n (k + 8)); try lia; try reflexivity.
    rewrite Z.shiftr_spec by lia. f_equal. lia.
  - apply Z.testbit_neg_r. lia.
Qed.

Lemma BigEndian_Uint32_writeUint32 (u : Z) :
  BigEndian_Uint32 (writeUint32 u) = uint32 u.
Proof.
  unfold writeUint32, BigEndian_Uint32. rewrite <- (uint32_idemp u). f_equal.
  apply Z.bits_inj'. intros n Hn.
  rewrite <- (Z.shiftl_0_r (uint8 u)), <- (Z.shiftr_0_r u) at 1.
  rewrite !Z.lor_spec, !testbit_byte_at by lia.
  unfold uint32.
  destruct (Z.ltb_spec n 32).
  - rewrite Z.mod_pow2_bits_low by lia.
    destruct (Z.leb_spec 0 n), (Z.ltb_spec n (0 + 8)), (Z.leb_spec 8 n),
      (Z.ltb_spec n (8 + 8)), (Z.leb_spec 16 n), (Z.ltb_spec n (16 + 8)),
      (Z.leb_spec 24 n), (Z.ltb_spec n (24 + 8)); simpl; try lia;
      rewrite ?orb_false_r; reflexivity.
  - rewrite Z.mod_pow2_bits_high by lia.
    destruct (Z.leb_spec 0 n), (Z.ltb_spec n (0 + 8)), (Z.leb_spec 8 n),
      (Z.ltb_spec n (8 + 8)), (Z.leb_spec 16 n), (Z.ltb_spec n (16 + 8)),
      (Z.leb_spec 24 n), (Z.ltb_spec n (24 + 8)); simpl; try lia; reflexivity.
Qed.

Lemma BigEndian_Uint16_writeUint16 (u : Z) :
  BigEndian_Uint16 (writeUint16 u) = uint16 u.
Proof.
  unfold writeUint16, BigEndian_Uint16.
  assert (Hid : uint16 (uint16 u) = uint16 u)
    by (unfold uint16; apply Z.mod_small, Z.mod_pos_bound; lia).
  rewrite <- Hid. f_equal.
  apply Z.bits_inj'. intros n Hn.
  rewrite <- (Z.shiftl_0_r (uint8 u)), <- (Z.shiftr_0_r u) at 1.
  rewrite !Z.lor_spec, !testbit_byte_at by lia.
  unfold uint16.
  destruct (Z.ltb_spec n 16).
  - rewrite Z.mod_pow2_bits_low by lia.
    destruct (Z.leb_spec 0 n), (Z.ltb_spec n (0 + 8)), (Z.leb_spec 8 n),
      (Z.ltb_spec n (8 + 8)); simpl; try lia; rewrite ?orb_false_r; reflexivity.
  - rewrite Z.mod_pow2_bits_high by lia.
    destruct (Z.leb_spec 0 n), (Z.ltb_spec n (0 + 8)), (Z.leb_spec 8 n),
      (Z.ltb_spec n (8 + 8)); simpl; try lia; reflexivity.
Qed.

Lemma BigEndian_Uint32_range (b : list byte) : 0 <= BigEndian_Uint32 b < 2 ^ 32.
Proof.
  unfold BigEndian_Uint32.
  destruct b as [|b0 [|b1 [|b2 [|b3 b]]]]; try lia. apply uint32_range.
Qed.

(** [BigEndian_Uint32] reads the first four bytes only. *)
Lemma BigEndian_Uint32_app (u : Z) (rest : list byte) :
  BigEndian_Uint32 (take 4 (writeUint32 u ++ rest)) = uint32 u.
Proof. rewrite <- BigEndian_Uint32_writeUint32. reflexivity. Qed.

(** ** The checksum of a chunk *)

Lemma not32_involutive (x : Z) : crc32.not32 (crc32.not32 x) = x.
Proof.
  unfold crc32.not32.
  rewrite Z.lxor_assoc, Z.lxor_nilpotent. apply Z.lxor_0_r.
Qed.

(** Feeding a digest in two writes is feeding it the concatenation. *)
Lemma crc32_Write_app (d : Z) (p q : list byte) :
  crc32.Write (crc32.Write d p) q = crc32.Write d (p ++ q).
Proof.
  unfold crc32.Write, crc32.simpleUpdate.
  rewrite not32_involutive, fold_left_app. reflexivity.
Qed.

Lemma crc32_of_two_writes (tag b : list byte) :
  crc32.Sum32 (crc32.Write (crc32.Write crc32.NewIEEE tag) b)
  = crc32.ChecksumIEEE (tag ++ b).
Proof. unfold crc32.Sum32, crc32.ChecksumIEEE. apply crc32_Write_app. Qed.

(** The check value of the CRC catalogue: the ASCII digits 1 to 9. *)
Example crc32_check_value :
  crc32.ChecksumIEEE (bytesOf "123456789") = 0xcbf43926.
Proof. vm_compute. reflexivity. Qed.

(** The CRC of the empty IEND chunk, as every PNG file ends. *)
Example crc32_IEND :
  writeUint32 (crc32.ChecksumIEEE (bytesOf "IEND")) = [0xae; 0x42; 0x60; 0x82].
Proof. vm_compute. reflexivity. Qed.

(** ** Writing chunks *)

Section EncoderFacts.
Context {W : Type} `{Writer W}.

Implicit Types e : encoder W.

Lemma emits_refl e : emits e e [].
Proof.
  intros He. split; [exact He|]. split; [|constructor].
  unfold Container.serialize. simpl. rewrite app_nil_r. reflexivity.
Qed.

Lemma emits_trans e1 e2 e3 cs1 cs2 :
  emits e1 e2 cs1 -> emits e2 e3 cs2 -> emits e1 e3 (cs1 ++ cs2).
Proof.
  intros H12 H23 He3.
  destruct (H23 He3) as (He2 & Hw23 & Hs2).
  destruct (H12 He2) as (He1 & Hw12 & Hs1).
  split; [exact He1|]. split; [|apply Forall_app; split; assumption].
  rewrite Hw23, Hw12. unfold Container.serialize.
  rewrite map_app, concat_app, app_assoc. reflexivity.
Qed.

Lemma sameFrame_refl e : sameFrame e e.
Proof. repeat split. Qed.

Lemma sameFrame_trans e1 e2 e3 : sameFrame e1 e2 -> sameFrame e2 e3 -> sameFrame e1 e3.
Proof.
  intros (Ha & Hh & Hd) (Ha' & Hh' & Hd'). repeat split; congruence.
Qed.

(** An encoder that holds an error writes nothing and keeps its error. *)
Lemma writeChunk_sticky e b name x :
  err e = Some x -> writeChunk e b name = Some e.
Proof. intros He. unfold writeChunk. rewrite He. reflexivity. Qed.

Lemma nameBytes_Some name tag :
  nameBytes name = Some tag -> (4 <= String.length name)%nat /\ tag = take 4 (bytesOf name).
Proof.
  unfold nameBytes. case_decide; intros Hn; [|discriminate Hn].
  injection Hn as <-. split; [assumption | reflexivity].
Qed.

Lemma length_bytesOf (s : string) : length (bytesOf s) = String.length s.
Proof. induction s as [|a s IH]; simpl; [reflexivity | rewrite IH; reflexivity]. Qed.

(** [writeChunk] never touches the animation, the frame or the sequence
    number. *)
Lemma writeChunk_frame e b name e' :
  writeChunk e b name = Some e' -> sameFrame e e' /\ seqNum e' = seqNum e.
Proof.
  unfold writeChunk. destruct (err e) as [x|].
  { intros [= <-]. split; [apply sameFrame_refl | reflexivity]. }
  destruct (negb _).
  { intros [= <-]. repeat split. }
  destruct (nameBytes name) as [tag|]; simpl; [|discriminate].
  destruct (Write (writer e) _) as [w1 [x1|]].
  { intros [= <-]. repeat split. }
  destruct (Write w1 b) as [w2 [x2|]].
  { intros [= <-]. repeat split. }
  destruct (Write w2 _) as [w3 r3].
  intros [= <-]. repeat split.
Qed.

(** A chunk that went out without an error is, byte for byte, the length of
    the payload, the tag, the payload and the CRC of tag and payload. *)
Lemma writeChunk_emits e b name e' :
  writeChunk e b name = Some e' -> emits e e' [Container.sealed name b].
Proof.
  unfold writeChunk, emits. destruct (err e) as [x|] eqn:He.
  { intros [= <-] He'. congruence. }
  destruct (Z.eqb_spec (uint32 (Z.of_nat (length b))) (Z.of_nat (length b))) as [Hn|Hn]; simpl.
  2: { intros [= <-]. discriminate. }
  destruct (nameBytes name) as [tag|] eqn:Htag; simpl; [|discriminate].
  apply nameBytes_Some in Htag as [Hlen ->].
  destruct (Write (writer e) _) as [w1 [x1|]] eqn:H1.
  { intros [= <-]. discriminate. }
  destruct (Write w1 b) as [w2 [x2|]] eqn:H2.
  { intros [= <-]. discriminate. }
  destruct (Write w2 _) as [w3 r3] eqn:H3.
  intros [= <-]. simpl. intros ->.
  apply Write_nil in H1, H2, H3.
  split; [reflexivity|]. split.
  - rewrite H3, H2, H1. unfold Container.serialize, Container.chunkBytes, Container.sealed.
    simpl. rewrite app_nil_r, Hn.
    rewrite crc32_of_two_writes. rewrite <- !app_assoc. reflexivity.
  - constructor; [|constructor]. simpl.
    rewrite <- Hn. apply uint32_range.
Qed.

(** [writeChunk] panics on a tag shorter than four bytes only. *)
Lemma writeChunk_total e b name :
  (4 <= String.length name)%nat -> is_Some (writeChunk e b name).
Proof.
  intros Hlen. unfold writeChunk, nameBytes.
  destruct (err e); [eexists; reflexivity|].
  destruct (negb _); [eexists; reflexivity|].
  rewrite decide_True by assumption. simpl.
  destruct (Write (writer e) _) as [w1 [x1|]]; [eexists; reflexivity|].
  destruct (Write w1 b) as [w2 [x2|]]; [eexists; reflexivity|].
  destruct (Write w2 _) as [w3 r3]. eexists; reflexivity.
Qed.

End EncoderFacts.

Section EncoderSteps.
Context {W : Type} `{Writer W}.

Implicit Types e : encoder W.

Lemma writeIHDR_emits e e' :
  writeIHDR e = Some e' ->
  sameFrame e e' /\ seqNum e' = seqNum e /\ emits e e' [Container.sealed "IHDR" (ihdr e)].
Proof.
  unfold writeIHDR. intros Hw.
  destruct (writeChunk_frame _ _ _ _ Hw) as [Hf Hs].
  auto using writeChunk_emits.
Qed.

Lemma writeacTL_emits e e' :
  writeacTL e = Some e' ->
  sameFrame e e' /\ seqNum e' = seqNum e
  /\ emits e e' [Container.sealed "acTL" (acTLData (aPNG e))].
Proof.
  unfold writeacTL. intros Hw.
  destruct (writeChunk_frame _ _ _ _ Hw) as [Hf Hs].
  auto using writeChunk_emits.
Qed.

Lemma writeIEND_emits e e' :
  writeIEND e = Some e' -> emits e e' [Container.sealed "IEND" []].
Proof. apply writeChunk_emits. Qed.

(** The frame-control chunk of frame [i] carries the sequence number the
    encoder holds, and moves it on by one. *)
Lemma writefcTL_emits e i e' :
  writefcTL e i = Some e' ->
  exists img delay dispose,
    Images (aPNG e) !! i = Some (Some img)
    /\ Delays (aPNG e) !! i = Some delay
    /\ disposeOp (aPNG e) i = Some dispose
    /\ sameFrame e e'
    /\ seqNum e' = uint32 (seqNum e + 1)
    /\ emits e e' [Container.sealed "fcTL"
                     (fcTLData (seqNum e) (image.Bounds img) delay dispose)].
Proof.
  unfold writefcTL. intros Hw.
  destruct (Images (aPNG e) !! i) as [[img|]|] eqn:Himg; simpl in Hw; try discriminate.
  destruct (Delays (aPNG e) !! i) as [delay|] eqn:Hdelay; simpl in Hw; try discriminate.
  destruct (disposeOp (aPNG e) i) as [dispose|] eqn:Hdisp; simpl in Hw; try discriminate.
  destruct (writeChunk e _ "fcTL") as [e1|] eqn:Hc; simpl in Hw; try discriminate.
  injection Hw as <-.
  destruct (writeChunk_frame _ _ _ _ Hc) as [Hf Hs].
  exists img, delay, dispose.
  do 3 (split; [reflexivity|]). split; [exact Hf|].
  split; [simpl; rewrite Hs; reflexivity|].
  exact (writeChunk_emits _ _ _ _ Hc).
Qed.

Lemma writeIDATs_loop_emits ids : forall e e',
  writeIDATs_loop e ids = Some e' ->
  sameFrame e e' /\ seqNum e' = seqNum e
  /\ emits e e' (map (Container.sealed "IDAT") ids).
Proof.
  induction ids as [|id ids IH]; intros e e' Hw; simpl in Hw.
  - injection Hw as <-. auto using sameFrame_refl, emits_refl.
  - destruct (writeChunk e id "IDAT") as [e1|] eqn:Hc; simpl in Hw; [|discriminate].
    destruct (writeChunk_frame _ _ _ _ Hc) as [Hf Hs].
    destruct (IH _ _ Hw) as (Hf' & Hs' & He).
    split; [eauto using sameFrame_trans|]. split; [congruence|].
    apply (emits_trans _ e1 _ [_]); [apply (writeChunk_emits _ _ _ _ Hc) | exact He].
Qed.

(** Every fdAT chunk carries the sequence number the encoder holds when the
    chunk is built, and moves it on by one. *)
Lemma writefdATs_loop_emits ids : forall e e',
  writefdATs_loop e ids = Some e' ->
  sameFrame e e' /\ seqNum e' = advance (seqNum e) (length ids)
  /\ emits e e' (fdATChunks (seqNum e) ids).
Proof.
  induction ids as [|id ids IH]; intros e e' Hw; simpl in Hw.
  - injection Hw as <-. auto using sameFrame_refl, emits_refl.
  - destruct (writeChunk e _ "fdAT") as [e1|] eqn:Hc; simpl in Hw; [|discriminate].
    destruct (writeChunk_frame _ _ _ _ Hc) as [Hf Hs].
    destruct (IH _ _ Hw) as (Hf' & Hs' & He). simpl in Hs', He. rewrite Hs in Hs', He.
    split; [apply (sameFrame_trans _ e1); [exact Hf | exact Hf']|].
    split; [exact Hs'|].
    apply (emits_trans _ e1 _ [_]); [apply (writeChunk_emits _ _ _ _ Hc) | exact He].
Qed.

Lemma writeGlobalPalette_emits e has gp gt e' :
  (forall g, gp = Some g -> wfFramed g) ->
  (forall g, gt = Some g -> wfFramed g) ->
  writeGlobalPalette e has gp gt = Some e' ->
  sameFrame e e' /\ seqNum e' = seqNum e /\ emits e e' (paletteChunks has gp gt).
Proof.
  intros Hgp Hgt. unfold writeGlobalPalette, paletteChunks.
  destruct has; [|intros [= <-]; auto using sameFrame_refl, emits_refl].
  destruct gp as [g|]; [|intros [= <-]; auto using sameFrame_refl, emits_refl].
  rewrite (Hgp g eq_refl). simpl.
  destruct (writeChunk e (drop 8 g) "PLTE") as [e1|] eqn:Hc; simpl; [|discriminate].
  destruct (writeChunk_frame _ _ _ _ Hc) as [Hf Hs].
  pose proof (writeChunk_emits _ _ _ _ Hc) as He.
  destruct gt as [t|]; [|intros [= <-]; auto].
  rewrite (Hgt t eq_refl). simpl. intros Hc'.
  destruct (writeChunk_frame _ _ _ _ Hc') as [Hf' Hs'].
  split; [eauto using sameFrame_trans|]. split; [congruence|].
  apply (emits_trans _ e1 _ [_] [_]); [exact He | apply (writeChunk_emits _ _ _ _ Hc')].
Qed.

(** The loop over the later frames: on a run to its end, the frames it has
    found in the map went out in the order of their indices. *)
Lemma otherFrames_emits m todo : forall e e',
  otherFrames m e todo = Some (e', None) ->
  exists fs,
    mapM (frameFrom (aPNG e) m) todo = Some fs
    /\ aPNG e' = aPNG e
    /\ emits e e' (laterFrames (seqNum e) fs).
Proof.
  induction todo as [|i todo IH]; intros e e' Hw; simpl in Hw.
  - injection Hw as <-. exists []. auto using emits_refl.
  - destruct (m !! i) as [fd|] eqn:Hfd; [|discriminate].
    destruct (writefcTL _ i) as [e1|] eqn:Hfc; simpl in Hw; [|discriminate].
    destruct (writefdATs e1) as [e2|] eqn:Hfd2; simpl in Hw; [|discriminate].
    apply writefcTL_emits in Hfc
      as (img & delay & dispose & Himg & Hdelay & Hdisp & (Ha & Hh & Hd) & Hs & He1).
    apply writefdATs_loop_emits in Hfd2 as ((Ha2 & _ & _) & Hs2 & He2).
    destruct (IH _ _ Hw) as (fs & Hfs & Ha3 & He3).
    simpl in *. rewrite Ha2, Ha in Hfs.
    exists (mkFrame (image.Bounds img) delay dispose (fd_ihdr fd) (fd_idats fd) :: fs).
    split.
    { apply (mapM_Some_2 (frameFrom (aPNG e) m) (i :: todo)).
      constructor; [|apply mapM_Some; exact Hfs].
      unfold frameFrom. rewrite Himg, Hdelay, Hdisp, Hfd. reflexivity. }
    split; [congruence|].
    simpl. rewrite Hd, Hs in He2. rewrite Hs2, Hd, Hs in He3. simpl in He2.
    apply (emits_trans _ e1 _ [_]); [exact He1|].
    apply (emits_trans _ e2); [exact He2 | exact He3].
Qed.

End EncoderSteps.

Section Assemble.
Context {W : Type} `{Writer W}.

(** The ordered replay: when it returns without an error, the destination
    has received the container of the frames found in the map, in the order
    of their indices. *)
Lemma assemble_emits (a : APNG) (w : W) (m : gmap nat frameData) (has : bool)
    (gp gt : option (list byte)) (w' : W) :
  (forall g, gp = Some g -> wfFramed g) ->
  (forall g, gt = Some g -> wfFramed g) ->
  assemble a w m has gp gt = Some (w', None) ->
  exists fs,
    mapM (frameFrom a m) (seq 0 (length (Images a))) = Some fs
    /\ written w' = written w ++ Container.serialize (container a (paletteChunks has gp gt) fs)
    /\ Forall (fun c => Z.of_nat (length (Container.c_data c)) < 2 ^ 32)
         (container a (paletteChunks has gp gt) fs).
Proof.
  intros Hgp Hgt. unfold assemble.
  destruct (m !! 0%nat) as [fd|] eqn:Hfd; [|discriminate].
  set (e0 := mkEncoder a w 0 (fd_ihdr fd) (fd_idats fd) None).
  destruct (writeIHDR e0) as [e1|] eqn:H1; simpl; [|discriminate].
  destruct (writeGlobalPalette e1 has gp gt) as [e2|] eqn:H2; simpl; [|discriminate].
  destruct (writeacTL e2) as [e3|] eqn:H3; simpl; [|discriminate].
  destruct (writefcTL e3 0) as [e4|] eqn:H4; simpl; [|discriminate].
  destruct (writeIDATs e4) as [e5|] eqn:H5; simpl; [|discriminate].
  destruct (otherFrames m e5 _) as [[e6 [x|]]|] eqn:H6; simpl; try discriminate.
  destruct (writeIEND e6) as [e7|] eqn:H7; simpl; [|discriminate].
  intros [= <- Herr].
  apply writeIHDR_emits in H1 as ((Ha1 & Hh1 & Hd1) & Hs1 & He1).
  apply writeGlobalPalette_emits in H2 as ((Ha2 & Hh2 & Hd2) & Hs2 & He2); [|assumption..].
  apply writeacTL_emits in H3 as ((Ha3 & Hh3 & Hd3) & Hs3 & He3).
  apply writefcTL_emits in H4
    as (img & delay & dispose & Himg & Hdelay & Hdisp & (Ha4 & Hh4 & Hd4) & Hs4 & He4).
  apply writeIDATs_loop_emits in H5 as ((Ha5 & Hh5 & Hd5) & Hs5 & He5).
  apply otherFrames_emits in H6 as (fs & Hfs & Ha6 & He6).
  apply writeIEND_emits in H7.
  assert (Ha : aPNG e3 = a) by (rewrite Ha3, Ha2, Ha1; reflexivity).
  assert (Hseq : seqNum e3 = 0) by (rewrite Hs3, Hs2, Hs1; reflexivity).
  rewrite Ha in Himg, Hdelay, Hdisp.
  rewrite Ha5, Ha4, Ha in Hfs.
  rewrite Hs5, Hs4, Hseq in He6. rewrite Hseq in He4. rewrite Ha2, Ha1 in He3.
  rewrite Hd4, Hd3, Hd2, Hd1 in He5. simpl in He1, He3, He5.
  change (uint32 (0 + 1)) with 1 in He6.
  set (f0 := mkFrame (image.Bounds img) delay dispose (fd_ihdr fd) (fd_idats fd)).
  assert (Hn : length (Images a) = S (length (Images a) - 1)).
  { apply lookup_lt_Some in Himg. lia. }
  exists (f0 :: fs). split.
  { rewrite Hn. apply (mapM_Some_2 (frameFrom a m) (0%nat :: seq 1 _)).
    constructor; [|apply mapM_Some; exact Hfs].
    unfold frameFrom. rewrite Himg, Hdelay, Hdisp, Hfd. reflexivity. }
  pose proof (emits_trans _ _ _ _ _ He1
               (emits_trans _ _ _ _ _ He2
                  (emits_trans _ _ _ _ _ He3
                     (emits_trans _ _ _ _ _ He4
                        (emits_trans _ _ _ _ _ He5
                           (emits_trans _ _ _ _ _ He6 H7)))))) as Hall.
  destruct (Hall Herr) as (_ & Hw & Hsmall). simpl in Hw, Hsmall.
  simpl. rewrite <- ?app_assoc in Hw. rewrite <- ?app_assoc in Hsmall.
  simpl in Hw, Hsmall.
  split; [exact Hw | exact Hsmall].
Qed.

End Assemble.

(** ** Reading a stream: progress and termination *)

Lemma ReadFull_nil (s : list byte) (n : nat) (data s' : list byte) :
  ReadFull s n = (data, None, s') -> s = data ++ s' /\ length data = n.
Proof.
  unfold ReadFull. repeat case_decide; intros [= <- <-]; subst.
  - split; reflexivity.
  - rewrite take_drop, length_take. split; [reflexivity | lia].
Qed.

Lemma ReadFull_length (s : list byte) (n : nat) (data : list byte) (r : option error)
    (s' : list byte) :
  ReadFull s n = (data, r, s') -> (length s' <= length s)%nat.
Proof.
  unfold ReadFull. repeat case_decide; intros [= <- <- <-]; simpl; try lia.
  rewrite length_drop. lia.
Qed.

(** Reading [n] bytes that are there. *)
Lemma ReadFull_app (data rest : list byte) :
  ReadFull (data ++ rest) (length data) = (data, None, rest).
Proof.
  unfold ReadFull. destruct data as [|b data]; [reflexivity|].
  rewrite decide_False by (simpl; lia).
  rewrite decide_False by (simpl; lia).
  rewrite decide_False by (rewrite length_app; lia).
  rewrite take_app_length, drop_app_length. reflexivity.
Qed.

Lemma parseIHDR_shrinks c len : shrinks c (parseIHDR c len).
Proof.
  unfold shrinks, parseIHDR. intros c' e. case_decide; [discriminate|].
  destruct (ReadFull _ _) as [[data r] s'] eqn:Hr. apply ReadFull_length in Hr.
  destruct r; [intros [= <- <-]; exact Hr|].
  destruct (pc c); simpl; [|discriminate]. intros [= <- <-]. exact Hr.
Qed.

Lemma parseIDAT_shrinks c len : shrinks c (parseIDAT c len).
Proof.
  unfold shrinks, parseIDAT, Next. intros c' e.
  case_decide; [intros [= <- <-]; simpl; rewrite length_drop; lia|].
  destruct (pc c); simpl; [|discriminate].
  intros [= <- <-]. simpl. rewrite length_drop. lia.
Qed.

Lemma parsePLTE_shrinks c len : shrinks c (parsePLTE c len).
Proof.
  unfold shrinks, parsePLTE. intros c' e.
  destruct (ReadFull _ _) as [[data r] s'] eqn:Hr. apply ReadFull_length in Hr.
  destruct r; [intros [= <- <-]; exact Hr|].
  destruct (framed _ _ _); simpl; [|discriminate]. intros [= <- <-]. exact Hr.
Qed.

Lemma parsetRNS_shrinks c len : shrinks c (parsetRNS c len).
Proof.
  unfold shrinks, parsetRNS. intros c' e.
  destruct (ReadFull _ _) as [[data r] s'] eqn:Hr. apply ReadFull_length in Hr.
  destruct r; [intros [= <- <-]; exact Hr|].
  destruct (framed _ _ _); simpl; [|discriminate]. intros [= <- <-]. exact Hr.
Qed.

Lemma skipCRC_shrinks c r : shrinks c r -> shrinks c (skipCRC r).
Proof.
  unfold shrinks, skipCRC. intros Hr c' e.
  destruct r as [[c1 e1]|]; simpl; [|discriminate].
  intros [= <- <-]. simpl. rewrite length_drop. specialize (Hr c1 e1 eq_refl). lia.
Qed.

Lemma setStage_shrinks c s r : shrinks (setStage c s) r -> shrinks c r.
Proof. exact id. Qed.

(** A chunk read without an error has consumed its eight-byte header. *)
Lemma parsePNGChunk_progress c c' :
  parsePNGChunk c = Some (c', None) -> (length (bb c') < length (bb c))%nat.
Proof.
  unfold parsePNGChunk.
  destruct (ReadFull (bb c) 8) as [[tmp r] s'] eqn:Hr.
  destruct r; [discriminate|]. apply ReadFull_nil in Hr as [Hs Hlen].
  intros Hstep. eapply (skipCRC_shrinks (setBB c s')) in Hstep.
  - simpl in Hstep. rewrite Hs, length_app. lia.
  - repeat case_decide.
    + apply (setStage_shrinks _ dsSeenIHDR), parseIHDR_shrinks.
    + apply (setStage_shrinks _ dsSeenPLTE), parsePLTE_shrinks.
    + apply (setStage_shrinks _ dsSeentRNS), parsetRNS_shrinks.
    + apply (setStage_shrinks _ dsSeenIDAT), parseIDAT_shrinks.
    + intros ? ? [= <- <-]. reflexivity.
    + intros ? ? [= <- <-]. simpl. rewrite length_drop. lia.
Qed.

Lemma parsePNGChunkWithPalette_progress c c' :
  parsePNGChunkWithPalette c = Some (c', None) -> (length (bb c') < length (bb c))%nat.
Proof.
  unfold parsePNGChunkWithPalette.
  destruct (ReadFull (bb c) 8) as [[tmp r] s'] eqn:Hr.
  destruct r; [discriminate|]. apply ReadFull_nil in Hr as [Hs Hlen].
  intros Hstep. eapply (skipCRC_shrinks (setBB c s')) in Hstep.
  - simpl in Hstep. rewrite Hs, length_app. lia.
  - repeat case_decide; try discriminate.
    + destruct (ReadFull _ _) as [[data r] s''] eqn:Hr. apply ReadFull_length in Hr.
      intros ? ? [= <- <-]. exact Hr.
    + apply (setStage_shrinks _ dsSeenPLTE), parsePLTE_shrinks.
    + apply (setStage_shrinks _ dsSeentRNS), parsetRNS_shrinks.
    + intros ? ? [= <- <-]. simpl. rewrite length_drop. lia.
    + intros ? ? [= <- <-]. reflexivity.
    + intros ? ? [= <- <-]. simpl. rewrite length_drop. lia.
Qed.

Section FetchLoop.
Variable step : chunkFetcher -> option (chunkFetcher * option error).
Hypothesis step_progress :
  forall c c', step c = Some (c', None) -> (length (bb c') < length (bb c))%nat.

(** The loop ends before the fuel does. *)
Lemma fetchLoop_terminates (fuel : nat) : forall c,
  (length (bb c) < fuel)%nat -> fetchLoop step fuel c <> OutOfFuel.
Proof.
  induction fuel as [|fuel IH]; intros c Hlen; [lia|]. simpl.
  case_decide; [discriminate|].
  destruct (step c) as [[c' [e|]]|] eqn:Hstep; try discriminate.
  apply IH. apply step_progress in Hstep. lia.
Qed.

(** More fuel does not change the result. *)
Lemma fetchLoop_more_fuel (fuel : nat) : forall c r k,
  fetchLoop step fuel c = Finished r -> fetchLoop step (fuel + k) c = Finished r.
Proof.
  induction fuel as [|fuel IH]; intros c r k; simpl; [discriminate|].
  case_decide; [trivial|].
  destruct (step c) as [[c' [e|]]|]; trivial. apply IH.
Qed.

Lemma runFetch_Finished (c : chunkFetcher) :
  fetchLoop step (S (length (bb c))) c = Finished (runFetch step c).
Proof.
  unfold runFetch.
  destruct (fetchLoop step _ c) eqn:Hl; [reflexivity|].
  exfalso. revert Hl. apply fetchLoop_terminates. lia.
Qed.

(** The result of a run, from any fuel that sufficed. *)
Lemma runFetch_of_fuel (fuel : nat) (c : chunkFetcher) r :
  fetchLoop step fuel c = Finished r -> runFetch step c = r.
Proof.
  intros Hl. pose proof (runFetch_Finished c) as Hrun.
  apply (fetchLoop_more_fuel _ _ _ (S (length (bb c)))) in Hl.
  apply (fetchLoop_more_fuel _ _ _ fuel) in Hrun.
  rewrite Nat.add_comm, Hrun in Hl. injection Hl as Hl. exact Hl.
Qed.

(** What the steps preserve holds at the end of a run. *)
Lemma runFetch_invariant (P : chunkFetcher -> Prop) :
  (forall c c', P c -> step c = Some (c', None) -> P c') ->
  forall c c', P c -> runFetch step c = Some (Ok c') -> P c'.
Proof.
  intros Hstep c c' Hc Hrun.
  pose proof (runFetch_Finished c) as Hl. rewrite Hrun in Hl. clear Hrun.
  remember (S (length (bb c))) as fuel eqn:Hfuel. clear Hfuel. revert c Hc Hl.
  induction fuel as [|fuel IH]; intros c Hc; simpl; [discriminate|].
  case_decide; [intros [= <-]; exact Hc|].
  destruct (step c) as [[c1 [e|]]|] eqn:Hs; try discriminate.
  apply IH. apply (Hstep c); assumption.
Qed.

End FetchLoop.

(** ** The palette slices *)

Lemma framed_wf (name : string) (len : Z) (data g : list byte) :
  String.length name = 4%nat -> 0 <= len < 2 ^ 32 -> length data = Z.to_nat len ->
  framed name len data = Some g ->
  wfFramed g /\ drop 8 g = data.
Proof.
  intros Hname Hlen Hdata. unfold framed. case_decide as Hwrap; [discriminate|].
  intros Hg.
  assert (g = writeUint32 len ++ bytesOf name ++ data) as -> by congruence. clear Hg.
  assert (Hdrop : drop 8 (writeUint32 len ++ bytesOf name ++ data) = data).
  { rewrite app_assoc. apply drop_app_length'.
    rewrite length_app, length_bytesOf, Hname. reflexivity. }
  split; [|exact Hdrop].
  unfold wfFramed, payloadOfFramed. rewrite Hdrop.
  rewrite decide_False by (rewrite length_app, length_writeUint32; lia).
  rewrite BigEndian_Uint32_app, (uint32_small len) by exact Hlen.
  assert (Hhi : uint32 (8 + len) = 8 + len).
  { apply uint32_small. unfold uint32 in Hwrap.
    destruct (Z_lt_ge_dec (len + 8) (2 ^ 32)) as [Hlt|Hge]; [lia|].
    exfalso. apply Hwrap.
    replace (len + 8) with (len + 8 - 2 ^ 32 + 1 * 2 ^ 32) by lia.
    rewrite Z.mod_add by lia. rewrite Z.mod_small; lia. }
  rewrite Hhi.
  rewrite decide_True.
  - f_equal. apply take_ge. lia.
  - rewrite !length_app, length_writeUint32, length_bytesOf, Hname. lia.
Qed.

Lemma parsePLTE_palWf c len c' e :
  0 <= len < 2 ^ 32 -> palWf c -> parsePLTE c len = Some (c', e) -> palWf c'.
Proof.
  intros Hlen [Hp Ht]. unfold parsePLTE.
  destruct (ReadFull _ _) as [[data r] s'] eqn:Hr.
  destruct r; [intros [= <- <-]; split; assumption|].
  apply ReadFull_nil in Hr as [_ Hdata].
  destruct (framed _ _ _) as [g|] eqn:Hg; simpl; [|discriminate].
  intros [= <- <-]. split; simpl; [|exact Ht].
  intros g' [= <-]. eapply framed_wf; [| | |exact Hg]; [reflexivity | exact Hlen | exact Hdata].
Qed.

Lemma parsetRNS_palWf c len c' e :
  0 <= len < 2 ^ 32 -> palWf c -> parsetRNS c len = Some (c', e) -> palWf c'.
Proof.
  intros Hlen [Hp Ht]. unfold parsetRNS.
  destruct (ReadFull _ _) as [[data r] s'] eqn:Hr.
  destruct r; [intros [= <- <-]; split; assumption|].
  apply ReadFull_nil in Hr as [_ Hdata].
  destruct (framed _ _ _) as [g|] eqn:Hg; simpl; [|discriminate].
  intros [= <- <-]. split; simpl; [exact Hp|].
  intros g' [= <-]. eapply framed_wf; [| | |exact Hg]; [reflexivity | exact Hlen | exact Hdata].
Qed.

Lemma parsePNGChunkWithPalette_palWf c c' e :
  palWf c -> parsePNGChunkWithPalette c = Some (c', e) -> palWf c'.
Proof.
  intros Hc. unfold parsePNGChunkWithPalette.
  destruct (ReadFull (bb c) 8) as [[tmp r] s'].
  destruct r; [intros [= <- <-]; exact Hc|].
  pose proof (BigEndian_Uint32_range (take 4 tmp)) as Hlen.
  unfold skipCRC.
  repeat case_decide; simpl; try discriminate.
  - destruct (ReadFull _ _) as [[data r] s'']. simpl. intros [= <- <-]. exact Hc.
  - destruct (parsePLTE _ _) as [[c1 e1]|] eqn:Hp; simpl; [|discriminate].
    intros [= <- <-]. eapply parsePLTE_palWf in Hp; [exact Hp | exact Hlen | exact Hc].
  - destruct (parsetRNS _ _) as [[c1 e1]|] eqn:Hp; simpl; [|discriminate].
    intros [= <- <-]. eapply parsetRNS_palWf in Hp; [exact Hp | exact Hlen | exact Hc].
  - intros [= <- <-]. exact Hc.
  - intros [= <- <-]. exact Hc.
  - intros [= <- <-]. exact Hc.
Qed.

(** The slices [fetchPaletteChunk] returns are cut back to their payload by
    the slice expressions of [EncodeAll]. *)
Lemma fetchPaletteChunk_wf (stream : list byte) (p t : option (list byte)) :
  fetchPaletteChunk stream = Some (Ok (p, t)) ->
  (forall g, p = Some g -> wfFramed g) /\ (forall g, t = Some g -> wfFramed g).
Proof.
  unfold fetchPaletteChunk.
  destruct (runFetch _ _) as [[c|e]|] eqn:Hrun; simpl; try discriminate.
  intros [= <- <-].
  apply (runFetch_invariant _ parsePNGChunkWithPalette_progress palWf) in Hrun.
  - exact Hrun.
  - intros c0 c1 Hc0 Hs. exact (parsePNGChunkWithPalette_palWf _ _ _ Hc0 Hs).
  - split; discriminate.
Qed.

(** ** Fan-out and fan-in *)

Section FanIn.
Variable pngEncode : image.Image -> string + list byte.

Lemma frameWork_index (i : nat) (img : option image.Image) (fd : frameData) :
  frameWork pngEncode i img = Some (Ok fd) -> fd_index fd = i.
Proof.
  unfold frameWork. destruct img as [img|]; simpl; [|discriminate].
  destruct (if image.isPaletted img then _ else _) as [[p|e]|]; simpl; try discriminate.
  intros [= <-]. reflexivity.
Qed.

(** Entry [i] of the results is the outcome of the goroutine of frame [i]. *)
Lemma results_lookup (a : APNG) (results : list (result frameData)) (i : nat)
    (r : result frameData) :
  mapM (fun '(i, img) => frameWork pngEncode i img) (imap pair (Images a)) = Some results ->
  results !! i = Some r ->
  exists img, Images a !! i = Some img /\ frameWork pngEncode i img = Some r.
Proof.
  intros Hres Hi. apply mapM_Some_1 in Hres.
  destruct (Forall2_lookup_r _ _ _ _ _ Hres Hi) as ([j img] & Hl & Hw).
  rewrite list_lookup_imap in Hl.
  destruct (Images a !! i) as [img'|]; simpl in Hl; [|discriminate].
  injection Hl as <- <-. exists img'. split; [reflexivity | exact Hw].
Qed.

(** A stored error is never replaced, whatever finishes next. *)
Lemma complete_sticky (results : list (result frameData)) (st : fanIn) (i : nat) (x : error) :
  st.2 = Some x -> (complete results st i).2 = Some x.
Proof.
  intros Hst. unfold complete.
  destruct (results !! i) as [[fd|y]|]; simpl; try exact Hst.
  rewrite Hst. reflexivity.
Qed.

Lemma foldl_complete_sticky (results : list (result frameData)) (sched : list nat) :
  forall (st : fanIn) (x : error),
    st.2 = Some x -> (foldl (complete results) st sched).2 = Some x.
Proof.
  induction sched as [|i sched IH]; intros st x Hst; simpl; [exact Hst|].
  apply IH, complete_sticky, Hst.
Qed.

(** First error wins: an error stored before the goroutines start is the
    one found after the fan-in, in every order of completion. *)
Lemma gather_sticky (results : list (result frameData)) (sched : list nat) (x : error) :
  (gather results sched (Some x)).2 = Some x.
Proof. apply foldl_complete_sticky. reflexivity. Qed.

Lemma foldl_complete_lookup (results : list (result frameData)) (sched : list nat) :
  forall (st : fanIn),
    (forall j fd, st.1 !! j = Some fd ->
       exists i, results !! i = Some (Ok fd) /\ fd_index fd = j) ->
    forall j fd, (foldl (complete results) st sched).1 !! j = Some fd ->
      exists i, results !! i = Some (Ok fd) /\ fd_index fd = j.
Proof.
  induction sched as [|i sched IH]; intros st Hst; simpl; [exact Hst|].
  apply IH. intros j fd. unfold complete.
  destruct (results !! i) as [[fd'|y]|] eqn:Hi; simpl; try apply Hst.
  destruct (decide (fd_index fd' = j)) as [<-|Hne].
  - rewrite lookup_insert_eq. intros [= <-]. exists i. split; [exact Hi | reflexivity].
  - rewrite lookup_insert_ne by exact Hne. apply Hst.
Qed.

(** What is filed under [j] is what the goroutine of frame [j] has sent. *)
Lemma gather_lookup (a : APNG) (results : list (result frameData)) (sched : list nat)
    (err0 : option error) (j : nat) (fd : frameData) :
  mapM (fun '(i, img) => frameWork pngEncode i img) (imap pair (Images a)) = Some results ->
  (gather results sched err0).1 !! j = Some fd ->
  exists img, Images a !! j = Some img /\ frameWork pngEncode j img = Some (Ok fd).
Proof.
  intros Hres Hj.
  apply foldl_complete_lookup in Hj as (i & Hi & Hidx).
  - destruct (results_lookup _ _ _ _ Hres Hi) as (img & Himg & Hw).
    pose proof (frameWork_index _ _ _ Hw) as Hidx'.
    assert (i = j) as -> by congruence.
    exists img. split; assumption.
  - intros j' fd'. simpl. rewrite lookup_empty. discriminate.
Qed.

Lemma frameFrom_frameOf (a : APNG) (results : list (result frameData)) (sched : list nat)
    (err0 : option error) (j : nat) (f : frame) :
  mapM (fun '(i, img) => frameWork pngEncode i img) (imap pair (Images a)) = Some results ->
  frameFrom a (gather results sched err0).1 j = Some f ->
  frameOf pngEncode a j = Some f.
Proof.
  intros Hres. unfold frameFrom, frameOf.
  destruct (Images a !! j) as [[img|]|] eqn:Himg; cbn -[frameWork]; try discriminate.
  destruct (Delays a !! j) as [delay|]; cbn -[frameWork]; [|discriminate].
  destruct (disposeOp a j) as [dispose|]; cbn -[frameWork]; [|discriminate].
  destruct ((gather results sched err0).1 !! j) as [fd|] eqn:Hfd;
    cbn -[frameWork]; [|discriminate].
  destruct (gather_lookup _ _ _ _ _ _ Hres Hfd) as (img' & Himg' & Hw).
  assert (img' = Some img) as -> by congruence.
  rewrite Hw. simpl. trivial.
Qed.

End FanIn.

(** ** The container that a successful call has written *)

Section EncodeAllFacts.
Context {W : Type} `{Writer W}.
Variable pngEncode : image.Image -> string + list byte.

Lemma firstPalette_wf (a : APNG) (has : bool) (gp gt : option (list byte)) :
  firstPalette pngEncode a = Some (Ok (has, gp, gt)) ->
  (forall g, gp = Some g -> wfFramed g) /\ (forall g, gt = Some g -> wfFramed g).
Proof.
  unfold firstPalette.
  destruct (Images a !! 0%nat) as [[img|]|]; simpl; try discriminate.
  2: { intros [= <- <- <-]. split; discriminate. }
  destruct (image.isPaletted img).
  2: { intros [= <- <- <-]. split; discriminate. }
  destruct (pngEncode img) as [msg|stream]; [discriminate|].
  destruct (fetchPaletteChunk stream) as [[[p t]|e]|] eqn:Hf; simpl; try discriminate.
  intros [= <- <- <-]. exact (fetchPaletteChunk_wf _ _ _ Hf).
Qed.

(** Refinement: a call that returns nil has appended to the destination the
    signature and then, chunk by chunk, the container of the frames of [a]
    in the order of their indices, whatever the order in which the
    goroutines finished. *)
Theorem EncodeAll_container (sched : list nat) (w : W) (a : APNG) (w' : W) :
  EncodeAll pngEncode sched w a = Some (w', None) ->
  exists has gp gt fs,
    validate a = None
    /\ firstPalette pngEncode a = Some (Ok (has, gp, gt))
    /\ framesOf pngEncode a = Some fs
    /\ written w' = written w ++ pngHeader
                    ++ Container.serialize (container a (paletteChunks has gp gt) fs)
    /\ Forall (fun c => Z.of_nat (length (Container.c_data c)) < 2 ^ 32)
         (container a (paletteChunks has gp gt) fs).
Proof.
  unfold EncodeAll.
  destruct (validate a) as [e|] eqn:Hval; [discriminate|].
  destruct (Write w pngHeader) as [w1 err0] eqn:Hsig.
  destruct (firstPalette pngEncode a) as [[[[has gp] gt]|e]|] eqn:Hpal; simpl; try discriminate.
  destruct (mapM _ _) as [results|] eqn:Hres; simpl; [|discriminate].
  destruct (gather results sched err0) as [m err1] eqn:Hg.
  destruct err1 as [x|]; [discriminate|].
  intros Hasm.
  assert (err0 = None) as ->.
  { destruct err0 as [x|]; [|reflexivity].
    pose proof (gather_sticky results sched x) as Hs. rewrite Hg in Hs. discriminate Hs. }
  apply Write_nil in Hsig.
  destruct (firstPalette_wf _ _ _ _ Hpal) as [Hgp Hgt].
  apply assemble_emits in Hasm as (fs & Hfs & Hw & Hsmall); [|assumption..].
  exists has, gp, gt, fs. do 2 (split; [reflexivity|]).
  split.
  { unfold framesOf. apply mapM_Some. apply mapM_Some_1 in Hfs.
    eapply Forall2_impl; [exact Hfs|]. intros j f Hj. cbv beta in Hj.
    replace m with (gather results sched None).1 in Hj by (rewrite Hg; reflexivity).
    exact (frameFrom_frameOf _ _ _ _ _ _ _ Hres Hj). }
  split; [|exact Hsmall].
  rewrite Hw, Hsig, <- app_assoc. reflexivity.
Qed.

End EncodeAllFacts.

(** ** Re-parsing a container *)

Lemma readChunks_unfold (fuel : nat) (s : list byte) :
  s <> [] ->
  Container.readChunks (S fuel) s
  = let n := Z.to_nat (BigEndian_Uint32 (take 4 s)) in
    let body := drop 8 s in
    if decide (length s < 8 \/ length body < n + 4)%nat then None
    else
      cs ← Container.readChunks fuel (drop (n + 4) body);
      Some (Container.mkChunk (take 4 (drop 4 s)) (take n body) (take 4 (drop n body)) :: cs).
Proof. destruct s; [congruence | reflexivity]. Qed.

Lemma length_chunkBytes (c : Container.chunk) :
  wfChunk c -> length (Container.chunkBytes c) = (12 + length (Container.c_data c))%nat.
Proof.
  intros (Ht & Hc & _). unfold Container.chunkBytes.
  rewrite !length_app, length_writeUint32, Ht, Hc. lia.
Qed.

Lemma readChunks_chunkBytes (fuel : nat) (c : Container.chunk) (rest : list byte) :
  wfChunk c ->
  Container.readChunks (S fuel) (Container.chunkBytes c ++ rest)
  = cs ← Container.readChunks fuel rest; Some (c :: cs).
Proof.
  intros Hwf. pose proof (length_chunkBytes c Hwf) as Hlen.
  destruct Hwf as (Ht & Hc & Hd). destruct c as [type data crc].
  cbn [Container.c_type Container.c_data Container.c_crc] in Ht, Hc, Hd, Hlen.
  rewrite readChunks_unfold.
  2: { intros Hnil. apply (f_equal length) in Hnil. rewrite length_app, Hlen in Hnil.
       simpl in Hnil. lia. }
  unfold Container.chunkBytes in *.
  cbn [Container.c_type Container.c_data Container.c_crc] in *.
  set (n := Z.of_nat (length data)) in *.
  rewrite <- !app_assoc.
  rewrite BigEndian_Uint32_app, (uint32_small n) by (unfold n; lia).
  assert (Hbody : drop 8 (writeUint32 n ++ type ++ data ++ crc ++ rest) = data ++ crc ++ rest).
  { rewrite (app_assoc (writeUint32 n)). apply drop_app_length'.
    rewrite length_app, length_writeUint32, Ht. reflexivity. }
  assert (Htype : take 4 (drop 4 (writeUint32 n ++ type ++ data ++ crc ++ rest)) = type).
  { rewrite drop_app_length' by reflexivity.
    apply take_app_length'. symmetry. exact Ht. }
  cbv zeta. rewrite Hbody, Htype. unfold n. rewrite Nat2Z.id.
  rewrite decide_False.
  2: { rewrite !length_app, length_writeUint32, Ht, Hc. lia. }
  rewrite take_app_length.
  replace (drop (length data + 4) (data ++ crc ++ rest)) with rest.
  2: { rewrite (app_assoc data). symmetry. apply drop_app_length'.
       rewrite length_app, Hc. reflexivity. }
  rewrite drop_app_length, take_app_length' by (symmetry; exact Hc). reflexivity.
Qed.

Lemma readChunks_serialize (cs : list Container.chunk) : forall fuel,
  (length cs <= fuel)%nat -> Forall wfChunk cs ->
  Container.readChunks fuel (Container.serialize cs) = Some cs.
Proof.
  induction cs as [|c cs IH]; intros fuel Hfuel Hwf.
  - destruct fuel; reflexivity.
  - destruct fuel as [|fuel]; [simpl in Hfuel; lia|].
    apply Forall_cons in Hwf as [Hc Hcs].
    change (Container.serialize (c :: cs))
      with (Container.chunkBytes c ++ Container.serialize cs).
    rewrite readChunks_chunkBytes by exact Hc.
    rewrite IH; [reflexivity | simpl in Hfuel; lia | exact Hcs].
Qed.

Lemma length_serialize (cs : list Container.chunk) :
  Forall wfChunk cs -> (length cs <= length (Container.serialize cs))%nat.
Proof.
  induction 1 as [|c cs Hc Hcs IH]; [reflexivity|].
  change (Container.serialize (c :: cs))
    with (Container.chunkBytes c ++ Container.serialize cs).
  rewrite length_app, length_chunkBytes by exact Hc. simpl. lia.
Qed.

(** Round trip: a serialized list of chunks is read back as it was. *)
Lemma parse_serialize (cs : list Container.chunk) :
  Forall wfChunk cs -> Container.parse (Container.serialize cs) = Some cs.
Proof.
  intros Hwf. unfold Container.parse.
  apply readChunks_serialize; [apply length_serialize|]; exact Hwf.
Qed.

Lemma sealed_wf (name : string) (data : list byte) :
  (4 <= String.length name)%nat -> Z.of_nat (length data) < 2 ^ 32 ->
  wfChunk (Container.sealed name data).
Proof.
  intros Hname Hdata. unfold wfChunk, Container.sealed. simpl.
  rewrite length_take, length_bytesOf. split; [lia|]. split; [reflexivity | exact Hdata].
Qed.

(** ** Sequence numbers *)

Lemma advance_uint32 (n : nat) : forall s,
  0 <= s < 2 ^ 32 -> advance s n = uint32 (s + Z.of_nat n).
Proof.
  induction n as [|n IH]; intros s Hs.
  - simpl. rewrite Z.add_0_r, uint32_small; [reflexivity | exact Hs].
  - cbn [advance]. rewrite IH by apply uint32_range.
    unfold uint32. rewrite Zplus_mod_idemp_l. f_equal. lia.
Qed.

Lemma advance_range (n : nat) (s : Z) : 0 <= s < 2 ^ 32 -> 0 <= advance s n < 2 ^ 32.
Proof. intros Hs. rewrite advance_uint32 by exact Hs. apply uint32_range. Qed.

Lemma sequenceNumber_sealed (name : string) (s : Z) (rest : list byte) :
  Container.sequenceNumber (Container.sealed name (writeUint32 s ++ rest)) = uint32 s.
Proof. apply BigEndian_Uint32_app. Qed.

Lemma sequenceNumber_fcTL (name : string) (s : Z) (b : image.Rectangle) (d p : Z) :
  Container.sequenceNumber (Container.sealed name (fcTLData s b d p)) = uint32 s.
Proof. unfold fcTLData. apply sequenceNumber_sealed. Qed.

Lemma length_fdATChunks (ids : list (list byte)) : forall s,
  length (fdATChunks s ids) = length ids.
Proof. induction ids as [|id ids IH]; intros s; simpl; [reflexivity | rewrite IH; reflexivity]. Qed.

Lemma countFrom_S (s : Z) (n : nat) :
  countFrom s (S n) = uint32 s :: countFrom (uint32 (s + 1)) n.
Proof.
  unfold countFrom. simpl. rewrite Z.add_0_r. f_equal.
  rewrite <- seq_shift, map_map. apply map_ext. intros k.
  unfold uint32. rewrite Zplus_mod_idemp_l. f_equal. lia.
Qed.

Lemma countFrom_app (s : Z) (n m : nat) :
  0 <= s < 2 ^ 32 ->
  countFrom s (n + m) = countFrom s n ++ countFrom (advance s n) m.
Proof.
  revert s. induction n as [|n IH]; intros s Hs.
  - reflexivity.
  - cbn [Nat.add advance]. rewrite !countFrom_S, IH by apply uint32_range. reflexivity.
Qed.

Lemma fdATChunks_sequence (ids : list (list byte)) : forall s,
  map Container.sequenceNumber (fdATChunks s ids) = countFrom s (length ids).
Proof.
  induction ids as [|id ids IH]; intros s; [reflexivity|].
  cbn [fdATChunks map length]. rewrite countFrom_S, sequenceNumber_sealed, IH. reflexivity.
Qed.

Lemma fdATChunks_carry (ids : list (list byte)) : forall s,
  List.filter Container.carriesSequence (fdATChunks s ids) = fdATChunks s ids.
Proof.
  induction ids as [|id ids IH]; intros s; [reflexivity|].
  cbn [fdATChunks]. change (List.filter ?f (?c :: ?l)) with (c :: List.filter f l).
  rewrite IH. reflexivity.
Qed.

Lemma fdATChunks_types (ids : list (list byte)) : forall s,
  map Container.c_type (fdATChunks s ids) = replicate (length ids) (bytesOf "fdAT").
Proof.
  induction ids as [|id ids IH]; intros s; [reflexivity|].
  cbn [fdATChunks map length replicate]. rewrite IH. reflexivity.
Qed.

Lemma laterFrames_carry (fs : list frame) : forall s,
  List.filter Container.carriesSequence (laterFrames s fs) = laterFrames s fs.
Proof.
  induction fs as [|f fs IH]; intros s; [reflexivity|].
  cbn [laterFrames]. change (List.filter ?f (?c :: ?l)) with (c :: List.filter f l).
  rewrite List.filter_app, fdATChunks_carry, IH. reflexivity.
Qed.

Lemma laterFrames_types (fs : list frame) : forall s,
  map Container.c_type (laterFrames s fs) = sequenceTags fs.
Proof.
  induction fs as [|f fs IH]; intros s; [reflexivity|].
  cbn [laterFrames sequenceTags flat_map map].
  rewrite map_app, fdATChunks_types, IH. reflexivity.
Qed.

(** A run of later frames that starts with the counter at [s] numbers its
    chunks [s], [s+1], ... in the order in which they are written. *)
Lemma laterFrames_sequence (fs : list frame) : forall s,
  0 <= s < 2 ^ 32 ->
  map Container.sequenceNumber (laterFrames s fs) = countFrom s (length (laterFrames s fs)).
Proof.
  induction fs as [|f fs IH]; intros s Hs; [reflexivity|].
  cbn [laterFrames map length].
  rewrite countFrom_S, sequenceNumber_fcTL. f_equal.
  rewrite map_app, length_app, fdATChunks_sequence, IH by (apply advance_range; exact Hs).
  rewrite length_fdATChunks.
  rewrite countFrom_app by apply uint32_range. reflexivity.
Qed.

Lemma countFrom_small (n : nat) :
  Z.of_nat n <= 2 ^ 32 -> countFrom 0 n = map Z.of_nat (seq 0 n).
Proof.
  intros Hn. unfold countFrom. apply map_ext_in. intros k Hk.
  apply in_seq in Hk. apply uint32_small. lia.
Qed.

(** ** The chunks of the container are well formed *)

Lemma paletteChunks_wf (has : bool) (gp gt : option (list byte)) :
  Forall (fun c => Z.of_nat (length (Container.c_data c)) < 2 ^ 32) (paletteChunks has gp gt) ->
  Forall wfChunk (paletteChunks has gp gt).
Proof.
  unfold paletteChunks. destruct has, gp as [g|], gt as [t|]; intros Hs;
    repeat (apply Forall_cons in Hs as [? Hs]);
    repeat (constructor; [apply sealed_wf; [simpl; lia | assumption]|]); constructor.
Qed.

Lemma fdATChunks_wf (ids : list (list byte)) : forall s,
  Forall (fun c => Z.of_nat (length (Container.c_data c)) < 2 ^ 32) (fdATChunks s ids) ->
  Forall wfChunk (fdATChunks s ids).
Proof.
  induction ids as [|id ids IH]; intros s Hs; [constructor|].
  cbn [fdATChunks] in *. apply Forall_cons in Hs as [Hc Hs].
  constructor; [apply sealed_wf; [simpl; lia | exact Hc] | apply IH, Hs].
Qed.

Lemma laterFrames_wf (fs : list frame) : forall s,
  Forall (fun c => Z.of_nat (length (Container.c_data c)) < 2 ^ 32) (laterFrames s fs) ->
  Forall wfChunk (laterFrames s fs).
Proof.
  induction fs as [|f fs IH]; intros s Hs; [constructor|].
  cbn [laterFrames] in *. apply Forall_cons in Hs as [Hc Hs].
  apply Forall_app in Hs as [Hd Hl].
  constructor; [apply sealed_wf; [simpl; lia | exact Hc]|].
  apply Forall_app. split; [apply fdATChunks_wf, Hd | apply IH, Hl].
Qed.

Lemma IDATs_wf (ids : list (list byte)) :
  Forall (fun c => Z.of_nat (length (Container.c_data c)) < 2 ^ 32)
    (map (Container.sealed "IDAT") ids) ->
  Forall wfChunk (map (Container.sealed "IDAT") ids).
Proof.
  induction ids as [|id ids IH]; intros Hs; [constructor|].
  cbn [map] in *. apply Forall_cons in Hs as [Hc Hs].
  constructor; [apply sealed_wf; [simpl; lia | exact Hc] | apply IH, Hs].
Qed.

Lemma container_wf (a : APNG) (has : bool) (gp gt : option (list byte)) (fs : list frame) :
  Forall (fun c => Z.of_nat (length (Container.c_data c)) < 2 ^ 32)
    (container a (paletteChunks has gp gt) fs) ->
  Forall wfChunk (container a (paletteChunks has gp gt) fs).
Proof.
  destruct fs as [|f0 fs]; [constructor|]. cbn [container]. intros Hs.
  apply Forall_cons in Hs as [H1 Hs]. apply Forall_app in Hs as [Hp Hs].
  apply Forall_cons in Hs as [H2 Hs]. apply Forall_cons in Hs as [H3 Hs].
  apply Forall_app in Hs as [Hi Hs]. apply Forall_app in Hs as [Hl He].
  apply Forall_cons in He as [H4 _].
  constructor; [apply sealed_wf; [simpl; lia | exact H1]|].
  apply Forall_app. split; [apply paletteChunks_wf, Hp|].
  constructor; [apply sealed_wf; [simpl; lia | exact H2]|].
  constructor; [apply sealed_wf; [simpl; lia | exact H3]|].
  apply Forall_app. split; [apply IDATs_wf, Hi|].
  apply Forall_app. split; [apply laterFrames_wf, Hl|].
  constructor; [apply sealed_wf; [simpl; lia | exact H4] | constructor].
Qed.

Lemma framesOf_length (pngEncode : image.Image -> string + list byte) (a : APNG)
    (fs : list frame) :
  framesOf pngEncode a = Some fs -> length fs = length (Images a).
Proof.
  unfold framesOf. intros Hfs. apply length_mapM in Hfs. rewrite length_seq in Hfs. lia.
Qed.

Lemma validate_nonempty (a : APNG) : validate a = None -> Images a <> [].
Proof.
  unfold validate. case_decide as Hn; [discriminate|].
  intros _ Hnil. rewrite Hnil in Hn. apply Hn. reflexivity.
Qed.

Section Reparse.
Context {W : Type} `{Writer W}.
Variable pngEncode : image.Image -> string + list byte.

(** What a successful call has written after the signature reads back as
    the chunks of the container, one by one. *)
Theorem EncodeAll_parse (sched : list nat) (w : W) (a : APNG) (w' : W) :
  EncodeAll pngEncode sched w a = Some (w', None) ->
  exists has gp gt f0 fs out,
    firstPalette pngEncode a = Some (Ok (has, gp, gt))
    /\ framesOf pngEncode a = Some (f0 :: fs)
    /\ written w' = written w ++ pngHeader ++ out
    /\ Container.parse out = Some (container a (paletteChunks has gp gt) (f0 :: fs)).
Proof.
  intros Hrun.
  destruct (EncodeAll_container _ _ _ _ _ Hrun)
    as (has & gp & gt & fs & Hval & Hpal & Hfs & Hw & Hsmall).
  destruct fs as [|f0 fs].
  { apply framesOf_length in Hfs. apply validate_nonempty in Hval.
    destruct (Images a); [congruence | discriminate Hfs]. }
  exists has, gp, gt, f0, fs, (Container.serialize (container a (paletteChunks has gp gt) (f0 :: fs))).
  do 3 (split; [assumption|]).
  apply parse_serialize, container_wf, Hsmall.
Qed.

End Reparse.

(** ** Sequence numbers of the container *)

Lemma paletteChunks_carry (has : bool) (gp gt : option (list byte)) :
  List.filter Container.carriesSequence (paletteChunks has gp gt) = [].
Proof. unfold paletteChunks. destruct has, gp, gt; reflexivity. Qed.

Lemma IDATs_carry (ids : list (list byte)) :
  List.filter Container.carriesSequence (map (Container.sealed "IDAT") ids) = [].
Proof. induction ids as [|id ids IH]; [reflexivity | exact IH]. Qed.

Lemma container_carry (a : APNG) (has : bool) (gp gt : option (list byte))
    (f0 : frame) (fs : list frame) :
  List.filter Container.carriesSequence (container a (paletteChunks has gp gt) (f0 :: fs))
  = Container.sealed "fcTL" (fcTLData 0 (f_bounds f0) (f_delay f0) (f_dispose f0))
    :: laterFrames 1 fs.
Proof.
  cbn [container].
  change (List.filter ?f (?c :: ?l)) with (List.filter f l).
  rewrite List.filter_app, paletteChunks_carry. cbn [app].
  change (List.filter ?f (?c :: ?d :: ?l)) with (d :: List.filter f l).
  rewrite !List.filter_app, IDATs_carry, laterFrames_carry. cbn [app].
  rewrite app_nil_r. reflexivity.
Qed.

(** C1.  In the container a successful call has written, the chunks that
    carry a sequence number are, in order, the frame-control chunk of frame
    0 and then, for each later frame, its frame-control chunk followed by
    its frame-data chunks; read in that order their sequence numbers are 0,
    1, 2, ... (in the 32 bits of the field), whatever the number of data
    chunks per frame. *)
Theorem sequence_numbers_in_emission_order {W : Type} `{Writer W}
    (pngEncode : image.Image -> string + list byte)
    (sched : list nat) (w : W) (a : APNG) (w' : W) :
  EncodeAll pngEncode sched w a = Some (w', None) ->
  exists out cs fs,
    written w' = written w ++ pngHeader ++ out
    /\ Container.parse out = Some cs
    /\ framesOf pngEncode a = Some fs
    /\ map Container.c_type (List.filter Container.carriesSequence cs)
       = bytesOf "fcTL" :: sequenceTags (tail fs)
    /\ map Container.sequenceNumber (List.filter Container.carriesSequence cs)
       = countFrom 0 (length (List.filter Container.carriesSequence cs))
    /\ (Z.of_nat (length (List.filter Container.carriesSequence cs)) <= 2 ^ 32 ->
        map Container.sequenceNumber (List.filter Container.carriesSequence cs)
        = map Z.of_nat (seq 0 (length (List.filter Container.carriesSequence cs)))).
Proof.
  intros Hrun.
  destruct (EncodeAll_parse _ _ _ _ _ Hrun)
    as (has & gp & gt & f0 & fs & out & Hpal & Hfs & Hw & Hparse).
  exists out, (container a (paletteChunks has gp gt) (f0 :: fs)), (f0 :: fs).
  do 3 (split; [assumption|]).
  rewrite container_carry.
  assert (Hseq : map Container.sequenceNumber
                   (Container.sealed "fcTL" (fcTLData 0 (f_bounds f0) (f_delay f0) (f_dispose f0))
                    :: laterFrames 1 fs)
                 = countFrom 0 (length (Container.sealed "fcTL"
                      (fcTLData 0 (f_bounds f0) (f_delay f0) (f_dispose f0))
                    :: laterFrames 1 fs))).
  { cbn [map length]. rewrite countFrom_S, sequenceNumber_fcTL.
    rewrite laterFrames_sequence by lia. reflexivity. }
  split; [|split].
  - cbn [map tail]. rewrite laterFrames_types. reflexivity.
  - exact Hseq.
  - intros Hn. rewrite Hseq. apply countFrom_small, Hn.
Qed.

Lemma sequence_numbers_witness :
  exists w',
    EncodeAll Demo.encode [2; 0; 1]%nat (mkBuffer []) Inputs.three = Some (w', None)
    /\ exists out cs fs,
         written w' = written (mkBuffer []) ++ pngHeader ++ out
         /\ Container.parse out = Some cs
         /\ framesOf Demo.encode Inputs.three = Some fs
         /\ map Container.c_type (List.filter Container.carriesSequence cs)
            = bytesOf "fcTL" :: sequenceTags (tail fs)
         /\ map Container.sequenceNumber (List.filter Container.carriesSequence cs)
            = countFrom 0 (length (List.filter Container.carriesSequence cs))
         /\ (Z.of_nat (length (List.filter Container.carriesSequence cs)) <= 2 ^ 32 ->
             map Container.sequenceNumber (List.filter Container.carriesSequence cs)
             = map Z.of_nat (seq 0 (length (List.filter Container.carriesSequence cs)))).
Proof.
  eexists. split; [vm_compute; reflexivity|].
  apply (sequence_numbers_in_emission_order Demo.encode [2; 0; 1]%nat (mkBuffer [])
           Inputs.three).
  vm_compute. reflexivity.
Defined.

(** ** Where the global palette comes from *)

(** One chunk read by [parsePNGChunkWithPalette] without an error: the
    header it has read, and what it has done to the buffer, the stage and
    the two slots. *)
Lemma palette_step (c c1 : chunkFetcher) :
  stage c <> dsSeenIEND ->
  parsePNGChunkWithPalette c = Some (c1, None) ->
  exists lenb tag s',
    bb c = lenb ++ tag ++ s' /\ length lenb = 4%nat /\ length tag = 4%nat
    /\ ((tag = bytesOf "IEND" /\ stage c1 = dsSeenIEND
         /\ forall k, slotOf k c1 = slotOf k c)
        \/ (tag <> bytesOf "IEND" /\ stage c1 <> dsSeenIEND
            /\ bb c1 = drop 4 (drop (Z.to_nat (BigEndian_Uint32 lenb)) s')
            /\ forall k,
                 if decide (tag = bytesOf (slotName k))
                 then (Z.to_nat (BigEndian_Uint32 lenb) <= length s')%nat
                      /\ exists g, slotOf k c1 = Some g
                           /\ drop 8 g = take (Z.to_nat (BigEndian_Uint32 lenb)) s'
                 else slotOf k c1 = slotOf k c)).
Proof.
  intros Hstage Hstep. unfold parsePNGChunkWithPalette in Hstep.
  destruct (ReadFull (bb c) 8) as [[tmp r] s'] eqn:Hr.
  destruct r; [discriminate|]. apply ReadFull_nil in Hr as [Hbb Htmp].
  exists (take 4 tmp), (drop 4 tmp), s'.
  split; [rewrite app_assoc, take_drop; exact Hbb|].
  split; [rewrite length_take; lia|]. split; [rewrite length_drop; lia|].
  pose proof (BigEndian_Uint32_range (take 4 tmp)) as Hlen.
  set (len := BigEndian_Uint32 (take 4 tmp)) in *.
  set (tag := drop 4 tmp) in *.
  unfold skipCRC in Hstep.
  destruct (decide (tag = bytesOf "IHDR")) as [Ht|_].
  { destruct (decide (tmpSize < len)); [discriminate|].
    destruct (ReadFull _ _) as [[data r] s''] eqn:Hr. simpl in Hr.
    destruct r; simpl in Hstep; [discriminate|]. injection Hstep as <-.
    apply ReadFull_nil in Hr as [Hs' Hdata].
    right. split; [rewrite Ht; discriminate|]. split; [discriminate|].
    split; [simpl; rewrite Hs', <- Hdata, drop_app_length; reflexivity|].
    intros k. rewrite decide_False by (rewrite Ht; destruct k; discriminate).
    destruct k; reflexivity. }
  destruct (decide (tag = bytesOf "PLTE")) as [Ht|Hn1].
  { unfold parsePLTE in Hstep. simpl in Hstep.
    destruct (ReadFull _ _) as [[data r] s''] eqn:Hr.
    destruct r; simpl in Hstep; [discriminate|].
    apply ReadFull_nil in Hr as [Hs' Hdata].
    destruct (framed "PLTE" len data) as [g|] eqn:Hg; simpl in Hstep; [|discriminate].
    injection Hstep as <-.
    apply framed_wf in Hg as [_ Hg]; [|reflexivity | exact Hlen | exact Hdata].
    right. split; [rewrite Ht; discriminate|]. split; [discriminate|].
    split; [simpl; rewrite Hs', <- Hdata, drop_app_length; reflexivity|].
    intros [|].
    - rewrite decide_True by exact Ht.
      split; [rewrite Hs', length_app; lia|].
      exists g. split; [reflexivity|]. rewrite Hg, Hs', <- Hdata, take_app_length. reflexivity.
    - rewrite decide_False by (rewrite Ht; discriminate). reflexivity. }
  destruct (decide (tag = bytesOf "tRNS")) as [Ht|Hn2].
  { unfold parsetRNS in Hstep. simpl in Hstep.
    destruct (ReadFull _ _) as [[data r] s''] eqn:Hr.
    destruct r; simpl in Hstep; [discriminate|].
    apply ReadFull_nil in Hr as [Hs' Hdata].
    destruct (framed "tRNS" len data) as [g|] eqn:Hg; simpl in Hstep; [|discriminate].
    injection Hstep as <-.
    apply framed_wf in Hg as [_ Hg]; [|reflexivity | exact Hlen | exact Hdata].
    right. split; [rewrite Ht; discriminate|]. split; [discriminate|].
    split; [simpl; rewrite Hs', <- Hdata, drop_app_length; reflexivity|].
    intros [|].
    - rewrite decide_False by (rewrite Ht; discriminate). reflexivity.
    - rewrite decide_True by exact Ht.
      split; [rewrite Hs', length_app; lia|].
      exists g. split; [reflexivity|]. rewrite Hg, Hs', <- Hdata, take_app_length. reflexivity. }
  assert (Hslots : forall k c', slotOf k c' = slotOf k c ->
            if decide (tag = bytesOf (slotName k))
            then (Z.to_nat len <= length s')%nat
                 /\ exists g, slotOf k c' = Some g /\ drop 8 g = take (Z.to_nat len) s'
            else slotOf k c' = slotOf k c).
  { intros k c' Hc'. rewrite decide_False by (destruct k; assumption). exact Hc'. }
  destruct (decide (tag = bytesOf "IDAT")) as [Ht|_].
  { simpl in Hstep. injection Hstep as <-.
    right. split; [rewrite Ht; discriminate|]. split; [discriminate|].
    split; [reflexivity|]. intros k. apply Hslots. destruct k; reflexivity. }
  destruct (decide (tag = bytesOf "IEND")) as [Ht|Hn3].
  { simpl in Hstep. injection Hstep as <-.
    left. split; [exact Ht|]. split; [reflexivity|]. intros [|]; reflexivity. }
  simpl in Hstep. injection Hstep as <-.
  right. split; [exact Hn3|]. split; [exact Hstage|].
  split; [reflexivity|]. intros k. apply Hslots. destruct k; reflexivity.
Qed.

Lemma chunkAt_length (name : string) (data s : list byte) :
  chunkAt name data s -> (4 <= length s)%nat.
Proof.
  intros [lenb rest Hl _ | lenb tag body crc rest Hl _ _ _ _ _];
    rewrite length_app, Hl; lia.
Qed.

(** A slot that is filled at the end of the scan was filled at its start or
    holds the payload of a chunk of the stream. *)
Lemma fetchLoop_slot (k : slot) (fuel : nat) : forall c c',
  fetchLoop parsePNGChunkWithPalette fuel c = Finished (Some (Ok c')) ->
  forall g, slotOf k c' = Some g ->
    slotOf k c = Some g \/ chunkAt (slotName k) (drop 8 g) (bb c).
Proof.
  induction fuel as [|fuel IH]; intros c c' Hloop g Hg; [discriminate|].
  simpl in Hloop. destruct (decide (stage c = dsSeenIEND)) as [|Hstage].
  { injection Hloop as <-. left. exact Hg. }
  destruct (parsePNGChunkWithPalette c) as [[c1 [e|]]|] eqn:Hstep; try discriminate.
  destruct (palette_step _ _ Hstage Hstep)
    as (lenb & tag & s' & Hbb & Hlenb & Htag
        & [(Hend & Hst & Hslots) | (Hnend & Hst & Hbb1 & Hslots)]).
  - destruct fuel as [|fuel]; [discriminate|]. simpl in Hloop.
    rewrite decide_True in Hloop by exact Hst. injection Hloop as <-.
    left. rewrite <- Hslots. exact Hg.
  - pose proof (BigEndian_Uint32_range lenb) as Hlen.
    set (n := Z.to_nat (BigEndian_Uint32 lenb)) in *.
    specialize (Hslots k).
    destruct (IH _ _ Hloop g Hg) as [Hg1 | Hat].
    + destruct (decide (tag = bytesOf (slotName k))) as [Hk|Hk].
      * destruct Hslots as (Hn & g' & Hg' & Hdata).
        assert (g' = g) as -> by congruence.
        assert (Hs : bb c = lenb ++ bytesOf (slotName k) ++ take n s' ++ drop n s')
          by (rewrite Hbb, Hk, take_drop; reflexivity).
        right. rewrite Hs, Hdata.
        apply chunkAt_here; [exact Hlenb|].
        rewrite length_take, Nat.min_l by exact Hn. unfold n. lia.
      * left. rewrite <- Hslots. exact Hg1.
    + right. pose proof (chunkAt_length _ _ _ Hat) as Hrest.
      rewrite Hbb1, !length_drop in Hrest.
      assert (Hs : bb c = lenb ++ tag ++ take n s' ++ take 4 (drop n s') ++ bb c1)
        by (rewrite Hbb, Hbb1, !take_drop; reflexivity).
      rewrite Hs.
      apply chunkAt_later; try assumption.
      * rewrite length_take, Nat.min_l by lia. unfold n. lia.
      * rewrite length_take, length_drop. lia.
Qed.

(** The slices [fetchPaletteChunk] returns hold payloads of PLTE and tRNS
    chunks of the stream it has scanned. *)
Lemma fetchPaletteChunk_origin (stream : list byte) (p t : option (list byte)) :
  fetchPaletteChunk stream = Some (Ok (p, t)) ->
  (forall g, p = Some g -> chunkAt "PLTE" (drop 8 g) (drop 8 stream))
  /\ (forall g, t = Some g -> chunkAt "tRNS" (drop 8 g) (drop 8 stream)).
Proof.
  unfold fetchPaletteChunk.
  destruct (runFetch _ _) as [[c|e]|] eqn:Hrun; simpl; try discriminate.
  intros [= <- <-].
  pose proof (runFetch_Finished _ parsePNGChunkWithPalette_progress
                (mkFetcher (Next stream (length pngHeader)).2 dsStart None None None)) as Hl.
  rewrite Hrun in Hl.
  split; intros g Hg.
  - destruct (fetchLoop_slot slotPLTE _ _ _ Hl g Hg) as [Hnone | Hat];
      [discriminate Hnone | exact Hat].
  - destruct (fetchLoop_slot slotTRNS _ _ _ Hl g Hg) as [Hnone | Hat];
      [discriminate Hnone | exact Hat].
Qed.

(** ** Chunk integrity *)

(** C3.  A chunk that [writeChunk] has emitted opens with the big-endian
    length of its payload and ends with the big-endian CRC-32 (IEEE) of its
    four-byte tag followed by the payload, for any tag and any payload. *)
Theorem chunk_length_and_crc {W : Type} `{Writer W}
    (e : encoder W) (b : list byte) (name : string) (e' : encoder W) :
  writeChunk e b name = Some e' -> err e' = None ->
  exists chunk tag,
    written (writer e') = written (writer e) ++ chunk
    /\ tag = take 4 (bytesOf name) /\ length tag = 4%nat
    /\ chunk = writeUint32 (Z.of_nat (length b)) ++ tag ++ b
               ++ writeUint32 (crc32.ChecksumIEEE (tag ++ b))
    /\ take 4 chunk = writeUint32 (Z.of_nat (length b))
    /\ BigEndian_Uint32 (take 4 chunk) = Z.of_nat (length b)
    /\ drop (length chunk - 4) chunk = writeUint32 (crc32.ChecksumIEEE (tag ++ b)).
Proof.
  intros Hw He'.
  destruct (writeChunk_emits _ _ _ _ Hw He') as (He & Hout & Hsmall).
  apply Forall_cons in Hsmall as [Hsmall _]. simpl in Hsmall.
  assert (Hname : (4 <= String.length name)%nat).
  { unfold writeChunk in Hw. rewrite He in Hw.
    destruct (negb _); [injection Hw as <-; discriminate He'|].
    destruct (nameBytes name) as [tag|] eqn:Htag; [|discriminate Hw].
    apply nameBytes_Some in Htag. apply Htag. }
  exists (Container.chunkBytes (Container.sealed name b)), (take 4 (bytesOf name)).
  split.
  { rewrite Hout. unfold Container.serialize. simpl. rewrite app_nil_r. reflexivity. }
  split; [reflexivity|].
  split; [rewrite length_take, length_bytesOf; lia|].
  split; [reflexivity|].
  unfold Container.chunkBytes, Container.sealed. simpl Container.c_data.
  simpl Container.c_type. simpl Container.c_crc.
  split; [reflexivity|].
  split.
  { rewrite BigEndian_Uint32_app. apply uint32_small. lia. }
  rewrite !app_assoc. rewrite length_app, length_writeUint32.
  replace (_ + 4 - 4)%nat with
    (length ((writeUint32 (Z.of_nat (length b)) ++ take 4 (bytesOf name)) ++ b)) by lia.
  rewrite <- !app_assoc. rewrite !app_assoc. apply drop_app_length.
Qed.

Lemma chunk_length_and_crc_witness :
  exists e',
    writeChunk (mkEncoder Inputs.three (mkBuffer []) 0 [] [] None) [1; 2; 3] "IDAT" = Some e'
    /\ err e' = None
    /\ exists chunk tag,
         written (writer e') = written (mkBuffer []) ++ chunk
         /\ tag = take 4 (bytesOf "IDAT") /\ length tag = 4%nat
         /\ chunk = writeUint32 (Z.of_nat (length [1; 2; 3])) ++ tag ++ [1; 2; 3]
                    ++ writeUint32 (crc32.ChecksumIEEE (tag ++ [1; 2; 3]))
         /\ take 4 chunk = writeUint32 (Z.of_nat (length [1; 2; 3]))
         /\ BigEndian_Uint32 (take 4 chunk) = Z.of_nat (length [1; 2; 3])
         /\ drop (length chunk - 4) chunk = writeUint32 (crc32.ChecksumIEEE (tag ++ [1; 2; 3])).
Proof.
  eexists. split; [vm_compute; reflexivity|]. split; [reflexivity|].
  apply (chunk_length_and_crc (mkEncoder Inputs.three (mkBuffer []) 0 [] [] None)
           [1; 2; 3] "IDAT"); vm_compute; reflexivity.
Defined.

(** ** Validation *)

(** C4.  When a count invariant is violated (no frame, a delay list of
    another length, a disposal list that is given and of another length),
    [EncodeAll] returns a count error and the destination it was given,
    untouched: the result is the same for every encoder and every order of
    completion, none of which is consulted. *)
Theorem count_violations_rejected (a : APNG) :
  (length (Images a) = 0%nat
   \/ length (Delays a) <> length (Images a)
   \/ exists ds, Disposals a = Some ds /\ length ds <> length (Images a)) ->
  exists e,
    validate a = Some e /\ CountError e
    /\ forall (W : Type) (HW : Writer W) (pngEncode : image.Image -> string + list byte)
         (sched : list nat) (w : W),
         EncodeAll pngEncode sched w a = Some (w, Some e).
Proof.
  intros Hviol.
  assert (Hv : exists e, validate a = Some e /\ CountError e).
  { unfold validate, CountError.
    destruct (decide (length (Images a) = 0%nat)); [eauto 6|].
    destruct (decide (length (Images a) <> length (Delays a))); [eauto 6|].
    destruct Hviol as [Hn | [Hd | (ds & Hds & Hlen)]]; [lia | lia |].
    rewrite Hds, bool_decide_true by lia. eauto 6. }
  destruct Hv as (e & Hv & He). exists e. split; [exact Hv|]. split; [exact He|].
  intros W HW pngEncode sched w. unfold EncodeAll. rewrite Hv. reflexivity.
Qed.

Lemma count_violations_witness :
  exists e,
    validate (mkAPNG [Demo.rgba 0 0 1 1 [0]] [10; 10] None 0) = Some e /\ CountError e
    /\ forall (W : Type) (HW : Writer W) (pngEncode : image.Image -> string + list byte)
         (sched : list nat) (w : W),
         EncodeAll pngEncode sched w (mkAPNG [Demo.rgba 0 0 1 1 [0]] [10; 10] None 0)
         = Some (w, Some e).
Proof.
  apply (count_violations_rejected (mkAPNG [Demo.rgba 0 0 1 1 [0]] [10; 10] None 0)).
  right. left. simpl. lia.
Defined.

(** ** The chunk sequence of the container *)

Lemma paletteChunks_types (has : bool) (gp gt : option (list byte)) :
  map Container.c_type (paletteChunks has gp gt) = []
  \/ map Container.c_type (paletteChunks has gp gt) = [bytesOf "PLTE"]
  \/ map Container.c_type (paletteChunks has gp gt) = [bytesOf "PLTE"; bytesOf "tRNS"].
Proof. unfold paletteChunks. destruct has, gp, gt; auto. Qed.

Lemma IDATs_types (ids : list (list byte)) :
  map Container.c_type (map (Container.sealed "IDAT") ids)
  = replicate (length ids) (bytesOf "IDAT").
Proof.
  induction ids as [|id ids IH]; [reflexivity|].
  cbn [map length replicate]. rewrite IH. reflexivity.
Qed.

Lemma container_types (a : APNG) (pal : list Container.chunk) (f0 : frame) (fs : list frame) :
  map Container.c_type (container a pal (f0 :: fs))
  = bytesOf "IHDR" :: map Container.c_type pal
    ++ bytesOf "acTL" :: bytesOf "fcTL"
    :: replicate (length (f_idats f0)) (bytesOf "IDAT")
    ++ sequenceTags fs ++ [bytesOf "IEND"].
Proof.
  cbn [container map]. rewrite map_app. cbn [map].
  rewrite !map_app, IDATs_types, laterFrames_types. reflexivity.
Qed.

Lemma length_frameControls (fs : list frame) : forall s,
  length (frameControls s fs) = length fs.
Proof. induction fs as [|f fs IH]; intros s; simpl; [reflexivity | rewrite IH; reflexivity]. Qed.

Lemma fdATChunks_no_fcTL (ids : list (list byte)) : forall s,
  List.filter (Container.hasType "fcTL") (fdATChunks s ids) = [].
Proof. induction ids as [|id ids IH]; intros s; [reflexivity | apply IH]. Qed.

Lemma laterFrames_fcTL (fs : list frame) : forall s,
  List.filter (Container.hasType "fcTL") (laterFrames s fs) = frameControls s fs.
Proof.
  induction fs as [|f fs IH]; intros s; [reflexivity|].
  cbn [laterFrames frameControls].
  change (List.filter ?f (?c :: ?l)) with (c :: List.filter f l).
  rewrite List.filter_app, fdATChunks_no_fcTL, IH. reflexivity.
Qed.

Lemma paletteChunks_no_fcTL (has : bool) (gp gt : option (list byte)) :
  List.filter (Container.hasType "fcTL") (paletteChunks has gp gt) = [].
Proof. unfold paletteChunks. destruct has, gp, gt; reflexivity. Qed.

Lemma IDATs_no_fcTL (ids : list (list byte)) :
  List.filter (Container.hasType "fcTL") (map (Container.sealed "IDAT") ids) = [].
Proof. induction ids as [|id ids IH]; [reflexivity | exact IH]. Qed.

(** The frame-control chunks of the container, in order. *)
Lemma container_fcTL (a : APNG) (has : bool) (gp gt : option (list byte))
    (f0 : frame) (fs : list frame) :
  List.filter (Container.hasType "fcTL") (container a (paletteChunks has gp gt) (f0 :: fs))
  = Container.sealed "fcTL" (fcTLData 0 (f_bounds f0) (f_delay f0) (f_dispose f0))
    :: frameControls 1 fs.
Proof.
  cbn [container].
  change (List.filter ?f (?c :: ?l)) with (List.filter f l).
  rewrite List.filter_app, paletteChunks_no_fcTL. cbn [app].
  change (List.filter ?f (?c :: ?d :: ?l)) with (d :: List.filter f l).
  rewrite !List.filter_app, IDATs_no_fcTL, laterFrames_fcTL. cbn [app].
  rewrite app_nil_r. reflexivity.
Qed.

(** C2.  The output of a successful call on N frames reads back as: the
    header chunk, no palette chunk or a palette chunk or a palette and a
    transparency chunk, the animation-control chunk with frame count N,
    the frame-control chunk of frame 0 and its IDAT chunks, then for each
    of the frames 1..N-1 its frame-control chunk and its fdAT chunks, and
    the terminator; N frame-control chunks in all. *)
Theorem container_chunk_sequence {W : Type} `{Writer W}
    (pngEncode : image.Image -> string + list byte)
    (sched : list nat) (w : W) (a : APNG) (w' : W) :
  EncodeAll pngEncode sched w a = Some (w', None) ->
  exists out cs pal f0 fs,
    written w' = written w ++ pngHeader ++ out
    /\ Container.parse out = Some cs
    /\ framesOf pngEncode a = Some (f0 :: fs)
    /\ length (f0 :: fs) = length (Images a)
    /\ (pal = [] \/ pal = [bytesOf "PLTE"] \/ pal = [bytesOf "PLTE"; bytesOf "tRNS"])
    /\ map Container.c_type cs
       = bytesOf "IHDR" :: pal
         ++ bytesOf "acTL" :: bytesOf "fcTL"
         :: replicate (length (f_idats f0)) (bytesOf "IDAT")
         ++ sequenceTags fs ++ [bytesOf "IEND"]
    /\ (exists c,
          cs !! S (length pal) = Some c
          /\ Container.c_type c = bytesOf "acTL"
          /\ Container.c_data c
             = writeUint32 (uint32 (Z.of_nat (length (Images a)))) ++ writeUint32 (LoopCount a)
          /\ BigEndian_Uint32 (take 4 (Container.c_data c))
             = uint32 (Z.of_nat (length (Images a))))
    /\ (Z.of_nat (length (Images a)) < 2 ^ 32 ->
        uint32 (Z.of_nat (length (Images a))) = Z.of_nat (length (Images a)))
    /\ length (List.filter (Container.hasType "fcTL") cs) = length (Images a).
Proof.
  intros Hrun.
  destruct (EncodeAll_parse _ _ _ _ _ Hrun)
    as (has & gp & gt & f0 & fs & out & Hpal & Hfs & Hw & Hparse).
  pose proof (framesOf_length _ _ _ Hfs) as Hlen.
  exists out, (container a (paletteChunks has gp gt) (f0 :: fs)),
    (map Container.c_type (paletteChunks has gp gt)), f0, fs.
  do 4 (split; [assumption|]).
  split; [apply paletteChunks_types|].
  split; [apply container_types|].
  split.
  { exists (Container.sealed "acTL" (acTLData a)).
    split.
    - cbn [container]. rewrite lookup_cons, length_map.
      rewrite lookup_app_r by lia. rewrite Nat.sub_diag. reflexivity.
    - split; [reflexivity|]. split; [reflexivity|].
      unfold Container.sealed, acTLData. cbn [Container.c_data].
      rewrite BigEndian_Uint32_app. apply uint32_idemp. }
  split; [intros Hn; apply uint32_small; lia|].
  rewrite container_fcTL. cbn [length]. rewrite length_frameControls. exact Hlen.
Qed.

Lemma container_chunk_sequence_witness :
  exists w',
    EncodeAll Demo.encode [1; 0]%nat (mkBuffer []) Inputs.twoPaletted = Some (w', None)
    /\ exists out cs pal f0 fs,
         written w' = written (mkBuffer []) ++ pngHeader ++ out
         /\ Container.parse out = Some cs
         /\ framesOf Demo.encode Inputs.twoPaletted = Some (f0 :: fs)
         /\ length (f0 :: fs) = length (Images Inputs.twoPaletted)
         /\ (pal = [] \/ pal = [bytesOf "PLTE"] \/ pal = [bytesOf "PLTE"; bytesOf "tRNS"])
         /\ map Container.c_type cs
            = bytesOf "IHDR" :: pal
              ++ bytesOf "acTL" :: bytesOf "fcTL"
              :: replicate (length (f_idats f0)) (bytesOf "IDAT")
              ++ sequenceTags fs ++ [bytesOf "IEND"]
         /\ (exists c,
               cs !! S (length pal) = Some c
               /\ Container.c_type c = bytesOf "acTL"
               /\ Container.c_data c
                  = writeUint32 (uint32 (Z.of_nat (length (Images Inputs.twoPaletted))))
                    ++ writeUint32 (LoopCount Inputs.twoPaletted)
               /\ BigEndian_Uint32 (take 4 (Container.c_data c))
                  = uint32 (Z.of_nat (length (Images Inputs.twoPaletted))))
         /\ (Z.of_nat (length (Images Inputs.twoPaletted)) < 2 ^ 32 ->
             uint32 (Z.of_nat (length (Images Inputs.twoPaletted)))
             = Z.of_nat (length (Images Inputs.twoPaletted)))
         /\ length (List.filter (Container.hasType "fcTL") cs)
            = length (Images Inputs.twoPaletted).
Proof.
  eexists. split; [vm_compute; reflexivity|].
  apply (container_chunk_sequence Demo.encode [1; 0]%nat (mkBuffer []) Inputs.twoPaletted).
  vm_compute. reflexivity.
Defined.

(** ** Frame-control chunks *)

Lemma length_fcTLData (s : Z) (b : image.Rectangle) (d p : Z) :
  length (fcTLData s b d p) = 26%nat.
Proof. reflexivity. Qed.

(** Reading the fields of a frame-control payload back. *)
Lemma decode_fcTLData (s : Z) (b : image.Rectangle) (d p : Z) :
  Container.decodeFrameControl (fcTLData s b d p)
  = Container.mkFrameControl
      (uint32 s)
      (uint32 (image.X (image.Max b) - image.X (image.Min b)))
      (uint32 (image.Y (image.Max b) - image.Y (image.Min b)))
      (uint32 (image.X (image.Min b)))
      (uint32 (image.Y (image.Min b)))
      (uint16 d) 100 p 0.
Proof.
  unfold Container.decodeFrameControl, fcTLData.
  f_equal;
    try (etransitivity; [apply BigEndian_Uint32_writeUint32 | try apply uint32_idemp]);
    try (apply BigEndian_Uint16_writeUint16); reflexivity.
Qed.

Lemma frameControls_lookup (fs : list frame) : forall s i c,
  frameControls s fs !! i = Some c ->
  exists f seq,
    fs !! i = Some f
    /\ c = Container.sealed "fcTL" (fcTLData seq (f_bounds f) (f_delay f) (f_dispose f)).
Proof.
  induction fs as [|f fs IH]; intros s i c; [discriminate|].
  destruct i as [|i]; cbn [frameControls].
  - intros [= <-]. exists f, s. split; reflexivity.
  - rewrite !lookup_cons. apply IH.
Qed.

Section FramesOf.
Variable pngEncode : image.Image -> string + list byte.

Lemma framesOf_lookup (a : APNG) (fs : list frame) (i : nat) (f : frame) :
  framesOf pngEncode a = Some fs -> fs !! i = Some f -> frameOf pngEncode a i = Some f.
Proof.
  unfold framesOf. intros Hfs Hi. apply mapM_Some_1 in Hfs.
  destruct (Forall2_lookup_r _ _ _ _ _ Hfs Hi) as (j & Hj & Hf).
  apply lookup_seq in Hj as [-> _]. exact Hf.
Qed.

(** What a frame takes from the input and from its own stream. *)
Lemma frameOf_Some (a : APNG) (i : nat) (f : frame) :
  frameOf pngEncode a i = Some f ->
  exists img fd,
    Images a !! i = Some (Some img)
    /\ Delays a !! i = Some (f_delay f)
    /\ disposeOp a i = Some (f_dispose f)
    /\ f_bounds f = image.Bounds img
    /\ frameWork pngEncode i (Some img) = Some (Ok fd)
    /\ f_ihdr f = fd_ihdr fd /\ f_idats f = fd_idats fd.
Proof.
  unfold frameOf.
  destruct (Images a !! i) as [[img|]|]; cbn -[frameWork]; try discriminate.
  destruct (Delays a !! i) as [delay|]; cbn -[frameWork]; [|discriminate].
  destruct (disposeOp a i) as [dispose|]; cbn -[frameWork]; [|discriminate].
  destruct (frameWork pngEncode i (Some img)) as [[fd|e]|] eqn:Hw;
    cbn -[frameWork]; try discriminate.
  intros [= <-]. exists img, fd. repeat split. exact Hw.
Qed.

End FramesOf.

(** The frame-control chunks of a successful call, frame by frame: chunk
    [i] is built from the bounds of image [i], its delay and its disposal
    code. *)
Lemma EncodeAll_frame_controls {W : Type} `{Writer W}
    (pngEncode : image.Image -> string + list byte)
    (sched : list nat) (w : W) (a : APNG) (w' : W) :
  EncodeAll pngEncode sched w a = Some (w', None) ->
  exists out cs,
    written w' = written w ++ pngHeader ++ out
    /\ Container.parse out = Some cs
    /\ length (List.filter (Container.hasType "fcTL") cs) = length (Images a)
    /\ forall i, (i < length (Images a))%nat ->
         exists img delay dispose seq,
           Images a !! i = Some (Some img)
           /\ Delays a !! i = Some delay
           /\ disposeOp a i = Some dispose
           /\ List.filter (Container.hasType "fcTL") cs !! i
              = Some (Container.sealed "fcTL" (fcTLData seq (image.Bounds img) delay dispose)).
Proof.
  intros Hrun.
  destruct (EncodeAll_parse _ _ _ _ _ Hrun)
    as (has & gp & gt & f0 & fs & out & Hpal & Hfs & Hw & Hparse).
  pose proof (framesOf_length _ _ _ Hfs) as Hlen.
  exists out, (container a (paletteChunks has gp gt) (f0 :: fs)).
  do 2 (split; [assumption|]).
  rewrite container_fcTL.
  split; [cbn [length]; rewrite length_frameControls; exact Hlen|].
  intros i Hi.
  assert (Hc : exists f seq,
             (Container.sealed "fcTL" (fcTLData 0 (f_bounds f0) (f_delay f0) (f_dispose f0))
              :: frameControls 1 fs) !! i
             = Some (Container.sealed "fcTL"
                       (fcTLData seq (f_bounds f) (f_delay f) (f_dispose f)))
             /\ (f0 :: fs) !! i = Some f).
  { destruct i as [|i].
    - exists f0, 0. split; reflexivity.
    - rewrite <- Hlen in Hi. cbn [length] in Hi.
      destruct (lookup_lt_is_Some_2 (frameControls 1 fs) i) as [c Hc];
        [rewrite length_frameControls; lia|].
      destruct (frameControls_lookup _ _ _ _ Hc) as (f & seq & Hf & ->).
      exists f, seq. rewrite !lookup_cons. split; [exact Hc | exact Hf]. }
  destruct Hc as (f & seq & Hc & Hf).
  apply (framesOf_lookup _ _ _ _ _ Hfs) in Hf.
  apply frameOf_Some in Hf as (img & fd & Himg & Hdelay & Hdisp & Hb & _).
  exists img, (f_delay f), (f_dispose f), seq.
  rewrite <- Hb. do 3 (split; [assumption|]). exact Hc.
Qed.

(** C8.  Frame [i] of a successful call has, as its [i]-th frame-control
    chunk, a payload of 26 bytes: sequence number, width, height, x offset
    and y offset in 32 bits each, the delay [Delays[i]] and the denominator
    100 in 16 bits each, the disposal code ([Disposals[i]] when [Disposals]
    is given, 0 otherwise) and the blend code 0. *)
Theorem frame_control_layout {W : Type} `{Writer W}
    (pngEncode : image.Image -> string + list byte)
    (sched : list nat) (w : W) (a : APNG) (w' : W) :
  EncodeAll pngEncode sched w a = Some (w', None) ->
  exists out cs,
    written w' = written w ++ pngHeader ++ out
    /\ Container.parse out = Some cs
    /\ length (List.filter (Container.hasType "fcTL") cs) = length (Images a)
    /\ forall i, (i < length (Images a))%nat ->
         exists c img delay dispose seq,
           List.filter (Container.hasType "fcTL") cs !! i = Some c
           /\ Images a !! i = Some (Some img)
           /\ Delays a !! i = Some delay
           /\ match Disposals a with
              | None => dispose = 0
              | Some ds => ds !! i = Some dispose
              end
           /\ length (Container.c_data c) = 26%nat
           /\ Container.c_data c
              = writeUint32 seq
                ++ writeUint32 (uint32 (image.X (image.Max (image.Bounds img))
                                        - image.X (image.Min (image.Bounds img))))
                ++ writeUint32 (uint32 (image.Y (image.Max (image.Bounds img))
                                        - image.Y (image.Min (image.Bounds img))))
                ++ writeUint32 (uint32 (image.X (image.Min (image.Bounds img))))
                ++ writeUint32 (uint32 (image.Y (image.Min (image.Bounds img))))
                ++ writeUint16 delay ++ writeUint16 100 ++ [dispose] ++ [0]
           /\ Container.decodeFrameControl (Container.c_data c)
              = Container.mkFrameControl
                  (uint32 seq)
                  (uint32 (image.X (image.Max (image.Bounds img))
                           - image.X (image.Min (image.Bounds img))))
                  (uint32 (image.Y (image.Max (image.Bounds img))
                           - image.Y (image.Min (image.Bounds img))))
                  (uint32 (image.X (image.Min (image.Bounds img))))
                  (uint32 (image.Y (image.Min (image.Bounds img))))
                  (uint16 delay) 100 dispose 0.
Proof.
  intros Hrun.
  destruct (EncodeAll_frame_controls _ _ _ _ _ Hrun) as (out & cs & Hw & Hparse & Hn & Hfc).
  exists out, cs. do 3 (split; [assumption|]).
  intros i Hi.
  destruct (Hfc i Hi) as (img & delay & dispose & seq & Himg & Hdelay & Hdisp & Hc).
  exists (Container.sealed "fcTL" (fcTLData seq (image.Bounds img) delay dispose)),
    img, delay, dispose, seq.
  do 3 (split; [assumption|]).
  split.
  { unfold disposeOp in Hdisp. destruct (Disposals a); [exact Hdisp | congruence]. }
  cbn [Container.sealed Container.c_data].
  split; [apply length_fcTLData|]. split; [reflexivity | apply decode_fcTLData].
Qed.

Lemma frame_control_layout_witness :
  exists w',
    EncodeAll Demo.encode [1; 0]%nat (mkBuffer []) Inputs.twoPaletted = Some (w', None)
    /\ exists out cs,
         written w' = written (mkBuffer []) ++ pngHeader ++ out
         /\ Container.parse out = Some cs
         /\ length (List.filter (Container.hasType "fcTL") cs)
            = length (Images Inputs.twoPaletted)
         /\ forall i, (i < length (Images Inputs.twoPaletted))%nat ->
              exists c img delay dispose seq,
                List.filter (Container.hasType "fcTL") cs !! i = Some c
                /\ Images Inputs.twoPaletted !! i = Some (Some img)
                /\ Delays Inputs.twoPaletted !! i = Some delay
                /\ match Disposals Inputs.twoPaletted with
                   | None => dispose = 0
                   | Some ds => ds !! i = Some dispose
                   end
                /\ length (Container.c_data c) = 26%nat
                /\ Container.c_data c
                   = writeUint32 seq
                     ++ writeUint32 (uint32 (image.X (image.Max (image.Bounds img))
                                             - image.X (image.Min (image.Bounds img))))
                     ++ writeUint32 (uint32 (image.Y (image.Max (image.Bounds img))
                                             - image.Y (image.Min (image.Bounds img))))
                     ++ writeUint32 (uint32 (image.X (image.Min (image.Bounds img))))
                     ++ writeUint32 (uint32 (image.Y (image.Min (image.Bounds img))))
                     ++ writeUint16 delay ++ writeUint16 100 ++ [dispose] ++ [0]
                /\ Container.decodeFrameControl (Container.c_data c)
                   = Container.mkFrameControl
                       (uint32 seq)
                       (uint32 (image.X (image.Max (image.Bounds img))
                                - image.X (image.Min (image.Bounds img))))
                       (uint32 (image.Y (image.Max (image.Bounds img))
                                - image.Y (image.Min (image.Bounds img))))
                       (uint32 (image.X (image.Min (image.Bounds img))))
                       (uint32 (image.Y (image.Min (image.Bounds img))))
                       (uint16 delay) 100 dispose 0.
Proof.
  eexists. split; [vm_compute; reflexivity|].
  apply (frame_control_layout Demo.encode [1; 0]%nat (mkBuffer []) Inputs.twoPaletted).
  vm_compute. reflexivity.
Defined.

(** ** Data chunks *)

Lemma paletteChunks_no_data (name : string) (has : bool) (gp gt : option (list byte)) :
  name = "IDAT" \/ name = "fdAT" ->
  List.filter (Container.hasType name) (paletteChunks has gp gt) = [].
Proof. unfold paletteChunks. intros [-> | ->]; destruct has, gp, gt; reflexivity. Qed.

Lemma IDATs_IDAT (ids : list (list byte)) :
  List.filter (Container.hasType "IDAT") (map (Container.sealed "IDAT") ids)
  = map (Container.sealed "IDAT") ids.
Proof.
  induction ids as [|id ids IH]; [reflexivity|]. cbn [map].
  change (List.filter ?f (?c :: ?l)) with (c :: List.filter f l). rewrite IH. reflexivity.
Qed.

Lemma IDATs_no_fdAT (ids : list (list byte)) :
  List.filter (Container.hasType "fdAT") (map (Container.sealed "IDAT") ids) = [].
Proof. induction ids as [|id ids IH]; [reflexivity | exact IH]. Qed.

Lemma fdATChunks_no_IDAT (ids : list (list byte)) : forall s,
  List.filter (Container.hasType "IDAT") (fdATChunks s ids) = [].
Proof. induction ids as [|id ids IH]; intros s; [reflexivity | apply IH]. Qed.

Lemma laterFrames_no_IDAT (fs : list frame) : forall s,
  List.filter (Container.hasType "IDAT") (laterFrames s fs) = [].
Proof.
  induction fs as [|f fs IH]; intros s; [reflexivity|]. cbn [laterFrames].
  change (List.filter ?f (?c :: ?l)) with (List.filter f l).
  rewrite List.filter_app, fdATChunks_no_IDAT, IH. reflexivity.
Qed.

(** The fdAT chunks of a frame: a sequence number, then the payload as it
    was. *)
Lemma fdATChunks_payloads (ids : list (list byte)) : forall s,
  0 <= s < 2 ^ 32 ->
  Forall2 (fun c id => exists seq, 0 <= seq < 2 ^ 32
                                   /\ Container.c_data c = writeUint32 seq ++ id)
    (List.filter (Container.hasType "fdAT") (fdATChunks s ids)) ids.
Proof.
  induction ids as [|id ids IH]; intros s Hs; [constructor|]. cbn [fdATChunks].
  change (List.filter ?f (?c :: ?l)) with (c :: List.filter f l).
  constructor; [exists s; split; [exact Hs | reflexivity]|].
  apply IH, uint32_range.
Qed.

Lemma laterFrames_payloads (fs : list frame) : forall s,
  0 <= s < 2 ^ 32 ->
  Forall2 (fun c id => exists seq, 0 <= seq < 2 ^ 32
                                   /\ Container.c_data c = writeUint32 seq ++ id)
    (List.filter (Container.hasType "fdAT") (laterFrames s fs)) (flat_map f_idats fs).
Proof.
  induction fs as [|f fs IH]; intros s Hs; [constructor|]. cbn [laterFrames flat_map].
  change (List.filter ?f (?c :: ?l)) with (List.filter f l).
  rewrite List.filter_app. apply Forall2_app.
  - apply fdATChunks_payloads, uint32_range.
  - apply IH, advance_range, Hs.
Qed.

Lemma container_IDAT (a : APNG) (has : bool) (gp gt : option (list byte))
    (f0 : frame) (fs : list frame) :
  List.filter (Container.hasType "IDAT") (container a (paletteChunks has gp gt) (f0 :: fs))
  = map (Container.sealed "IDAT") (f_idats f0).
Proof.
  cbn [container].
  change (List.filter ?f (?c :: ?l)) with (List.filter f l).
  rewrite List.filter_app, paletteChunks_no_data by (left; reflexivity). cbn [app].
  change (List.filter ?f (?c :: ?d :: ?l)) with (List.filter f l).
  rewrite !List.filter_app, IDATs_IDAT, laterFrames_no_IDAT. cbn [app].
  apply app_nil_r.
Qed.

Lemma container_fdAT (a : APNG) (has : bool) (gp gt : option (list byte))
    (f0 : frame) (fs : list frame) :
  List.filter (Container.hasType "fdAT") (container a (paletteChunks has gp gt) (f0 :: fs))
  = List.filter (Container.hasType "fdAT") (laterFrames 1 fs).
Proof.
  cbn [container].
  change (List.filter ?f (?c :: ?l)) with (List.filter f l).
  rewrite List.filter_app, paletteChunks_no_data by (right; reflexivity). cbn [app].
  change (List.filter ?f (?c :: ?d :: ?l)) with (List.filter f l).
  rewrite !List.filter_app, IDATs_no_fdAT. cbn [app].
  apply app_nil_r.
Qed.

(** The data of a frame are the IDAT payloads [fetchPNGChunk] has found in
    the stream of the external encoder for that frame. *)
Lemma frameWork_stream (pngEncode : image.Image -> string + list byte)
    (i : nat) (img : image.Image) (fd : frameData) :
  frameWork pngEncode i (Some img) = Some (Ok fd) ->
  exists stream p,
    pngEncode img = inr stream /\ fetchPNGChunk stream = Some (Ok p)
    /\ fd_ihdr fd = pc_ihdr p /\ fd_idats fd = pc_idats p.
Proof.
  unfold frameWork, encodePalettedImage. cbn -[fetchPNGChunk].
  destruct (pngEncode img) as [msg|stream] eqn:Henc.
  { destruct (image.isPaletted img); discriminate. }
  assert (Hsame : (if image.isPaletted img then fetchPNGChunk stream else fetchPNGChunk stream)
                  = fetchPNGChunk stream) by (destruct (image.isPaletted img); reflexivity).
  rewrite Hsame.
  destruct (fetchPNGChunk stream) as [[p|e]|] eqn:Hfetch; cbn; try discriminate.
  intros [= <-]. exists stream, p. repeat split. exact Hfetch.
Qed.

(** C9.  In the output of a successful call the IDAT chunks carry, in
    order and unchanged, the data payloads of frame 0, and the fdAT chunks
    carry, in the order of the frames 1..N-1, a four-byte big-endian
    sequence number followed by one data payload of the frame, unchanged;
    the data payloads of a frame are those read from its own stream. *)
Theorem data_chunks_unchanged {W : Type} `{Writer W}
    (pngEncode : image.Image -> string + list byte)
    (sched : list nat) (w : W) (a : APNG) (w' : W) :
  EncodeAll pngEncode sched w a = Some (w', None) ->
  exists out cs f0 fs,
    written w' = written w ++ pngHeader ++ out
    /\ Container.parse out = Some cs
    /\ framesOf pngEncode a = Some (f0 :: fs)
    /\ map Container.c_data (List.filter (Container.hasType "IDAT") cs) = f_idats f0
    /\ Forall2 (fun c id => exists seq, 0 <= seq < 2 ^ 32
                                        /\ Container.c_data c = writeUint32 seq ++ id)
         (List.filter (Container.hasType "fdAT") cs) (flat_map f_idats fs)
    /\ forall i f, (f0 :: fs) !! i = Some f ->
         exists img stream p,
           Images a !! i = Some (Some img)
           /\ pngEncode img = inr stream
           /\ fetchPNGChunk stream = Some (Ok p)
           /\ f_idats f = pc_idats p.
Proof.
  intros Hrun.
  destruct (EncodeAll_parse _ _ _ _ _ Hrun)
    as (has & gp & gt & f0 & fs & out & Hpal & Hfs & Hw & Hparse).
  exists out, (container a (paletteChunks has gp gt) (f0 :: fs)), f0, fs.
  do 3 (split; [assumption|]).
  split.
  { rewrite container_IDAT, map_map. cbn [Container.sealed Container.c_data].
    apply map_id. }
  split.
  { rewrite container_fdAT. apply laterFrames_payloads. lia. }
  intros i f Hf.
  apply (framesOf_lookup _ _ _ _ _ Hfs) in Hf.
  apply frameOf_Some in Hf as (img & fd & Himg & _ & _ & _ & Hwork & _ & Hd).
  apply frameWork_stream in Hwork as (stream & p & Henc & Hfetch & _ & Hd').
  exists img, stream, p. repeat split; [assumption.. | congruence].
Qed.

Lemma data_chunks_unchanged_witness :
  exists w',
    EncodeAll Demo.encode [2; 0; 1]%nat (mkBuffer []) Inputs.three = Some (w', None)
    /\ exists out cs f0 fs,
         written w' = written (mkBuffer []) ++ pngHeader ++ out
         /\ Container.parse out = Some cs
         /\ framesOf Demo.encode Inputs.three = Some (f0 :: fs)
         /\ map Container.c_data (List.filter (Container.hasType "IDAT") cs) = f_idats f0
         /\ Forall2 (fun c id => exists seq, 0 <= seq < 2 ^ 32
                                             /\ Container.c_data c = writeUint32 seq ++ id)
              (List.filter (Container.hasType "fdAT") cs) (flat_map f_idats fs)
         /\ forall i f, (f0 :: fs) !! i = Some f ->
              exists img stream p,
                Images Inputs.three !! i = Some (Some img)
                /\ Demo.encode img = inr stream
                /\ fetchPNGChunk stream = Some (Ok p)
                /\ f_idats f = pc_idats p.
Proof.
  eexists. split; [vm_compute; reflexivity|].
  apply (data_chunks_unchanged Demo.encode [2; 0; 1]%nat (mkBuffer []) Inputs.three).
  vm_compute. reflexivity.
Defined.

(** ** The global palette *)

Lemma IDATs_notPalette (ids : list (list byte)) :
  Forall notPalette (map (Container.sealed "IDAT") ids).
Proof. induction ids as [|id ids IH]; constructor; [split; reflexivity | exact IH]. Qed.

Lemma fdATChunks_notPalette (ids : list (list byte)) : forall s,
  Forall notPalette (fdATChunks s ids).
Proof.
  induction ids as [|id ids IH]; intros s; constructor; [split; reflexivity | apply IH].
Qed.

Lemma laterFrames_notPalette (fs : list frame) : forall s,
  Forall notPalette (laterFrames s fs).
Proof.
  induction fs as [|f fs IH]; intros s; [constructor|]. cbn [laterFrames].
  constructor; [split; reflexivity|].
  apply Forall_app. split; [apply fdATChunks_notPalette | apply IH].
Qed.

(** The block on the first image: the slices are those of the stream of a
    paletted frame 0, or there are none. *)
Lemma firstPalette_Ok (pngEncode : image.Image -> string + list byte) (a : APNG)
    (has : bool) (gp gt : option (list byte)) :
  firstPalette pngEncode a = Some (Ok (has, gp, gt)) ->
  (has = false /\ gp = None /\ gt = None)
  \/ (has = true
      /\ exists img stream,
           Images a !! 0%nat = Some (Some img) /\ image.isPaletted img = true
           /\ pngEncode img = inr stream
           /\ fetchPaletteChunk stream = Some (Ok (gp, gt))).
Proof.
  unfold firstPalette.
  destruct (Images a !! 0%nat) as [[img|]|]; cbn -[fetchPaletteChunk]; try discriminate.
  2: { intros [= <- <- <-]. left. repeat split. }
  destruct (image.isPaletted img) eqn:Hp.
  2: { intros [= <- <- <-]. left. repeat split. }
  destruct (pngEncode img) as [msg|stream] eqn:Henc; [discriminate|].
  destruct (fetchPaletteChunk stream) as [[[p t]|e]|] eqn:Hf; cbn; try discriminate.
  intros [= <- <- <-]. right. split; [reflexivity|].
  exists img, stream. repeat split; assumption.
Qed.

(** C10.  The output of a successful call is the header chunk, then the
    global palette chunks, then chunks none of which is a PLTE or a tRNS
    chunk.  The global palette chunks are none, or one PLTE chunk, or one
    PLTE chunk immediately followed by one tRNS chunk; when there are any,
    frame 0 is a paletted image and their payloads are payloads of a PLTE
    and of a tRNS chunk of its encoded stream.  So a tRNS chunk never comes
    without the PLTE chunk before it, and neither appears when frame 0 is
    not paletted. *)
Theorem global_palette_chunks {W : Type} `{Writer W}
    (pngEncode : image.Image -> string + list byte)
    (sched : list nat) (w : W) (a : APNG) (w' : W) :
  EncodeAll pngEncode sched w a = Some (w', None) ->
  exists out cs hdr pal rest,
    written w' = written w ++ pngHeader ++ out
    /\ Container.parse out = Some cs
    /\ cs = hdr :: pal ++ rest
    /\ Forall notPalette (hdr :: rest)
    /\ (pal = []
        \/ (exists p, pal = [p] /\ Container.hasType "PLTE" p = true)
        \/ (exists p t, pal = [p; t] /\ Container.hasType "PLTE" p = true
                        /\ Container.hasType "tRNS" t = true))
    /\ (pal <> [] ->
        exists img stream,
          Images a !! 0%nat = Some (Some img) /\ image.isPaletted img = true
          /\ pngEncode img = inr stream
          /\ forall c, c ∈ pal ->
               (Container.hasType "PLTE" c = true
                /\ chunkAt "PLTE" (Container.c_data c) (drop 8 stream))
               \/ (Container.hasType "tRNS" c = true
                   /\ chunkAt "tRNS" (Container.c_data c) (drop 8 stream)))
    /\ ((forall img, Images a !! 0%nat = Some (Some img) -> image.isPaletted img = false) ->
        Forall notPalette cs).
Proof.
  intros Hrun.
  destruct (EncodeAll_parse _ _ _ _ _ Hrun)
    as (has & gp & gt & f0 & fs & out & Hpal & Hfs & Hw & Hparse).
  exists out, (container a (paletteChunks has gp gt) (f0 :: fs)),
    (Container.sealed "IHDR" (f_ihdr f0)), (paletteChunks has gp gt),
    (Container.sealed "acTL" (acTLData a)
     :: Container.sealed "fcTL" (fcTLData 0 (f_bounds f0) (f_delay f0) (f_dispose f0))
     :: map (Container.sealed "IDAT") (f_idats f0)
     ++ laterFrames 1 fs ++ [Container.sealed "IEND" []]).
  do 2 (split; [assumption|]). split; [reflexivity|].
  assert (Hrest : Forall notPalette
            (Container.sealed "IHDR" (f_ihdr f0)
             :: Container.sealed "acTL" (acTLData a)
             :: Container.sealed "fcTL" (fcTLData 0 (f_bounds f0) (f_delay f0) (f_dispose f0))
             :: map (Container.sealed "IDAT") (f_idats f0)
             ++ laterFrames 1 fs ++ [Container.sealed "IEND" []])).
  { do 3 (constructor; [split; reflexivity|]).
    apply Forall_app. split; [apply IDATs_notPalette|].
    apply Forall_app. split; [apply laterFrames_notPalette|].
    constructor; [split; reflexivity | constructor]. }
  split; [exact Hrest|].
  split.
  { unfold paletteChunks. destruct has, gp as [g|], gt as [t|]; eauto 7. }
  apply firstPalette_Ok in Hpal
    as [(-> & -> & ->) | (-> & img & stream & Himg & Hp & Henc & Hfetch)].
  { split; [intros Hne; exfalso; apply Hne; reflexivity|].
    intros _. apply Forall_cons in Hrest as [Hh Hr]. constructor; assumption. }
  split.
  - intros _. exists img, stream. do 3 (split; [assumption|]).
    destruct (fetchPaletteChunk_origin _ _ _ Hfetch) as [Hgp Hgt].
    unfold paletteChunks. intros c Hc.
    destruct gp as [g|]; [|apply elem_of_nil in Hc; contradiction].
    apply elem_of_cons in Hc as [-> | Hc].
    { left. split; [reflexivity | exact (Hgp g eq_refl)]. }
    destruct gt as [t|]; [|apply elem_of_nil in Hc; contradiction].
    apply elem_of_cons in Hc as [-> | Hc]; [|apply elem_of_nil in Hc; contradiction].
    right. split; [reflexivity | exact (Hgt t eq_refl)].
  - intros Hnp. rewrite (Hnp img Himg) in Hp. discriminate Hp.
Qed.

Lemma global_palette_chunks_witness :
  exists w',
    EncodeAll Demo.encode [1; 0]%nat (mkBuffer []) Inputs.twoPaletted = Some (w', None)
    /\ exists out cs hdr pal rest,
         written w' = written (mkBuffer []) ++ pngHeader ++ out
         /\ Container.parse out = Some cs
         /\ cs = hdr :: pal ++ rest
         /\ Forall notPalette (hdr :: rest)
         /\ (pal = []
             \/ (exists p, pal = [p] /\ Container.hasType "PLTE" p = true)
             \/ (exists p t, pal = [p; t] /\ Container.hasType "PLTE" p = true
                             /\ Container.hasType "tRNS" t = true))
         /\ (pal <> [] ->
             exists img stream,
               Images Inputs.twoPaletted !! 0%nat = Some (Some img)
               /\ image.isPaletted img = true
               /\ Demo.encode img = inr stream
               /\ forall c, c ∈ pal ->
                    (Container.hasType "PLTE" c = true
                     /\ chunkAt "PLTE" (Container.c_data c) (drop 8 stream))
                    \/ (Container.hasType "tRNS" c = true
                        /\ chunkAt "tRNS" (Container.c_data c) (drop 8 stream)))
         /\ ((forall img, Images Inputs.twoPaletted !! 0%nat = Some (Some img) ->
                          image.isPaletted img = false) ->
             Forall notPalette cs).
Proof.
  eexists. split; [vm_compute; reflexivity|].
  apply (global_palette_chunks Demo.encode [1; 0]%nat (mkBuffer []) Inputs.twoPaletted).
  vm_compute. reflexivity.
Defined.

(** ** Color models *)

Lemma fullfill_recolor (f : image.Image -> image.Model) (imgs : list (option image.Image)) :
  fullfillFrameRegionConstraints
    (map (option_map (fun img =>
            image.mkImage (image.Bounds img) (f img) (image.isPaletted img) (image.Pix img)))
       imgs)
  = fullfillFrameRegionConstraints imgs.
Proof.
  destruct imgs as [|[img0|] rest]; try reflexivity.
  cbn [map option_map fullfillFrameRegionConstraints image.Bounds].
  destruct (negb _); [reflexivity|].
  induction rest as [|[img|] rest IH]; try reflexivity.
  cbn [map option_map forallb image.Bounds]. rewrite IH. reflexivity.
Qed.

(** The checks that open [EncodeAll] are those of the counts and of the
    frame region: which error they return, if any, does not depend on the
    color models of the frames, paletted or not, and an input they reject
    is rejected before any work whatever the color models are. *)
Theorem validation_ignores_color_models (f : image.Image -> image.Model) (a : APNG) :
  validate (recolor f a) = validate a
  /\ forall e, validate a = Some e ->
       forall (W : Type) (HW : Writer W) (pngEncode : image.Image -> string + list byte)
         (sched : list nat) (w : W),
         EncodeAll pngEncode sched w (recolor f a) = Some (w, Some e).
Proof.
  assert (Hv : validate (recolor f a) = validate a).
  { unfold validate, recolor. cbn [Images Delays Disposals].
    rewrite fullfill_recolor, length_map. reflexivity. }
  split; [exact Hv|].
  intros e He W HW pngEncode sched w. unfold EncodeAll. rewrite Hv, He. reflexivity.
Qed.

(** On two paletted frames the comparison of the earlier [EncodeAll]
    panics: it has no exemption for paletted frames. *)
Lemma Legacy_panics_on_paletted_frames :
  Legacy.validate Inputs.twoPaletted = panic.
Proof. reflexivity. Qed.

(** ** The frame region *)

Lemma inCanvas_spec (reference bounds : image.Rectangle) :
  inCanvas reference bounds = true
  <-> 0 <= image.X (image.Min bounds) /\ 0 <= image.Y (image.Min bounds)
      /\ image.X (image.Max bounds) <= image.X (image.Max reference)
      /\ image.Y (image.Max bounds) <= image.Y (image.Max reference).
Proof. unfold inCanvas. rewrite !andb_true_iff, !Z.leb_le. tauto. Qed.

(** [fullfillFrameRegionConstraints] decides [withinCanvas]. *)
Lemma fullfill_spec (imgs : list (option image.Image)) :
  fullfillFrameRegionConstraints imgs = true <-> withinCanvas imgs.
Proof.
  unfold withinCanvas. destruct imgs as [|[img0|] rest]; cbn [fullfillFrameRegionConstraints].
  - split; [discriminate | intros (? & ? & ? & _); discriminate].
  - destruct (Z.leb_spec 0 (image.X (image.Min (image.Bounds img0)))) as [Hx|Hx];
      destruct (Z.leb_spec 0 (image.Y (image.Min (image.Bounds img0)))) as [Hy|Hy];
      cbn [andb negb];
      try (split; [discriminate | intros (? & ? & [= <- <-] & ? & ? & _); lia]).
    rewrite forallb_forall, <- List.Forall_forall. split.
    + intros Hall. exists img0, rest. do 3 (split; [trivial|]).
      eapply Forall_impl; [exact Hall|]. intros [img|] Himg; [|discriminate].
      exists img. split; [reflexivity|]. apply inCanvas_spec, Himg.
    + intros (? & ? & [= <- <-] & _ & _ & Hall).
      eapply Forall_impl; [exact Hall|]. intros o (img & -> & Himg).
      apply inCanvas_spec, Himg.
  - split; [discriminate | intros (? & ? & ? & _); discriminate].
Qed.

Lemma validate_counts (a : APNG) :
  countsOK a ->
  validate a = if fullfillFrameRegionConstraints (Images a) then None
               else Some (errorString "apng: must fullfill frame region constraints").
Proof.
  intros (Hn & Hd & Hp). unfold validate.
  rewrite decide_False by exact Hn. rewrite decide_False by (intros Hne; apply Hne, Hd).
  destruct (Disposals a) as [ds|].
  - rewrite bool_decide_false by (intros Hne; apply Hne, Hp; reflexivity).
    destruct (fullfillFrameRegionConstraints (Images a)); reflexivity.
  - destruct (fullfillFrameRegionConstraints (Images a)); reflexivity.
Qed.

(** C6, as the code has it.  For an input that passes the count checks,
    the validation of [EncodeAll] passes exactly when every frame is an
    image within the canvas of frame 0, and otherwise the call returns the
    frame-region error with the destination untouched.  In the output of a
    successful call the width, height, x offset and y offset of frame [i]
    are the low 32 bits of [Max.X - Min.X], [Max.Y - Min.Y], [Min.X] and
    [Min.Y] of its bounds: the values themselves whenever they are below
    2^32. *)
Theorem region_check_and_frame_fields {W : Type} `{Writer W}
    (pngEncode : image.Image -> string + list byte)
    (sched : list nat) (w : W) (a : APNG) :
  countsOK a ->
  (withinCanvas (Images a) <-> validate a = None)
  /\ (~ withinCanvas (Images a) ->
      RegionError (errorString "apng: must fullfill frame region constraints")
      /\ EncodeAll pngEncode sched w a
         = Some (w, Some (errorString "apng: must fullfill frame region constraints")))
  /\ forall w',
       EncodeAll pngEncode sched w a = Some (w', None) ->
       withinCanvas (Images a)
       /\ exists out cs,
            written w' = written w ++ pngHeader ++ out
            /\ Container.parse out = Some cs
            /\ forall i img, Images a !! i = Some (Some img) ->
                 exists c,
                   List.filter (Container.hasType "fcTL") cs !! i = Some c
                   /\ Container.fc_width (Container.decodeFrameControl (Container.c_data c))
                      = uint32 (image.X (image.Max (image.Bounds img))
                                - image.X (image.Min (image.Bounds img)))
                   /\ Container.fc_height (Container.decodeFrameControl (Container.c_data c))
                      = uint32 (image.Y (image.Max (image.Bounds img))
                                - image.Y (image.Min (image.Bounds img)))
                   /\ Container.fc_xOffset (Container.decodeFrameControl (Container.c_data c))
                      = uint32 (image.X (image.Min (image.Bounds img)))
                   /\ Container.fc_yOffset (Container.decodeFrameControl (Container.c_data c))
                      = uint32 (image.Y (image.Min (image.Bounds img)))
                   /\ (fits32 (image.X (image.Max (image.Bounds img))
                               - image.X (image.Min (image.Bounds img))) ->
                       Container.fc_width (Container.decodeFrameControl (Container.c_data c))
                       = image.X (image.Max (image.Bounds img))
                         - image.X (image.Min (image.Bounds img)))
                   /\ (fits32 (image.Y (image.Max (image.Bounds img))
                               - image.Y (image.Min (image.Bounds img))) ->
                       Container.fc_height (Container.decodeFrameControl (Container.c_data c))
                       = image.Y (image.Max (image.Bounds img))
                         - image.Y (image.Min (image.Bounds img)))
                   /\ (fits32 (image.X (image.Min (image.Bounds img))) ->
                       Container.fc_xOffset (Container.decodeFrameControl (Container.c_data c))
                       = image.X (image.Min (image.Bounds img)))
                   /\ (fits32 (image.Y (image.Min (image.Bounds img))) ->
                       Container.fc_yOffset (Container.decodeFrameControl (Container.c_data c))
                       = image.Y (image.Min (image.Bounds img))).
Proof.
  intros Hcounts. pose proof (validate_counts a Hcounts) as Hv.
  pose proof (fullfill_spec (Images a)) as Hspec.
  split; [|split].
  - rewrite <- Hspec, Hv.
    destruct (fullfillFrameRegionConstraints (Images a)); split;
      intros; try reflexivity; discriminate.
  - intros Hout. split; [reflexivity|].
    unfold EncodeAll. rewrite Hv.
    destruct (fullfillFrameRegionConstraints (Images a)); [|reflexivity].
    exfalso. apply Hout, Hspec. reflexivity.
  - intros w' Hrun. split.
    + apply Hspec. unfold EncodeAll in Hrun. rewrite Hv in Hrun.
      destruct (fullfillFrameRegionConstraints (Images a)); [reflexivity|discriminate Hrun].
    + destruct (EncodeAll_frame_controls _ _ _ _ _ Hrun)
        as (out & cs & Hw & Hparse & Hn & Hfc).
      exists out, cs. do 2 (split; [assumption|]).
      intros i img Himg.
      destruct (Hfc i (lookup_lt_Some _ _ _ Himg))
        as (img' & delay & dispose & seq & Himg' & _ & _ & Hc).
      assert (img' = img) as -> by congruence.
      eexists. split; [exact Hc|].
      cbn [Container.sealed Container.c_data]. rewrite decode_fcTLData.
      cbn [Container.fc_width Container.fc_height Container.fc_xOffset Container.fc_yOffset].
      do 4 (split; [reflexivity|]).
      repeat split; intros Hfit; apply uint32_small, Hfit.
Qed.

Lemma region_check_and_frame_fields_witness :
  (withinCanvas (Images Inputs.three) <-> validate Inputs.three = None)
  /\ (~ withinCanvas (Images Inputs.three) ->
      RegionError (errorString "apng: must fullfill frame region constraints")
      /\ EncodeAll Demo.encode [2; 0; 1]%nat (mkBuffer []) Inputs.three
         = Some (mkBuffer [], Some (errorString "apng: must fullfill frame region constraints")))
  /\ forall w',
       EncodeAll Demo.encode [2; 0; 1]%nat (mkBuffer []) Inputs.three = Some (w', None) ->
       withinCanvas (Images Inputs.three)
       /\ exists out cs,
            written w' = written (mkBuffer []) ++ pngHeader ++ out
            /\ Container.parse out = Some cs
            /\ forall i img, Images Inputs.three !! i = Some (Some img) ->
                 exists c,
                   List.filter (Container.hasType "fcTL") cs !! i = Some c
                   /\ Container.fc_width (Container.decodeFrameControl (Container.c_data c))
                      = uint32 (image.X (image.Max (image.Bounds img))
                                - image.X (image.Min (image.Bounds img)))
                   /\ Container.fc_height (Container.decodeFrameControl (Container.c_data c))
                      = uint32 (image.Y (image.Max (image.Bounds img))
                                - image.Y (image.Min (image.Bounds img)))
                   /\ Container.fc_xOffset (Container.decodeFrameControl (Container.c_data c))
                      = uint32 (image.X (image.Min (image.Bounds img)))
                   /\ Container.fc_yOffset (Container.decodeFrameControl (Container.c_data c))
                      = uint32 (image.Y (image.Min (image.Bounds img)))
                   /\ (fits32 (image.X (image.Max (image.Bounds img))
                               - image.X (image.Min (image.Bounds img))) ->
                       Container.fc_width (Container.decodeFrameControl (Container.c_data c))
                       = image.X (image.Max (image.Bounds img))
                         - image.X (image.Min (image.Bounds img)))
                   /\ (fits32 (image.Y (image.Max (image.Bounds img))
                               - image.Y (image.Min (image.Bounds img))) ->
                       Container.fc_height (Container.decodeFrameControl (Container.c_data c))
                       = image.Y (image.Max (image.Bounds img))
                         - image.Y (image.Min (image.Bounds img)))
                   /\ (fits32 (image.X (image.Min (image.Bounds img))) ->
                       Container.fc_xOffset (Container.decodeFrameControl (Container.c_data c))
                       = image.X (image.Min (image.Bounds img)))
                   /\ (fits32 (image.Y (image.Min (image.Bounds img))) ->
                       Container.fc_yOffset (Container.decodeFrameControl (Container.c_data c))
                       = image.Y (image.Min (image.Bounds img))).
Proof.
  apply (region_check_and_frame_fields Demo.encode [2; 0; 1]%nat (mkBuffer []) Inputs.three).
  split; [discriminate|]. split; [reflexivity | discriminate].
Defined.

(** The same rule rejects a frame that reaches beyond the canvas. *)
Example region_error_outside :
  EncodeAll Demo.encode [0; 1]%nat (mkBuffer []) Inputs.outside
  = Some (mkBuffer [], Some (errorString "apng: must fullfill frame region constraints")).
Proof. reflexivity. Qed.

(** An accepted frame whose origin does not fit 32 bits: the x offset in
    its frame-control chunk is 0, not the [Min.X] of its bounds. *)
Lemma offset_not_verbatim :
  exists img w' cs c,
    Images Inputs.farOffset = [Some img]
    /\ image.X (image.Min (image.Bounds img)) = 2 ^ 32
    /\ EncodeAll Demo.encode [0]%nat (mkBuffer []) Inputs.farOffset = Some (w', None)
    /\ Container.parse (drop 8 (bufBytes w')) = Some cs
    /\ List.filter (Container.hasType "fcTL") cs = [c]
    /\ Container.fc_xOffset (Container.decodeFrameControl (Container.c_data c)) = 0
    /\ Container.fc_xOffset (Container.decodeFrameControl (Container.c_data c))
       <> image.X (image.Min (image.Bounds img)).
Proof.
  eexists _, _, _, _.
  split; [reflexivity|]. split; [reflexivity|].
  split; [vm_compute; reflexivity|].
  split; [vm_compute; reflexivity|].
  split; [vm_compute; reflexivity|].
  split; [vm_compute; reflexivity|].
  vm_compute. discriminate.
Qed.

(** ** The stored error *)

Section Sticky.
Context {W : Type} `{Writer W}.

Implicit Types e : encoder W.

(** Once an error is stored, no method of the encoder writes to the
    destination or replaces the error. *)
Lemma writefcTL_sticky e i x e' :
  err e = Some x -> writefcTL e i = Some e' -> writer e' = writer e /\ err e' = Some x.
Proof.
  intros He. unfold writefcTL.
  destruct (mjoin _) as [img|]; simpl; [|discriminate].
  destruct (Delays _ !! i) as [delay|]; simpl; [|discriminate].
  destruct (disposeOp _ i) as [dispose|]; simpl; [|discriminate].
  rewrite (writeChunk_sticky _ _ _ _ He). simpl. intros [= <-]. split; [reflexivity | exact He].
Qed.

Lemma writeIDATs_loop_sticky ids : forall e x e',
  err e = Some x -> writeIDATs_loop e ids = Some e' -> e' = e.
Proof.
  induction ids as [|id ids IH]; intros e x e' He; simpl; [intros [= <-]; reflexivity|].
  rewrite (writeChunk_sticky _ _ _ _ He). simpl. apply (IH _ x), He.
Qed.

Lemma writefdATs_loop_sticky ids : forall e x e',
  err e = Some x -> writefdATs_loop e ids = Some e' ->
  writer e' = writer e /\ err e' = Some x.
Proof.
  induction ids as [|id ids IH]; intros e x e' He; simpl.
  - intros [= <-]. split; [reflexivity | exact He].
  - rewrite (writeChunk_sticky _ _ _ _ He). simpl. intros Hl.
    apply (IH _ x) in Hl; [exact Hl | exact He].
Qed.

Variable pngEncode : image.Image -> string + list byte.

(** A failed write of the signature is returned to the caller when the
    block on the first image does not return first. *)
Lemma signature_error_returned (sched : list nat) (w w1 : W) (a : APNG) (x : error)
    (pal : bool * option (list byte) * option (list byte))
    (results : list (result frameData)) :
  validate a = None ->
  Write w pngHeader = (w1, Some x) ->
  firstPalette pngEncode a = Some (Ok pal) ->
  mapM (fun '(i, img) => frameWork pngEncode i img) (imap pair (Images a)) = Some results ->
  EncodeAll pngEncode sched w a = Some (w1, Some x).
Proof.
  intros Hv Hs Hp Hr. unfold EncodeAll. rewrite Hv, Hs, Hp. simpl.
  destruct pal as [[has gp] gt]. rewrite Hr. simpl.
  pose proof (gather_sticky results sched x) as Hg.
  destruct (gather results sched (Some x)) as [m err1]. simpl in Hg. rewrite Hg. reflexivity.
Qed.

(** When frame 0 is paletted and the external encoder refuses it, the
    block on the first image returns its own error, whatever error the
    write of the signature has stored. *)
Lemma palette_error_returned (sched : list nat) (w w1 : W) (a : APNG) (r : option error)
    (img : image.Image) (msg : string) :
  validate a = None ->
  Write w pngHeader = (w1, r) ->
  Images a !! 0%nat = Some (Some img) ->
  image.isPaletted img = true ->
  pngEncode img = inl msg ->
  EncodeAll pngEncode sched w a
  = Some (w1, Some (errorString ("apng: png encoding error(" +:+ msg +:+ ")"))).
Proof.
  intros Hv Hs Himg Hp Henc. unfold EncodeAll, firstPalette.
  rewrite Hv, Hs, Himg. simpl. rewrite Hp, Henc. reflexivity.
Qed.

End Sticky.

(** C7 at the failing input.  The destination refuses the signature, so
    the encoder stores [io.ErrShortWrite]; frame 0 is a paletted image that
    the external encoder refuses; [EncodeAll] returns the error of the
    block on the first image, not the error stored first. *)
Theorem first_error_not_returned :
  Write (mkLimited [] 0) pngHeader = (mkLimited [] 0, Some ErrShortWrite)
  /\ EncodeAll Demo.encode [0]%nat (mkLimited [] 0) Inputs.emptyPaletted
     = Some (mkLimited [] 0,
             Some (errorString
                     "apng: png encoding error(png: invalid format: invalid image size)"))
  /\ errorString "apng: png encoding error(png: invalid format: invalid image size)"
     <> ErrShortWrite.
Proof.
  split; [reflexivity|]. split; [|discriminate].
  exact (palette_error_returned Demo.encode [0]%nat (mkLimited [] 0) (mkLimited [] 0)
           Inputs.emptyPaletted (Some ErrShortWrite)
           (image.mkImage (image.Rect 0 0 0 0) (image.Palette [(0, 0, 0, 255)]) true [])
           "png: invalid format: invalid image size"
           eq_refl eq_refl eq_refl eq_refl eq_refl).
Qed.

(** ** Reading a well-formed single-image stream *)

Lemma ReadFull_exact (n : nat) (data rest : list byte) :
  length data = n -> ReadFull (data ++ rest) n = (data, None, rest).
Proof. intros <-. apply ReadFull_app. Qed.

Lemma framed_Some (name : string) (len : Z) (data : list byte) :
  0 <= len -> len + 8 < 2 ^ 32 -> is_Some (framed name len data).
Proof.
  intros H0 H8. unfold framed. rewrite decide_False; [eexists; reflexivity|].
  rewrite uint32_small; lia.
Qed.

(** One readable chunk at the head of the buffer: [parsePNGChunk] consumes
    exactly its bytes and keeps what [absorb] says. *)
Lemma parsePNGChunk_chunk (c : chunkFetcher) (p : pngChunk) (ch : Container.chunk)
    (rest : list byte) :
  bb c = Container.chunkBytes ch ++ rest -> pc c = Some p -> stage c <> dsSeenIEND ->
  readable ch ->
  exists c',
    parsePNGChunk c = Some (c', None)
    /\ bb c' = rest /\ pc c' = Some (absorb p ch) /\ stage c' <> dsSeenIEND.
Proof.
  intros Hbb Hpc Hstage ((Ht & Hc & Hd) & Hend & Hhdr & Hpal).
  destruct ch as [type data crc].
  cbn [Container.c_type Container.c_data Container.c_crc] in *.
  unfold Container.chunkBytes in Hbb.
  cbn [Container.c_type Container.c_data Container.c_crc] in Hbb.
  rewrite <- !app_assoc in Hbb.
  set (len := Z.of_nat (length data)) in *.
  assert (Hn : Z.to_nat len = length data) by (unfold len; lia).
  assert (Hlen : BigEndian_Uint32 (take 4 (writeUint32 len ++ type)) = len).
  { rewrite BigEndian_Uint32_app. apply uint32_small. unfold len. lia. }
  assert (Htag : drop 4 (writeUint32 len ++ type) = type)
    by (apply drop_app_length'; reflexivity).
  unfold parsePNGChunk.
  rewrite Hbb, (app_assoc (writeUint32 len)).
  rewrite (ReadFull_exact 8) by (rewrite length_app, Ht; reflexivity).
  rewrite Hlen, Htag. unfold absorb, skipCRC, Next.
  cbn [Container.c_type Container.c_data].
  destruct (decide (type = bytesOf "IHDR")) as [Hi|_].
  { unfold parseIHDR. rewrite decide_False by (specialize (Hhdr Hi); lia).
    cbn [bb setBB setStage]. rewrite (ReadFull_exact _ data) by (symmetry; exact Hn).
    cbn [pc setStage setBB]. rewrite Hpc. simpl.
    eexists. split; [reflexivity|]. simpl.
    split; [apply drop_app_length'; symmetry; exact Hc|]. split; [reflexivity | discriminate]. }
  destruct (decide (type = bytesOf "PLTE")) as [Hp|_].
  { unfold parsePLTE. cbn [bb setBB setStage].
    rewrite (ReadFull_exact _ data) by (symmetry; exact Hn).
    destruct (framed_Some "PLTE" len data) as [g Hg]; [unfold len; lia | apply Hpal; auto|].
    rewrite Hg. cbn [pc setStage setBB]. rewrite Hpc. simpl.
    eexists. split; [reflexivity|]. simpl.
    split; [apply drop_app_length'; symmetry; exact Hc|]. split; [reflexivity | discriminate]. }
  destruct (decide (type = bytesOf "tRNS")) as [Hp|_].
  { unfold parsetRNS. cbn [bb setBB setStage].
    rewrite (ReadFull_exact _ data) by (symmetry; exact Hn).
    destruct (framed_Some "tRNS" len data) as [g Hg]; [unfold len; lia | apply Hpal; auto|].
    rewrite Hg. cbn [pc setStage setBB]. rewrite Hpc. simpl.
    eexists. split; [reflexivity|]. simpl.
    split; [apply drop_app_length'; symmetry; exact Hc|]. split; [reflexivity | discriminate]. }
  destruct (decide (type = bytesOf "IDAT")) as [Hp|_].
  { unfold parseIDAT, Next. cbn [bb setBB setStage].
    rewrite Hn, take_app_length, drop_app_length.
    rewrite decide_False by (unfold len; lia).
    cbn [pc setStage setBB]. rewrite Hpc. simpl.
    eexists. split; [reflexivity|]. simpl.
    split; [apply drop_app_length'; symmetry; exact Hc|]. split; [reflexivity | discriminate]. }
  rewrite decide_False by exact Hend.
  cbn [bb setBB]. rewrite Hn, drop_app_length. simpl.
  eexists. split; [reflexivity|]. simpl.
  split; [apply drop_app_length'; symmetry; exact Hc|]. split; [exact Hpc | exact Hstage].
Qed.

(** The terminator ends the scan; its payload and what follows it are not
    looked at. *)
Lemma parsePNGChunk_IEND (c : chunkFetcher) (lenb rest : list byte) :
  bb c = lenb ++ bytesOf "IEND" ++ rest -> length lenb = 4%nat ->
  exists c', parsePNGChunk c = Some (c', None) /\ pc c' = pc c /\ stage c' = dsSeenIEND.
Proof.
  intros Hbb Hl. unfold parsePNGChunk.
  rewrite Hbb, (app_assoc lenb).
  rewrite (ReadFull_exact 8) by (rewrite length_app, Hl; reflexivity).
  rewrite (drop_app_length' lenb) by (symmetry; exact Hl).
  rewrite decide_False by discriminate. rewrite decide_False by discriminate.
  rewrite decide_False by discriminate. rewrite decide_False by discriminate.
  rewrite decide_True by reflexivity. simpl.
  eexists. split; [reflexivity|]. split; reflexivity.
Qed.

Lemma fetchLoop_chunks (cs : list Container.chunk) : forall c p lenb rest,
  bb c = Container.serialize cs ++ lenb ++ bytesOf "IEND" ++ rest ->
  length lenb = 4%nat -> pc c = Some p -> stage c <> dsSeenIEND ->
  Forall readable cs ->
  exists c',
    fetchLoop parsePNGChunk (length cs + 2) c = Finished (Some (Ok c'))
    /\ pc c' = Some (foldl absorb p cs).
Proof.
  induction cs as [|ch cs IH]; intros c p lenb rest Hbb Hl Hpc Hstage Hcs.
  - destruct (parsePNGChunk_IEND c lenb rest Hbb Hl) as (c' & Hstep & Hpc' & Hst).
    exists c'. simpl. rewrite decide_False by exact Hstage. rewrite Hstep.
    rewrite decide_True by exact Hst. split; [reflexivity | congruence].
  - apply Forall_cons in Hcs as [Hch Hcs].
    change (Container.serialize (ch :: cs))
      with (Container.chunkBytes ch ++ Container.serialize cs) in Hbb.
    rewrite <- app_assoc in Hbb.
    destruct (parsePNGChunk_chunk c p ch _ Hbb Hpc Hstage Hch)
      as (c1 & Hstep & Hbb1 & Hpc1 & Hst1).
    destruct (IH c1 _ lenb rest Hbb1 Hl Hpc1 Hst1 Hcs) as (c' & Hloop & Hpc').
    exists c'. split; [|exact Hpc'].
    cbn [length Nat.add fetchLoop]. rewrite decide_False by exact Hstage.
    rewrite Hstep. exact Hloop.
Qed.

(** Reading back a well-formed stream: eight bytes of signature, readable
    chunks, the terminator.  The header payload is that of the last IHDR
    chunk and the data payloads are those of the IDAT chunks, in order. *)
Theorem fetchPNGChunk_wellformed (sig : list byte) (cs : list Container.chunk)
    (lenb rest : list byte) :
  length sig = 8%nat -> length lenb = 4%nat -> Forall readable cs ->
  fetchPNGChunk (sig ++ Container.serialize cs ++ lenb ++ bytesOf "IEND" ++ rest)
  = Some (Ok (foldl absorb new_pngChunk cs)).
Proof.
  intros Hsig Hl Hcs. unfold fetchPNGChunk, Next.
  change (length pngHeader) with 8%nat.
  rewrite drop_app_length' by (symmetry; exact Hsig). cbn [snd].
  destruct (fetchLoop_chunks cs (mkFetcher _ dsStart (Some new_pngChunk) None None)
              new_pngChunk lenb rest eq_refl Hl eq_refl) as (c' & Hloop & Hpc');
    [discriminate | exact Hcs|].
  rewrite (runFetch_of_fuel _ parsePNGChunk_progress _ _ _ Hloop).
  simpl. rewrite Hpc'. reflexivity.
Qed.

Lemma absorb_idats (cs : list Container.chunk) : forall p,
  pc_idats (foldl absorb p cs)
  = pc_idats p ++ map Container.c_data (List.filter (Container.hasType "IDAT") cs).
Proof.
  induction cs as [|c cs IH]; intros p; [symmetry; apply app_nil_r|].
  cbn [foldl List.filter]. rewrite IH. unfold absorb, Container.hasType.
  destruct (decide (Container.c_type c = bytesOf "IHDR")) as [Hi|Hi].
  { rewrite bool_decide_false by (rewrite Hi; discriminate). reflexivity. }
  destruct (decide (Container.c_type c = bytesOf "PLTE")) as [Hp|Hp].
  { rewrite bool_decide_false by (rewrite Hp; discriminate). reflexivity. }
  destruct (decide (Container.c_type c = bytesOf "tRNS")) as [Ht|Ht].
  { rewrite bool_decide_false by (rewrite Ht; discriminate). reflexivity. }
  destruct (decide (Container.c_type c = bytesOf "IDAT")) as [Hd|Hd].
  - rewrite bool_decide_true by exact Hd. cbn [pc_idats map]. rewrite <- app_assoc. reflexivity.
  - rewrite bool_decide_false by exact Hd. reflexivity.
Qed.

(** The data payloads [fetchPNGChunk] returns for a well-formed stream are
    the payloads of its IDAT chunks, in order and unchanged. *)
Corollary fetchPNGChunk_idats (sig : list byte) (cs : list Container.chunk)
    (lenb rest : list byte) :
  length sig = 8%nat -> length lenb = 4%nat -> Forall readable cs ->
  exists p,
    fetchPNGChunk (sig ++ Container.serialize cs ++ lenb ++ bytesOf "IEND" ++ rest)
    = Some (Ok p)
    /\ pc_idats p = map Container.c_data (List.filter (Container.hasType "IDAT") cs).
Proof.
  intros Hsig Hl Hcs. eexists. split; [apply fetchPNGChunk_wellformed; assumption|].
  apply (absorb_idats cs new_pngChunk).
Qed.

(** ** The order of completion does not show *)

(** Two successful calls on the same input append the same bytes to the
    destination, whatever the orders in which their goroutines finished. *)
Theorem EncodeAll_schedule_independent {W : Type} `{Writer W}
    (pngEncode : image.Image -> string + list byte)
    (sched1 sched2 : list nat) (w : W) (a : APNG) (w1 w2 : W) :
  EncodeAll pngEncode sched1 w a = Some (w1, None) ->
  EncodeAll pngEncode sched2 w a = Some (w2, None) ->
  written w1 = written w2.
Proof.
  intros H1 H2.
  destruct (EncodeAll_container _ _ _ _ _ H1)
    as (has & gp & gt & fs & _ & Hpal & Hfs & Hw & _).
  destruct (EncodeAll_container _ _ _ _ _ H2)
    as (has' & gp' & gt' & fs' & _ & Hpal' & Hfs' & Hw' & _).
  rewrite Hpal in Hpal'. injection Hpal' as <- <- <-.
  rewrite Hfs in Hfs'. injection Hfs' as <-.
  rewrite Hw, Hw'. reflexivity.
Qed.

(** The scenario of the specification: three frames with a uniform delay
    of 10 and loop count 0, one data chunk per frame, with the last
    goroutine finishing first. *)
Example three_frames_scenario :
  exists w' cs,
    EncodeAll Demo.encode [2; 0; 1]%nat (mkBuffer []) Inputs.three = Some (w', None)
    /\ Container.parse (drop 8 (bufBytes w')) = Some cs
    /\ map Container.c_type cs
       = map bytesOf ["IHDR"; "acTL"; "fcTL"; "IDAT"; "fcTL"; "fdAT"; "fcTL"; "fdAT"; "IEND"]
    /\ map Container.sequenceNumber (List.filter Container.carriesSequence cs)
       = [0; 1; 2; 3; 4]
    /\ map Container.c_data (List.filter (Container.hasType "acTL") cs)
       = [writeUint32 3 ++ writeUint32 0]
    /\ Forall (fun c => Container.c_crc c = Container.crcOf c) cs.
Proof.
  eexists _, _. split; [vm_compute; reflexivity|].
  split; [vm_compute; reflexivity|].
  split; [vm_compute; reflexivity|].
  split; [vm_compute; reflexivity|].
  split; [vm_compute; reflexivity|].
  repeat constructor.
Qed.

(** One readable chunk at the head of the buffer: [parsePNGChunkWithPalette]
    consumes exactly its bytes. *)
Lemma parsePNGChunkWithPalette_chunk (c : chunkFetcher) (ch : Container.chunk)
    (rest : list byte) :
  bb c = Container.chunkBytes ch ++ rest -> stage c <> dsSeenIEND -> readable ch ->
  exists c',
    parsePNGChunkWithPalette c = Some (c', None) /\ bb c' = rest /\ stage c' <> dsSeenIEND.
Proof.
  intros Hbb Hstage ((Ht & Hc & Hd) & Hend & Hhdr & Hpal).
  destruct ch as [type data crc].
  cbn [Container.c_type Container.c_data Container.c_crc] in *.
  unfold Container.chunkBytes in Hbb.
  cbn [Container.c_type Container.c_data Container.c_crc] in Hbb.
  rewrite <- !app_assoc in Hbb.
  set (len := Z.of_nat (length data)) in *.
  assert (Hn : Z.to_nat len = length data) by (unfold len; lia).
  assert (Hlen : BigEndian_Uint32 (take 4 (writeUint32 len ++ type)) = len).
  { rewrite BigEndian_Uint32_app. apply uint32_small. unfold len. lia. }
  assert (Htag : drop 4 (writeUint32 len ++ type) = type)
    by (apply drop_app_length'; reflexivity).
  unfold parsePNGChunkWithPalette.
  rewrite Hbb, (app_assoc (writeUint32 len)).
  rewrite (ReadFull_exact 8) by (rewrite length_app, Ht; reflexivity).
  rewrite Hlen, Htag. unfold skipCRC, Next.
  destruct (decide (type = bytesOf "IHDR")) as [Hi|_].
  { rewrite decide_False by (specialize (Hhdr Hi); lia).
    cbn [bb setBB setStage]. rewrite (ReadFull_exact _ data) by (symmetry; exact Hn). simpl.
    eexists. split; [reflexivity|]. simpl.
    split; [apply drop_app_length'; symmetry; exact Hc | discriminate]. }
  destruct (decide (type = bytesOf "PLTE")) as [Hp|_].
  { unfold parsePLTE. cbn [bb setBB setStage].
    rewrite (ReadFull_exact _ data) by (symmetry; exact Hn).
    destruct (framed_Some "PLTE" len data) as [g Hg]; [unfold len; lia | apply Hpal; auto|].
    rewrite Hg. simpl.
    eexists. split; [reflexivity|]. simpl.
    split; [apply drop_app_length'; symmetry; exact Hc | discriminate]. }
  destruct (decide (type = bytesOf "tRNS")) as [Hp|_].
  { unfold parsetRNS. cbn [bb setBB setStage].
    rewrite (ReadFull_exact _ data) by (symmetry; exact Hn).
    destruct (framed_Some "tRNS" len data) as [g Hg]; [unfold len; lia | apply Hpal; auto|].
    rewrite Hg. simpl.
    eexists. split; [reflexivity|]. simpl.
    split; [apply drop_app_length'; symmetry; exact Hc | discriminate]. }
  destruct (decide (type = bytesOf "IDAT")) as [Hp|_].
  { cbn [bb setBB setStage]. rewrite Hn, drop_app_length. simpl.
    eexists. split; [reflexivity|]. simpl.
    split; [apply drop_app_length'; symmetry; exact Hc | discriminate]. }
  rewrite decide_False by exact Hend.
  cbn [bb setBB]. rewrite Hn, drop_app_length. simpl.
  eexists. split; [reflexivity|]. simpl.
  split; [apply drop_app_length'; symmetry; exact Hc | exact Hstage].
Qed.

Lemma parsePNGChunkWithPalette_IEND (c : chunkFetcher) (lenb rest : list byte) :
  bb c = lenb ++ bytesOf "IEND" ++ rest -> length lenb = 4%nat ->
  exists c', parsePNGChunkWithPalette c = Some (c', None) /\ stage c' = dsSeenIEND.
Proof.
  intros Hbb Hl. unfold parsePNGChunkWithPalette.
  rewrite Hbb, (app_assoc lenb).
  rewrite (ReadFull_exact 8) by (rewrite length_app, Hl; reflexivity).
  rewrite (drop_app_length' lenb) by (symmetry; exact Hl).
  rewrite decide_False by discriminate. rewrite decide_False by discriminate.
  rewrite decide_False by discriminate. rewrite decide_False by discriminate.
  rewrite decide_True by reflexivity. simpl.
  eexists. split; reflexivity.
Qed.

Lemma fetchLoop_palette_chunks (cs : list Container.chunk) : forall c lenb rest,
  bb c = Container.serialize cs ++ lenb ++ bytesOf "IEND" ++ rest ->
  length lenb = 4%nat -> stage c <> dsSeenIEND -> Forall readable cs ->
  exists c',
    fetchLoop parsePNGChunkWithPalette (length cs + 2) c = Finished (Some (Ok c')).
Proof.
  induction cs as [|ch cs IH]; intros c lenb rest Hbb Hl Hstage Hcs.
  - destruct (parsePNGChunkWithPalette_IEND c lenb rest Hbb Hl) as (c' & Hstep & Hst).
    exists c'. simpl. rewrite decide_False by exact Hstage. rewrite Hstep.
    rewrite decide_True by exact Hst. reflexivity.
  - apply Forall_cons in Hcs as [Hch Hcs].
    change (Container.serialize (ch :: cs))
      with (Container.chunkBytes ch ++ Container.serialize cs) in Hbb.
    rewrite <- app_assoc in Hbb.
    destruct (parsePNGChunkWithPalette_chunk c ch _ Hbb Hstage Hch)
      as (c1 & Hstep & Hbb1 & Hst1).
    destruct (IH c1 lenb rest Hbb1 Hl Hst1 Hcs) as (c' & Hloop).
    exists c'. cbn [length Nat.add fetchLoop]. rewrite decide_False by exact Hstage.
    rewrite Hstep. exact Hloop.
Qed.

(** [fetchPaletteChunk] reads a well-formed stream to its terminator. *)
Lemma fetchPaletteChunk_wellformed (sig : list byte) (cs : list Container.chunk)
    (lenb rest : list byte) :
  length sig = 8%nat -> length lenb = 4%nat -> Forall readable cs ->
  exists p t,
    fetchPaletteChunk (sig ++ Container.serialize cs ++ lenb ++ bytesOf "IEND" ++ rest)
    = Some (Ok (p, t)).
Proof.
  intros Hsig Hl Hcs. unfold fetchPaletteChunk, Next.
  change (length pngHeader) with 8%nat.
  rewrite drop_app_length' by (symmetry; exact Hsig). cbn [snd].
  destruct (fetchLoop_palette_chunks cs (mkFetcher _ dsStart None None None)
              lenb rest eq_refl Hl) as (c' & Hloop); [discriminate | exact Hcs|].
  rewrite (runFetch_of_fuel _ parsePNGChunkWithPalette_progress _ _ _ Hloop).
  simpl. eexists _, _. reflexivity.
Qed.

(** ** A call that succeeds

    On a valid input, with an external encoder that returns well-formed
    streams and a destination that does not fail, [EncodeAll] returns nil:
    no index is out of range, no frame is missing from the map, and no loop
    runs out of fuel. *)

Lemma wfFramed_small (g : list byte) :
  wfFramed g -> Z.of_nat (length (drop 8 g)) < 2 ^ 32.
Proof.
  unfold wfFramed, payloadOfFramed. case_decide; [discriminate|].
  pose proof (uint32_range (8 + BigEndian_Uint32 (take 4 g))) as Hhi.
  case_decide as Hb; [|discriminate]. intros [= Ht].
  apply (f_equal length) in Ht. rewrite length_take in Ht. lia.
Qed.

Lemma absorb_ihdr_small (cs : list Container.chunk) : forall p,
  Forall readable cs -> Z.of_nat (length (pc_ihdr p)) < 2 ^ 32 ->
  Z.of_nat (length (pc_ihdr (foldl absorb p cs))) < 2 ^ 32.
Proof.
  induction cs as [|c cs IH]; intros p Hcs Hp; [exact Hp|].
  apply Forall_cons in Hcs as [((_ & _ & Hd) & _) Hcs]. cbn [foldl]. apply IH; [exact Hcs|].
  unfold absorb. repeat case_decide; simpl; assumption.
Qed.

Section Success.
Variable pngEncode : image.Image -> string + list byte.

Lemma frameWork_wellEncoded (i : nat) (img : image.Image) :
  wellEncoded pngEncode img ->
  exists fd, frameWork pngEncode i (Some img) = Some (Ok fd) /\ fd_index fd = i /\ okData fd.
Proof.
  intros (sig & cs & lenb & rest & Henc & Hsig & Hl & Hcs & Hroom).
  unfold frameWork, encodePalettedImage. cbn -[fetchPNGChunk]. rewrite Henc.
  assert (Hsame : forall (b : bool) (x : option (result pngChunk)), (if b then x else x) = x)
    by (intros [|] x; reflexivity).
  rewrite Hsame, (fetchPNGChunk_wellformed sig cs lenb rest Hsig Hl Hcs). cbn.
  eexists. split; [reflexivity|]. split; [reflexivity|]. split; cbn [fd_ihdr fd_idats].
  - apply absorb_ihdr_small; [exact Hcs | simpl; lia].
  - rewrite absorb_idats. cbn [pc_idats new_pngChunk app].
    apply Forall_map. clear -Hroom.
    induction Hroom as [|c cs Hc _ IH]; [constructor|]. cbn [List.filter].
    destruct (Container.hasType "IDAT" c); [constructor; assumption | assumption].
Qed.

Lemma firstPalette_wellEncoded (a : APNG) (img : image.Image) :
  Images a !! 0%nat = Some (Some img) -> wellEncoded pngEncode img ->
  exists has gp gt, firstPalette pngEncode a = Some (Ok (has, gp, gt)).
Proof.
  intros Himg (sig & cs & lenb & rest & Henc & Hsig & Hl & Hcs & _).
  unfold firstPalette. rewrite Himg. cbn -[fetchPaletteChunk].
  destruct (image.isPaletted img); [|eexists _, _, _; reflexivity].
  rewrite Henc.
  destruct (fetchPaletteChunk_wellformed sig cs lenb rest Hsig Hl Hcs) as (p & t & Hf).
  rewrite Hf. cbn. eexists _, _, _. reflexivity.
Qed.

(** With results that are all data, the fan-in stores no error and files
    every frame that has finished. *)
Lemma foldl_complete_ok (results : list (result frameData)) (sched : list nat) :
  (forall i r, results !! i = Some r -> exists fd, r = Ok fd /\ fd_index fd = i) ->
  forall st : fanIn,
    st.2 = None ->
    (foldl (complete results) st sched).2 = None
    /\ forall j, (j ∈ sched \/ is_Some (st.1 !! j)) -> (j < length results)%nat ->
         is_Some ((foldl (complete results) st sched).1 !! j).
Proof.
  intros Hres. induction sched as [|i sched IH]; intros st Hst.
  - split; [exact Hst|]. intros j [Hj | Hj] _; [apply elem_of_nil in Hj; contradiction | exact Hj].
  - cbn [foldl].
    assert (Hc : (complete results st i).2 = None
                 /\ (forall j, is_Some (st.1 !! j) -> is_Some ((complete results st i).1 !! j))
                 /\ ((i < length results)%nat -> is_Some ((complete results st i).1 !! i))).
    { unfold complete. destruct (results !! i) as [r|] eqn:Hi.
      - destruct (Hres i r Hi) as (fd & -> & Hidx). cbn [fst snd]. rewrite Hidx.
        split; [exact Hst|]. split.
        + intros j Hj. destruct (decide (i = j)) as [<-|Hne].
          * rewrite lookup_insert_eq. eexists; reflexivity.
          * rewrite lookup_insert_ne by exact Hne. exact Hj.
        + intros _. rewrite lookup_insert_eq. eexists; reflexivity.
      - split; [exact Hst|]. split; [trivial|].
        intros Hlt. apply lookup_ge_None in Hi. lia. }
    destruct Hc as (Hc1 & Hc2 & Hc3).
    destruct (IH _ Hc1) as [He Hm]. split; [exact He|].
    intros j [Hj | Hj] Hlt.
    + apply elem_of_cons in Hj as [-> | Hj].
      * apply Hm; [right; apply Hc3, Hlt | exact Hlt].
      * apply Hm; [left; exact Hj | exact Hlt].
    + apply Hm; [right; apply Hc2, Hj | exact Hlt].
Qed.

End Success.

Section BufferSuccess.

Implicit Types e : encoder Buffer.

(** On a buffer, a chunk that fits the length field goes out. *)
Lemma writeChunk_Buffer e (b : list byte) (name : string) :
  err e = None -> Z.of_nat (length b) < 2 ^ 32 -> (4 <= String.length name)%nat ->
  exists e', writeChunk e b name = Some e' /\ err e' = None.
Proof.
  intros He Hb Hname. unfold writeChunk, nameBytes. rewrite He.
  rewrite uint32_small by lia. rewrite Z.eqb_refl. cbn [negb].
  rewrite decide_True by exact Hname. simpl. eexists. split; reflexivity.
Qed.

Lemma writefcTL_Buffer e (i : nat) (img : image.Image) (delay dispose : Z) :
  err e = None ->
  Images (aPNG e) !! i = Some (Some img) -> Delays (aPNG e) !! i = Some delay ->
  disposeOp (aPNG e) i = Some dispose ->
  exists e', writefcTL e i = Some e' /\ err e' = None.
Proof.
  intros He Himg Hdelay Hdisp. unfold writefcTL. rewrite Himg, Hdelay, Hdisp.
  cbn -[writeChunk fcTLData].
  destruct (writeChunk_Buffer e (fcTLData (seqNum e) (image.Bounds img) delay dispose) "fcTL")
    as (e1 & Hw & He1); [exact He | rewrite length_fcTLData; lia | simpl; lia|].
  rewrite Hw. cbn. eexists. split; [reflexivity | exact He1].
Qed.

Lemma writeIDATs_loop_Buffer (ids : list (list byte)) : forall e,
  err e = None -> Forall (fun id => Z.of_nat (length id) + 4 < 2 ^ 32) ids ->
  exists e', writeIDATs_loop e ids = Some e' /\ err e' = None.
Proof.
  induction ids as [|id ids IH]; intros e He Hids; [exists e; split; [reflexivity | exact He]|].
  apply Forall_cons in Hids as [Hid Hids]. cbn [writeIDATs_loop].
  destruct (writeChunk_Buffer e id "IDAT") as (e1 & Hw & He1);
    [exact He | lia | simpl; lia|].
  rewrite Hw. cbn -[writeIDATs_loop]. apply IH; assumption.
Qed.

Lemma writefdATs_loop_Buffer (ids : list (list byte)) : forall e,
  err e = None -> Forall (fun id => Z.of_nat (length id) + 4 < 2 ^ 32) ids ->
  exists e', writefdATs_loop e ids = Some e' /\ err e' = None.
Proof.
  induction ids as [|id ids IH]; intros e He Hids; [exists e; split; [reflexivity | exact He]|].
  apply Forall_cons in Hids as [Hid Hids]. cbn [writefdATs_loop].
  destruct (writeChunk_Buffer e (writeUint32 (seqNum e) ++ id) "fdAT") as (e1 & Hw & He1);
    [exact He | rewrite length_app, length_writeUint32; lia | simpl; lia|].
  rewrite Hw. cbn -[writefdATs_loop]. apply IH; assumption.
Qed.

Lemma writeGlobalPalette_Buffer e (has : bool) (gp gt : option (list byte)) :
  err e = None ->
  (forall g, gp = Some g -> wfFramed g) -> (forall g, gt = Some g -> wfFramed g) ->
  exists e', writeGlobalPalette e has gp gt = Some e' /\ err e' = None.
Proof.
  intros He Hgp Hgt. unfold writeGlobalPalette.
  destruct has; [|exists e; split; [reflexivity | exact He]].
  destruct gp as [g|]; [|exists e; split; [reflexivity | exact He]].
  pose proof (Hgp g eq_refl) as Hg. rewrite Hg. cbn -[writeChunk].
  destruct (writeChunk_Buffer e (drop 8 g) "PLTE") as (e1 & Hw & He1);
    [exact He | apply wfFramed_small, Hg | simpl; lia|].
  rewrite Hw. cbn -[writeChunk].
  destruct gt as [t|]; [|exists e1; split; [reflexivity | exact He1]].
  pose proof (Hgt t eq_refl) as Ht. rewrite Ht. cbn -[writeChunk].
  apply writeChunk_Buffer; [exact He1 | apply wfFramed_small, Ht | simpl; lia].
Qed.

Lemma otherFrames_Buffer (m : gmap nat frameData) (todo : list nat) : forall e,
  err e = None -> Forall (ready (aPNG e) m) todo ->
  exists e', otherFrames m e todo = Some (e', None) /\ err e' = None.
Proof.
  induction todo as [|i todo IH]; intros e He Htodo;
    [exists e; split; [reflexivity | exact He]|].
  apply Forall_cons in Htodo
    as [((img & delay & dispose & Himg & Hdelay & Hdisp) & fd & Hfd & _ & Hids) Htodo].
  cbn [otherFrames]. rewrite Hfd.
  destruct (writefcTL_Buffer (setFrame e (fd_ihdr fd) (fd_idats fd)) i img delay dispose)
    as (e1 & H1 & He1); [exact He | exact Himg | exact Hdelay | exact Hdisp|].
  rewrite H1. cbn -[writefdATs otherFrames].
  apply writefcTL_emits in H1 as (_ & _ & _ & _ & _ & _ & (Ha1 & _ & Hd1) & _ & _).
  destruct (writefdATs_loop_Buffer (idats e1) e1 He1) as (e2 & H2 & He2);
    [rewrite Hd1; exact Hids|].
  unfold writefdATs. rewrite H2. cbn -[otherFrames].
  apply writefdATs_loop_emits in H2 as ((Ha2 & _ & _) & _ & _).
  apply IH; [exact He2|]. rewrite Ha2, Ha1. exact Htodo.
Qed.

Lemma assemble_Buffer (a : APNG) (w : Buffer) (m : gmap nat frameData) (has : bool)
    (gp gt : option (list byte)) :
  (forall g, gp = Some g -> wfFramed g) -> (forall g, gt = Some g -> wfFramed g) ->
  Forall (ready a m) (seq 0 (length (Images a))) -> Images a <> [] ->
  exists w', assemble a w m has gp gt = Some (w', None).
Proof.
  intros Hgp Hgt Hready Hne.
  destruct (Images a) as [|o imgs] eqn:Himgs; [congruence|].
  cbn [length seq] in Hready. apply Forall_cons in Hready as [H0 Hrest].
  destruct H0 as ((img & delay & dispose & Himg & Hdelay & Hdisp) & fd & Hfd & Hh & Hids).
  unfold assemble. rewrite Hfd, Himgs.
  replace (length (o :: imgs) - 1)%nat with (length imgs) by (simpl; lia).
  set (e0 := mkEncoder a w 0 (fd_ihdr fd) (fd_idats fd) None).
  destruct (writeChunk_Buffer e0 (ihdr e0) "IHDR") as (e1 & H1 & He1);
    [reflexivity | exact Hh | simpl; lia|].
  unfold writeIHDR. rewrite H1. cbn -[writeGlobalPalette writeacTL writefcTL writeIDATs otherFrames writeIEND].
  destruct (writeChunk_frame _ _ _ _ H1) as [(Ha1 & _ & Hd1) _].
  destruct (writeGlobalPalette_Buffer e1 has gp gt He1 Hgp Hgt) as (e2 & H2 & He2).
  rewrite H2. cbn -[writeacTL writefcTL writeIDATs otherFrames writeIEND].
  apply writeGlobalPalette_emits in H2 as ((Ha2 & _ & Hd2) & _ & _); [|assumption..].
  destruct (writeChunk_Buffer e2 (acTLData (aPNG e2)) "acTL") as (e3 & H3 & He3);
    [exact He2 | simpl; lia | simpl; lia|].
  unfold writeacTL. rewrite H3. cbn -[writefcTL writeIDATs otherFrames writeIEND].
  destruct (writeChunk_frame _ _ _ _ H3) as [(Ha3 & _ & Hd3) _].
  assert (Ha : aPNG e3 = a) by (rewrite Ha3, Ha2, Ha1; reflexivity).
  destruct (writefcTL_Buffer e3 0 img delay dispose) as (e4 & H4 & He4);
    [exact He3 | rewrite Ha; assumption..|].
  rewrite H4. cbn -[writeIDATs otherFrames writeIEND].
  apply writefcTL_emits in H4 as (_ & _ & _ & _ & _ & _ & (Ha4 & _ & Hd4) & _ & _).
  destruct (writeIDATs_loop_Buffer (idats e4) e4 He4) as (e5 & H5 & He5).
  { rewrite Hd4, Hd3, Hd2, Hd1. exact Hids. }
  unfold writeIDATs. rewrite H5. cbn -[otherFrames writeIEND].
  apply writeIDATs_loop_emits in H5 as ((Ha5 & _ & _) & _ & _).
  destruct (otherFrames_Buffer m (seq 1 (length imgs)) e5 He5) as (e6 & H6 & He6).
  { rewrite Ha5, Ha4, Ha. exact Hrest. }
  rewrite H6. cbn -[writeIEND].
  destruct (writeChunk_Buffer e6 [] "IEND") as (e7 & H7 & He7);
    [exact He6 | simpl; lia | simpl; lia|].
  unfold writeIEND. rewrite H7. cbn. rewrite He7. eexists. reflexivity.
Qed.

End BufferSuccess.

Lemma validate_None (a : APNG) :
  validate a = None -> countsOK a /\ withinCanvas (Images a).
Proof.
  unfold validate, countsOK.
  destruct (decide (length (Images a) = 0%nat)) as [|Hn]; [discriminate|].
  destruct (decide (length (Images a) <> length (Delays a))) as [|Hd]; [discriminate|].
  destruct (Disposals a) as [ds|].
  - destruct (bool_decide_reflect (length (Images a) <> length ds)) as [|Hp]; [discriminate|].
    destruct (fullfillFrameRegionConstraints (Images a)) eqn:Hf; [|discriminate].
    intros _. split; [|apply fullfill_spec, Hf].
    split; [exact Hn|]. split; [lia|]. intros ds' [= <-]. lia.
  - destruct (fullfillFrameRegionConstraints (Images a)) eqn:Hf; [|discriminate].
    intros _. split; [|apply fullfill_spec, Hf].
    split; [exact Hn|]. split; [lia|]. discriminate.
Qed.

(** After validation every index below the number of frames has an image,
    a delay and a disposal code: [writefcTL] does not panic. *)
Lemma validate_lookups (a : APNG) (i : nat) :
  validate a = None -> (i < length (Images a))%nat ->
  exists img delay dispose,
    Images a !! i = Some (Some img) /\ Delays a !! i = Some delay
    /\ disposeOp a i = Some dispose.
Proof.
  intros Hv Hi. apply validate_None in Hv as [(Hn & Hd & Hp) Hin].
  assert (Himg : exists img, Images a !! i = Some (Some img)).
  { destruct Hin as (img0 & rest & Himgs & _ & _ & Hall). rewrite Himgs in *.
    destruct i as [|i]; [exists img0; reflexivity|].
    cbn [length] in Hi. destruct (lookup_lt_is_Some_2 rest i) as [o Ho]; [lia|].
    destruct (proj1 (Forall_lookup _ _) Hall i o Ho) as (img & -> & _).
    exists img. exact Ho. }
  destruct Himg as [img Himg].
  destruct (lookup_lt_is_Some_2 (Delays a) i) as [delay Hdelay]; [lia|].
  assert (Hdisp : exists dispose, disposeOp a i = Some dispose).
  { unfold disposeOp. destruct (Disposals a) as [ds|]; [|exists 0; reflexivity].
    apply lookup_lt_is_Some_2. rewrite <- (Hp ds eq_refl). exact Hi. }
  destruct Hdisp as [dispose Hdisp]. exists img, delay, dispose. repeat split; assumption.
Qed.

(** Totality on valid inputs: with well-formed streams from the external
    encoder and a buffer as destination, [EncodeAll] returns nil in every
    order of completion in which every goroutine finishes. *)
Theorem EncodeAll_succeeds (pngEncode : image.Image -> string + list byte)
    (sched : list nat) (w : Buffer) (a : APNG) :
  validate a = None ->
  (forall img, Some img ∈ Images a -> wellEncoded pngEncode img) ->
  (forall i, (i < length (Images a))%nat -> i ∈ sched) ->
  exists w', EncodeAll pngEncode sched w a = Some (w', None).
Proof.
  intros Hv Henc Hsched.
  assert (Hwork : forall i o, Images a !! i = Some o ->
            exists fd, frameWork pngEncode i o = Some (Ok fd) /\ fd_index fd = i /\ okData fd).
  { intros i o Ho.
    destruct (validate_lookups a i Hv (lookup_lt_Some _ _ _ Ho)) as (img & _ & _ & Himg & _).
    assert (o = Some img) as -> by congruence.
    apply frameWork_wellEncoded, Henc. apply list_elem_of_lookup. exists i. exact Ho. }
  pose proof (validate_None a Hv) as [(Hn & _) _].
  destruct (validate_lookups a 0 Hv) as (img0 & _ & _ & Himg0 & _); [lia|].
  destruct (firstPalette_wellEncoded pngEncode a img0 Himg0) as (has & gp & gt & Hpal).
  { apply Henc. apply list_elem_of_lookup. exists 0%nat. exact Himg0. }
  destruct (mapM_is_Some_2 (fun '(i, img) => frameWork pngEncode i img) (imap pair (Images a)))
    as [results Hres].
  { apply Forall_lookup. intros i [j o] Hi. rewrite list_lookup_imap in Hi.
    destruct (Images a !! i) as [o'|] eqn:Ho; [|discriminate Hi].
    injection Hi as <- <-. destruct (Hwork i o' Ho) as (fd & Hfd & _).
    cbn. rewrite Hfd. eexists; reflexivity. }
  assert (Hlen : length results = length (Images a)).
  { apply length_mapM in Hres. rewrite length_imap in Hres. lia. }
  assert (Hok : forall i r, results !! i = Some r -> exists fd, r = Ok fd /\ fd_index fd = i).
  { intros i r Hi. destruct (results_lookup _ _ _ _ _ Hres Hi) as (o & Ho & Hw).
    destruct (Hwork i o Ho) as (fd & Hfd & Hidx & _).
    exists fd. split; [congruence | exact Hidx]. }
  destruct (foldl_complete_ok results sched Hok (∅, None) eq_refl) as [Herr Hmap].
  unfold EncodeAll. rewrite Hv. cbn [Write Buffer_Writer]. rewrite Hpal. cbn -[assemble gather].
  rewrite Hres. cbn -[assemble gather]. fold (gather results sched None) in Herr, Hmap.
  destruct (gather results sched None) as [m err1] eqn:Hg. cbn [fst snd] in Herr, Hmap.
  rewrite Herr.
  destruct (firstPalette_wf _ _ _ _ _ Hpal) as [Hgp Hgt].
  apply assemble_Buffer; [exact Hgp | exact Hgt | | intros Hnil; rewrite Hnil in Hn; apply Hn; reflexivity].
  apply Forall_forall. intros i Hi. apply elem_of_seq in Hi as [_ Hi]. cbn in Hi.
  split; [apply validate_lookups; assumption|].
  destruct (Hmap i) as [fd Hfd]; [left; apply Hsched, Hi | rewrite Hlen; exact Hi|].
  exists fd. split; [exact Hfd|].
  assert (Hfd' : (gather results sched None).1 !! i = Some fd) by (rewrite Hg; exact Hfd).
  destruct (gather_lookup _ _ _ _ _ _ _ Hres Hfd') as (o & Ho & Hw).
  destruct (Hwork i o Ho) as (fd' & Hw' & _ & Hdata).
  assert (fd' = fd) as -> by congruence. exact Hdata.
Qed.

(** The stand-in encoder returns well-formed streams for images with a
    palette of at most 256 colors and pixels that fit a chunk. *)
Lemma Demo_encode_wellEncoded (img : image.Image) (s : list byte) :
  Demo.encode img = inr s ->
  Z.of_nat (length (image.Pix img)) + 8 < 2 ^ 32 ->
  (forall colors, image.ColorModel img = image.Palette colors -> (length colors <= 256)%nat) ->
  wellEncoded Demo.encode img.
Proof.
  unfold Demo.encode. case_bool_decide; [discriminate|]. intros Hs Hpix Hpal.
  exists pngHeader,
    (Container.sealed "IHDR"
       (writeUint32 (Demo.width img) ++ writeUint32 (Demo.height img)
        ++ [8; Demo.colorType img; 0; 0; 0])
     :: Demo.paletteOf img ++ [Container.sealed "IDAT" (map uint8 (image.Pix img))]),
    (writeUint32 0), (writeUint32 (crc32.ChecksumIEEE (bytesOf "IEND"))).
  split.
  { rewrite bool_decide_false by assumption. f_equal. f_equal.
    unfold Container.serialize. rewrite !map_cons, !map_app, !concat_cons, !concat_app.
    cbn [map concat]. rewrite !app_nil_r, <- !app_assoc. reflexivity. }
  split; [reflexivity|]. split; [reflexivity|].
  assert (Hpalette : Forall (fun c => readable c
                                      /\ Z.of_nat (length (Container.c_data c)) + 4 < 2 ^ 32)
                       (Demo.paletteOf img)).
  { unfold Demo.paletteOf. destruct (image.ColorModel img) as [| | | |colors] eqn:Hm;
      try constructor.
    destruct (image.isPaletted img); [|constructor].
    specialize (Hpal colors eq_refl).
    assert (H3 : length (flat_map (fun '(r, g, b, _) => [uint8 r; uint8 g; uint8 b]) colors)
                 = (3 * length colors)%nat).
    { clear. induction colors as [|[[[r g] b] al] colors IH]; [reflexivity|].
      cbn [flat_map length app]. rewrite IH. lia. }
    constructor.
    - split; [|cbn [Container.sealed Container.c_data]; rewrite H3; lia].
      split; [apply sealed_wf; [simpl; lia | rewrite H3; lia]|].
      split; [discriminate|]. split; [discriminate|].
      intros _. cbn [Container.sealed Container.c_data]. rewrite H3. lia.
    - destruct (forallb _ colors); constructor; [|constructor].
      split; [|cbn [Container.sealed Container.c_data]; rewrite length_map; lia].
      split; [apply sealed_wf; [simpl; lia | rewrite length_map; lia]|].
      split; [discriminate|]. split; [discriminate|].
      intros _. cbn [Container.sealed Container.c_data]. rewrite length_map. lia. }
  assert (Hall : Forall (fun c => readable c
                                  /\ Z.of_nat (length (Container.c_data c)) + 4 < 2 ^ 32)
                   (Container.sealed "IHDR"
                      (writeUint32 (Demo.width img) ++ writeUint32 (Demo.height img)
                       ++ [8; Demo.colorType img; 0; 0; 0])
                    :: Demo.paletteOf img
                    ++ [Container.sealed "IDAT" (map uint8 (image.Pix img))])).
  { constructor.
    - split; [|simpl; lia].
      split; [apply sealed_wf; simpl; lia|].
      split; [discriminate|]. split; [intros _; simpl; unfold tmpSize; lia|].
      intros [Hp | Hp]; discriminate Hp.
    - apply Forall_app. split; [exact Hpalette|]. constructor; [|constructor].
      split; [|cbn [Container.sealed Container.c_data]; rewrite length_map; lia].
      split; [apply sealed_wf; [simpl; lia | rewrite length_map; lia]|].
      split; [discriminate|]. split; [discriminate|].
      intros [Hp | Hp]; discriminate Hp. }
  split; eapply Forall_impl; try exact Hall; intros c [Hr Hs']; assumption.
Qed.

(** The three frames of the example are encoded in every order in which
    all three goroutines finish. *)
Example three_frames_succeed (sched : list nat) :
  (forall i, (i < 3)%nat -> i ∈ sched) ->
  exists w', EncodeAll Demo.encode sched (mkBuffer []) Inputs.three = Some (w', None).
Proof.
  intros Hsched. apply EncodeAll_succeeds; [reflexivity | | exact Hsched].
  intros img Himg.
  assert (Hs : exists s, Demo.encode img = inr s
                         /\ Z.of_nat (length (image.Pix img)) + 8 < 2 ^ 32
                         /\ forall colors, image.ColorModel img = image.Palette colors ->
                              (length colors <= 256)%nat).
  { cbn in Himg. repeat (apply elem_of_cons in Himg as [[= ->] | Himg]);
      [| | |apply elem_of_nil in Himg; contradiction];
      (eexists; split; [vm_compute; reflexivity|]; split; [simpl; lia | discriminate]). }
  destruct Hs as (s & Hs & Hpix & Hpal). exact (Demo_encode_wellEncoded img s Hs Hpix Hpal).
Qed.

(** ** Frames of different color models *)

(** The earlier [EncodeAll] on an input that passes the checks of the
    later one: when the first two frames differ in their color model, and
    that of the first is no palette, it returns the error of
    [isSameColorModel]. *)
Lemma Legacy_validate_mixed (a : APNG) (img0 img1 : image.Image)
    (rest : list (option image.Image)) :
  Images a = Some img0 :: Some img1 :: rest ->
  validate a = None ->
  image.ColorModel img1 <> image.ColorModel img0 ->
  (forall colors, image.ColorModel img0 <> image.Palette colors) ->
  Legacy.validate a
  = Some (Some (errorString "apng: must be all the same color model of images")).
Proof.
  intros Himgs Hv Hne Hnp. apply validate_None in Hv as [(Hn & Hd & Hp) _].
  unfold Legacy.validate.
  rewrite decide_False by exact Hn. rewrite decide_False by (intros Hc; apply Hc, Hd).
  assert (Hdisp : match Disposals a with
                  | Some ds => bool_decide (length (Images a) <> length ds)
                  | None => false
                  end = false).
  { destruct (Disposals a) as [ds|]; [|reflexivity].
    apply bool_decide_false. intros Hc. apply Hc, Hp. reflexivity. }
  rewrite Hdisp, Himgs. cbn [Legacy.isSameColorModel Legacy.sameAs].
  assert (Hm : Legacy.modelNe (image.ColorModel img1) (image.ColorModel img0) = Some true).
  { unfold Legacy.modelNe.
    destruct (image.ColorModel img1) eqn:H1;
      try (rewrite bool_decide_true by exact Hne; reflexivity).
    destruct (image.ColorModel img0) eqn:H0;
      try (rewrite bool_decide_true by exact Hne; reflexivity).
    exfalso. exact (Hnp _ eq_refl). }
  rewrite Hm. reflexivity.
Qed.

(** The stand-in encoder gives a well-formed stream for each of the two
    frames of the example. *)
Lemma Inputs_mixed_wellEncoded (img : image.Image) :
  Some img ∈ Images Inputs.mixed -> wellEncoded Demo.encode img.
Proof.
  intros Himg.
  assert (Hs : exists s, Demo.encode img = inr s
                         /\ Z.of_nat (length (image.Pix img)) + 8 < 2 ^ 32
                         /\ forall colors, image.ColorModel img = image.Palette colors ->
                              (length colors <= 256)%nat).
  { cbn in Himg. repeat (apply elem_of_cons in Himg as [[= ->] | Himg]);
      [| |apply elem_of_nil in Himg; contradiction];
      (eexists; split; [vm_compute; reflexivity|]; split; [simpl; lia | discriminate]). }
  destruct Hs as (s & Hs & Hpix & Hpal). exact (Demo_encode_wellEncoded img s Hs Hpix Hpal).
Qed.

(** C5 at the failing input: an RGBA frame and a Gray frame of one pixel
    each.  The earlier [EncodeAll] rejects them with the error of
    [isSameColorModel]; the checks of the later one pass, and in every order
    of completion in which both goroutines finish it returns nil.  The
    stream the external encoder makes for frame 1 has a header of color
    type 0; the container written has the header of frame 0 alone, of color
    type 6, and carries the data of frame 1 behind it. *)
Theorem mixed_color_models_not_rejected :
  Legacy.validate Inputs.mixed
  = Some (Some (errorString "apng: must be all the same color model of images"))
  /\ validate Inputs.mixed = None
  /\ (exists stream1 p1,
        Demo.encode (image.mkImage (image.Rect 0 0 1 1) image.GrayModel false [7])
        = inr stream1
        /\ fetchPNGChunk stream1 = Some (Ok p1)
        /\ pc_ihdr p1 = writeUint32 1 ++ writeUint32 1 ++ [8; 0; 0; 0; 0]
        /\ pc_idats p1 = [[7]])
  /\ forall sched : list nat,
       0%nat ∈ sched -> 1%nat ∈ sched ->
       exists w',
         EncodeAll Demo.encode sched (mkBuffer []) Inputs.mixed = Some (w', None)
         /\ bufBytes w'
            = pngHeader
              ++ Container.serialize
                   [Container.sealed "IHDR"
                      (writeUint32 1 ++ writeUint32 1 ++ [8; 6; 0; 0; 0]);
                    Container.sealed "acTL" (writeUint32 2 ++ writeUint32 0);
                    Container.sealed "fcTL" (fcTLData 0 (image.Rect 0 0 1 1) 10 0);
                    Container.sealed "IDAT" [1; 2; 3; 4];
                    Container.sealed "fcTL" (fcTLData 1 (image.Rect 0 0 1 1) 10 0);
                    Container.sealed "fdAT" (writeUint32 2 ++ [7]);
                    Container.sealed "IEND" []].
Proof.
  split.
  { apply (Legacy_validate_mixed Inputs.mixed
             (image.mkImage (image.Rect 0 0 1 1) image.RGBAModel false [1; 2; 3; 4])
             (image.mkImage (image.Rect 0 0 1 1) image.GrayModel false [7]) []);
      [reflexivity | reflexivity | discriminate | discriminate]. }
  split; [reflexivity|].
  split.
  { eexists _, _. split; [reflexivity|]. split; [vm_compute; reflexivity|].
    split; reflexivity. }
  intros sched H0 H1.
  destruct (EncodeAll_succeeds Demo.encode sched (mkBuffer []) Inputs.mixed eq_refl
              Inputs_mixed_wellEncoded) as [w' Hrun].
  { cbn. intros i Hi. destruct i as [|[|i]]; [exact H0 | exact H1 | lia]. }
  exists w'. split; [exact Hrun|].
  assert (Href : exists w2,
            EncodeAll Demo.encode [0; 1]%nat (mkBuffer []) Inputs.mixed = Some (w2, None)
            /\ bufBytes w2
               = pngHeader
                 ++ Container.serialize
                      [Container.sealed "IHDR"
                         (writeUint32 1 ++ writeUint32 1 ++ [8; 6; 0; 0; 0]);
                       Container.sealed "acTL" (writeUint32 2 ++ writeUint32 0);
                       Container.sealed "fcTL" (fcTLData 0 (image.Rect 0 0 1 1) 10 0);
                       Container.sealed "IDAT" [1; 2; 3; 4];
                       Container.sealed "fcTL" (fcTLData 1 (image.Rect 0 0 1 1) 10 0);
                       Container.sealed "fdAT" (writeUint32 2 ++ [7]);
                       Container.sealed "IEND" []]).
  { eexists. split; vm_compute; reflexivity. }
  destruct Href as (w2 & Hrun2 & Hbytes).
  rewrite <- Hbytes.
  exact (EncodeAll_schedule_independent Demo.encode sched [0; 1]%nat (mkBuffer [])
           Inputs.mixed w' w2 Hrun Hrun2).
Qed.

(** ** Errors of the validation *)

(** Every error of the checks that open [EncodeAll] is a validation
    error. *)
Lemma validate_ValidationError (a : APNG) (e : error) :
  validate a = Some e -> ValidationError e.
Proof.
  unfold validate, ValidationError, CountError, RegionError.
  repeat case_match; intros [= <-]; auto.
Qed.

(** The loop over the later frames keeps a stored error and writes
    nothing. *)
Lemma otherFrames_sticky {W : Type} `{Writer W} (m : gmap nat frameData) (todo : list nat) :
  forall (e : encoder W) (x : error) (e' : encoder W),
    err e = Some x -> otherFrames m e todo = Some (e', None) ->
    writer e' = writer e /\ err e' = Some x.
Proof.
  induction todo as [|i todo IH]; intros e x e' He; cbn [otherFrames].
  - intros [= <-]. split; [reflexivity | exact He].
  - destruct (m !! i) as [fd|]; [|discriminate].
    destruct (writefcTL _ i) as [e1|] eqn:H1; cbn -[writefdATs otherFrames]; [|discriminate].
    apply (writefcTL_sticky _ _ x) in H1 as [Hw1 He1]; [|exact He].
    destruct (writefdATs e1) as [e2|] eqn:H2; cbn -[otherFrames]; [|discriminate].
    apply (writefdATs_loop_sticky _ _ x) in H2 as [Hw2 He2]; [|exact He1].
    intros Hl. apply (IH _ x) in Hl as [Hw3 He3]; [|exact He2].
    simpl in Hw1. split; [congruence | exact He3].
Qed.

(** ** Sample inputs *)

(** Chunks given in full are readable when their sizes say so. *)
Ltac readable_chunks :=
  repeat (constructor;
          [split; [split; [reflexivity | split; [reflexivity | cbn; lia]]
                  | split; [discriminate
                           | split; [intros _; cbn; unfold tmpSize; lia
                                    | intros _; cbn; lia]]]|]);
  try constructor.

Lemma Samples_chunks_readable : Forall readable Samples.chunks.
Proof. unfold Samples.chunks. readable_chunks. Qed.

Lemma Samples_bareChunks_readable : Forall readable Samples.bareChunks.
Proof.
  change Samples.bareChunks
    with (map (fun c => Container.mkChunk (Container.c_type c) (Container.c_data c) [0; 0; 0; 0])
            [Container.sealed "IHDR" (writeUint32 2 ++ writeUint32 1 ++ [8; 3; 0; 0; 0]);
             Container.sealed "PLTE" [0; 0; 0; 255; 0; 0];
             Container.sealed "PLTE" [0; 0; 0; 0; 255; 0];
             Container.sealed "tRNS" [255; 128];
             Container.sealed "IDAT" [0; 1];
             Container.sealed "IDAT" [1; 0]]).
  cbn [map]. readable_chunks.
Qed.

(** The three frames of the example, for the stand-in encoder and an order of
    completion in which every goroutine finishes. *)
Lemma Inputs_three_wellEncoded (img : image.Image) :
  Some img ∈ Images Inputs.three -> wellEncoded Demo.encode img.
Proof.
  intros Himg.
  assert (Hs : exists s, Demo.encode img = inr s
                         /\ Z.of_nat (length (image.Pix img)) + 8 < 2 ^ 32
                         /\ forall colors, image.ColorModel img = image.Palette colors ->
                              (length colors <= 256)%nat).
  { cbn in Himg. repeat (apply elem_of_cons in Himg as [[= ->] | Himg]);
      [| | |apply elem_of_nil in Himg; contradiction];
      (eexists; split; [vm_compute; reflexivity|]; split; [simpl; lia | discriminate]). }
  destruct Hs as (s & Hs & Hpix & Hpal). exact (Demo_encode_wellEncoded img s Hs Hpix Hpal).
Qed.

Lemma all_three_finish (i : nat) : (i < length (Images Inputs.three))%nat -> i ∈ [2; 0; 1]%nat.
Proof.
  cbn. intros Hi. destruct i as [|[|[|i]]]; [| | |lia]; repeat constructor.
Qed.

(** ** The errors of the chunk readers *)

Lemma ReadFull_error (s : list byte) (n : nat) (data s' : list byte) (e : error) :
  ReadFull s n = (data, Some e, s') -> e = EOF \/ e = ErrUnexpectedEOF.
Proof.
  unfold ReadFull. repeat case_decide; intros [= <- <- <-]; auto.
Qed.

Lemma parsePNGChunk_error (c c' : chunkFetcher) (e : error) :
  parsePNGChunk c = Some (c', Some e) -> e = EOF \/ e = ErrUnexpectedEOF.
Proof.
  unfold parsePNGChunk.
  destruct (ReadFull (bb c) 8) as [[tmp r] bb'] eqn:Hr.
  destruct r as [x|]; [intros [= <- <-]; exact (ReadFull_error _ _ _ _ _ Hr)|].
  unfold skipCRC, parseIHDR, parsePLTE, parsetRNS, parseIDAT, Next.
  repeat case_decide; cbn [bb setBB setStage];
    repeat match goal with
    | |- context [ReadFull ?s ?n] =>
        let H := fresh "Hrf" in destruct (ReadFull s n) as [[? [?|]] ?] eqn:H
    | |- context [framed ?n ?l ?d] => destruct (framed n l d)
    | |- context [pc ?c] => destruct (pc c)
    end; simpl; intros [= <- <-] || discriminate || idtac; eauto using ReadFull_error.
Qed.

Lemma parsePNGChunkWithPalette_error (c c' : chunkFetcher) (e : error) :
  parsePNGChunkWithPalette c = Some (c', Some e) -> e = EOF \/ e = ErrUnexpectedEOF.
Proof.
  unfold parsePNGChunkWithPalette.
  destruct (ReadFull (bb c) 8) as [[tmp r] bb'] eqn:Hr.
  destruct r as [x|]; [intros [= <- <-]; exact (ReadFull_error _ _ _ _ _ Hr)|].
  unfold skipCRC, parsePLTE, parsetRNS, Next.
  repeat case_decide; cbn [bb setBB setStage];
    repeat match goal with
    | |- context [ReadFull ?s ?n] =>
        let H := fresh "Hrf" in destruct (ReadFull s n) as [[? [?|]] ?] eqn:H
    | |- context [framed ?n ?l ?d] => destruct (framed n l d)
    | |- context [pc ?c] => destruct (pc c)
    end; simpl; intros [= <- <-] || discriminate || idtac; eauto using ReadFull_error.
Qed.

Section FetchErrors.
Variable step : chunkFetcher -> option (chunkFetcher * option error).
Hypothesis step_error :
  forall c c' e, step c = Some (c', Some e) -> e = EOF \/ e = ErrUnexpectedEOF.

Lemma fetchLoop_error (fuel : nat) : forall c e,
  fetchLoop step fuel c = Finished (Some (Fail e)) -> e = ErrUnexpectedEOF.
Proof.
  induction fuel as [|fuel IH]; intros c e; simpl; [discriminate|].
  case_decide; [discriminate|].
  destruct (step c) as [[c' [x|]]|] eqn:Hs; [| apply IH | discriminate].
  intros [= <-]. destruct (step_error _ _ _ Hs) as [-> | ->]; reflexivity.
Qed.

Lemma runFetch_error (c : chunkFetcher) (e : error) :
  runFetch step c = Some (Fail e) -> e = ErrUnexpectedEOF.
Proof.
  unfold runFetch. destruct (fetchLoop step _ c) as [r|] eqn:Hl; [|discriminate].
  intros ->. exact (fetchLoop_error _ _ _ Hl).
Qed.

End FetchErrors.

Lemma fetchPNGChunk_error (stream : list byte) (e : error) :
  fetchPNGChunk stream = Some (Fail e) -> e = ErrUnexpectedEOF.
Proof.
  unfold fetchPNGChunk.
  destruct (runFetch parsePNGChunk _) as [[c|x]|] eqn:Hr; simpl; try discriminate.
  - destruct (pc c); discriminate.
  - intros [= <-]. exact (runFetch_error _ parsePNGChunk_error _ _ Hr).
Qed.

Lemma fetchPaletteChunk_error (stream : list byte) (e : error) :
  fetchPaletteChunk stream = Some (Fail e) -> e = ErrUnexpectedEOF.
Proof.
  unfold fetchPaletteChunk.
  destruct (runFetch parsePNGChunkWithPalette _) as [[c|x]|] eqn:Hr; simpl; try discriminate.
  intros [= <-]. exact (runFetch_error _ parsePNGChunkWithPalette_error _ _ Hr).
Qed.

(** X3.  The only error [fetchPNGChunk] and [fetchPaletteChunk] return is
    [io.ErrUnexpectedEOF]: [io.EOF] is turned into it and no other error
    arises.  A stream shorter than a signature and a chunk header (the empty
    stream included) is answered with it. *)
Theorem fetch_error_is_unexpected_EOF (stream : list byte) :
  (forall e, fetchPNGChunk stream = Some (Fail e) -> e = ErrUnexpectedEOF)
  /\ (forall e, fetchPaletteChunk stream = Some (Fail e) -> e = ErrUnexpectedEOF)
  /\ ((length stream < 16)%nat ->
      fetchPNGChunk stream = Some (Fail ErrUnexpectedEOF)
      /\ fetchPaletteChunk stream = Some (Fail ErrUnexpectedEOF)).
Proof.
  split; [intros e; apply fetchPNGChunk_error|].
  split; [intros e; apply fetchPaletteChunk_error|].
  intros Hlen.
  assert (Hshort : forall s : list byte, (length s < 8)%nat ->
            exists d e s', ReadFull s 8 = (d, Some e, s')).
  { intros s Hs. unfold ReadFull. rewrite decide_False by lia.
    destruct (decide (length s = 0%nat)); [eauto|]. rewrite decide_True by lia. eauto. }
  destruct (Hshort (drop 8 stream)) as (d & e & s' & Hr); [rewrite length_drop; lia|].
  assert (He : match e with EOF => ErrUnexpectedEOF | _ => e end = ErrUnexpectedEOF).
  { destruct (ReadFull_error _ _ _ _ _ Hr) as [-> | ->]; reflexivity. }
  split.
  - unfold fetchPNGChunk, runFetch, Next. change (length pngHeader) with 8%nat.
    cbn [snd bb fetchLoop stage]. rewrite decide_False by discriminate.
    unfold parsePNGChunk. cbn [bb]. rewrite Hr. cbn. rewrite He. reflexivity.
  - unfold fetchPaletteChunk, runFetch, Next. change (length pngHeader) with 8%nat.
    cbn [snd bb fetchLoop stage]. rewrite decide_False by discriminate.
    unfold parsePNGChunkWithPalette. cbn [bb]. rewrite Hr. cbn. rewrite He. reflexivity.
Qed.

Lemma fetch_error_is_unexpected_EOF_witness :
  fetchPNGChunk pngHeader = Some (Fail ErrUnexpectedEOF)
  /\ fetchPaletteChunk pngHeader = Some (Fail ErrUnexpectedEOF).
Proof.
  destruct (fetch_error_is_unexpected_EOF pngHeader) as (_ & _ & Hshort).
  apply Hshort. simpl. lia.
Defined.

(** ** The scanning loops end *)

(** A chunk read without an error has consumed at least its header. *)
Lemma parsePNGChunk_consumes c c' :
  parsePNGChunk c = Some (c', None) -> (length (bb c') + 8 <= length (bb c))%nat.
Proof.
  unfold parsePNGChunk.
  destruct (ReadFull (bb c) 8) as [[tmp r] s'] eqn:Hr.
  destruct r; [discriminate|]. apply ReadFull_nil in Hr as [Hs Hlen].
  intros Hstep. eapply (skipCRC_shrinks (setBB c s')) in Hstep.
  - simpl in Hstep. rewrite Hs, length_app. lia.
  - repeat case_decide.
    + apply (setStage_shrinks _ dsSeenIHDR), parseIHDR_shrinks.
    + apply (setStage_shrinks _ dsSeenPLTE), parsePLTE_shrinks.
    + apply (setStage_shrinks _ dsSeentRNS), parsetRNS_shrinks.
    + apply (setStage_shrinks _ dsSeenIDAT), parseIDAT_shrinks.
    + intros ? ? [= <- <-]. reflexivity.
    + intros ? ? [= <- <-]. simpl. rewrite length_drop. lia.
Qed.

Lemma parsePNGChunkWithPalette_consumes c c' :
  parsePNGChunkWithPalette c = Some (c', None) -> (length (bb c') + 8 <= length (bb c))%nat.
Proof.
  unfold parsePNGChunkWithPalette.
  destruct (ReadFull (bb c) 8) as [[tmp r] s'] eqn:Hr.
  destruct r; [discriminate|]. apply ReadFull_nil in Hr as [Hs Hlen].
  intros Hstep. eapply (skipCRC_shrinks (setBB c s')) in Hstep.
  - simpl in Hstep. rewrite Hs, length_app. lia.
  - repeat case_decide; try discriminate.
    + destruct (ReadFull _ _) as [[data r] s''] eqn:Hr. apply ReadFull_length in Hr.
      intros ? ? [= <- <-]. exact Hr.
    + apply (setStage_shrinks _ dsSeenPLTE), parsePLTE_shrinks.
    + apply (setStage_shrinks _ dsSeentRNS), parsetRNS_shrinks.
    + intros ? ? [= <- <-]. simpl. rewrite length_drop. lia.
    + intros ? ? [= <- <-]. reflexivity.
    + intros ? ? [= <- <-]. simpl. rewrite length_drop. lia.
Qed.

Section FetchBound.
Variable step : chunkFetcher -> option (chunkFetcher * option error).
Hypothesis step_consumes :
  forall c c', step c = Some (c', None) -> (length (bb c') + 8 <= length (bb c))%nat.

Lemma fetchLoop_bound (fuel : nat) : forall c,
  (length (bb c) < 8 * fuel)%nat -> fetchLoop step fuel c <> OutOfFuel.
Proof.
  induction fuel as [|fuel IH]; intros c Hlen; [lia|]. simpl.
  case_decide; [discriminate|].
  destruct (step c) as [[c' [e|]]|] eqn:Hstep; try discriminate.
  apply IH. apply step_consumes in Hstep. lia.
Qed.

End FetchBound.

(** X4.  The scanning loops of [fetchPNGChunk] and [fetchPaletteChunk]
    end on every buffer: a step that returns no error has consumed at
    least the eight bytes of a chunk header, so any fuel above an eighth of
    the length of the buffer gives the result of the run. *)
Theorem fetch_loops_terminate (c : chunkFetcher) (fuel : nat) :
  (length (bb c) < 8 * fuel)%nat ->
  fetchLoop parsePNGChunk fuel c = Finished (runFetch parsePNGChunk c)
  /\ fetchLoop parsePNGChunkWithPalette fuel c
     = Finished (runFetch parsePNGChunkWithPalette c).
Proof.
  intros Hfuel. split.
  - destruct (fetchLoop parsePNGChunk fuel c) as [r|] eqn:Hl.
    + rewrite (runFetch_of_fuel _ parsePNGChunk_progress _ _ _ Hl). reflexivity.
    + exfalso. revert Hl. apply (fetchLoop_bound _ parsePNGChunk_consumes), Hfuel.
  - destruct (fetchLoop parsePNGChunkWithPalette fuel c) as [r|] eqn:Hl.
    + rewrite (runFetch_of_fuel _ parsePNGChunkWithPalette_progress _ _ _ Hl). reflexivity.
    + exfalso. revert Hl.
      apply (fetchLoop_bound _ parsePNGChunkWithPalette_consumes), Hfuel.
Qed.

Lemma fetch_loops_terminate_witness :
  fetchLoop parsePNGChunk 17
    (mkFetcher (drop 8 Samples.stream) dsStart (Some new_pngChunk) None None)
  = Finished (runFetch parsePNGChunk
                (mkFetcher (drop 8 Samples.stream) dsStart (Some new_pngChunk) None None))
  /\ fetchLoop parsePNGChunkWithPalette 17
       (mkFetcher (drop 8 Samples.stream) dsStart (Some new_pngChunk) None None)
     = Finished (runFetch parsePNGChunkWithPalette
                   (mkFetcher (drop 8 Samples.stream) dsStart (Some new_pngChunk) None None)).
Proof.
  apply (fetch_loops_terminate
           (mkFetcher (drop 8 Samples.stream) dsStart (Some new_pngChunk) None None) 17).
  vm_compute. lia.
Defined.

(** ** Streams that open with readable chunks *)

(** Readable chunks at the head of the buffer are read one by one. *)
Lemma fetchLoop_prefix (cs : list Container.chunk) : forall c p rest fuel,
  bb c = Container.serialize cs ++ rest -> pc c = Some p -> stage c <> dsSeenIEND ->
  Forall readable cs ->
  exists c',
    fetchLoop parsePNGChunk (length cs + fuel) c = fetchLoop parsePNGChunk fuel c'
    /\ bb c' = rest /\ pc c' = Some (foldl absorb p cs) /\ stage c' <> dsSeenIEND.
Proof.
  induction cs as [|ch cs IH]; intros c p rest fuel Hbb Hpc Hstage Hcs.
  - exists c. repeat split; assumption.
  - apply Forall_cons in Hcs as [Hch Hcs].
    change (Container.serialize (ch :: cs))
      with (Container.chunkBytes ch ++ Container.serialize cs) in Hbb.
    rewrite <- app_assoc in Hbb.
    destruct (parsePNGChunk_chunk c p ch _ Hbb Hpc Hstage Hch)
      as (c1 & Hstep & Hbb1 & Hpc1 & Hst1).
    destruct (IH c1 _ rest fuel Hbb1 Hpc1 Hst1 Hcs) as (c' & Hloop & Hrest).
    exists c'. split; [|exact Hrest].
    cbn [length Nat.add fetchLoop]. rewrite decide_False by exact Hstage.
    rewrite Hstep. exact Hloop.
Qed.

Lemma fetchLoop_palette_prefix (cs : list Container.chunk) : forall c rest fuel,
  bb c = Container.serialize cs ++ rest -> stage c <> dsSeenIEND -> Forall readable cs ->
  exists c',
    fetchLoop parsePNGChunkWithPalette (length cs + fuel) c
    = fetchLoop parsePNGChunkWithPalette fuel c'
    /\ bb c' = rest /\ stage c' <> dsSeenIEND.
Proof.
  induction cs as [|ch cs IH]; intros c rest fuel Hbb Hstage Hcs.
  - exists c. repeat split; assumption.
  - apply Forall_cons in Hcs as [Hch Hcs].
    change (Container.serialize (ch :: cs))
      with (Container.chunkBytes ch ++ Container.serialize cs) in Hbb.
    rewrite <- app_assoc in Hbb.
    destruct (parsePNGChunkWithPalette_chunk c ch _ Hbb Hstage Hch)
      as (c1 & Hstep & Hbb1 & Hst1).
    destruct (IH c1 rest fuel Hbb1 Hst1 Hcs) as (c' & Hloop & Hrest).
    exists c'. split; [|exact Hrest].
    cbn [length Nat.add fetchLoop]. rewrite decide_False by exact Hstage.
    rewrite Hstep. exact Hloop.
Qed.

(** X5.  An IHDR chunk that declares more than [3 * 256] bytes makes both
    readers panic, wherever it stands among readable chunks: the slice
    expression [c.tmp[:length]] is out of range. *)
Theorem oversize_header_panics (sig : list byte) (cs : list Container.chunk)
    (lenb rest : list byte) :
  length sig = 8%nat -> length lenb = 4%nat -> Forall readable cs ->
  tmpSize < BigEndian_Uint32 lenb ->
  fetchPNGChunk (sig ++ Container.serialize cs ++ lenb ++ bytesOf "IHDR" ++ rest) = panic
  /\ fetchPaletteChunk (sig ++ Container.serialize cs ++ lenb ++ bytesOf "IHDR" ++ rest)
     = panic.
Proof.
  intros Hsig Hl Hcs Hbig.
  assert (Hhdr : ReadFull (lenb ++ bytesOf "IHDR" ++ rest) 8
                 = (lenb ++ bytesOf "IHDR", None, rest)).
  { rewrite app_assoc. apply ReadFull_exact. rewrite length_app, Hl. reflexivity. }
  split.
  - unfold fetchPNGChunk, Next. change (length pngHeader) with 8%nat.
    rewrite drop_app_length' by (symmetry; exact Hsig). cbn [snd].
    destruct (fetchLoop_prefix cs
                (mkFetcher (Container.serialize cs ++ lenb ++ bytesOf "IHDR" ++ rest)
                   dsStart (Some new_pngChunk) None None)
                new_pngChunk (lenb ++ bytesOf "IHDR" ++ rest) 1 eq_refl eq_refl)
      as (c' & Hloop & Hbb & _ & Hst);
      [discriminate | exact Hcs|].
    assert (Hp : parsePNGChunk c' = panic).
    { unfold parsePNGChunk. rewrite Hbb, Hhdr.
      rewrite take_app_length' by (symmetry; exact Hl).
      rewrite drop_app_length' by (symmetry; exact Hl).
      rewrite decide_True by reflexivity. unfold parseIHDR.
      rewrite decide_True by exact Hbig. reflexivity. }
    cbn [fetchLoop] in Hloop. rewrite decide_False in Hloop by exact Hst.
    rewrite Hp in Hloop.
    rewrite (runFetch_of_fuel _ parsePNGChunk_progress _ _ _ Hloop). reflexivity.
  - unfold fetchPaletteChunk, Next. change (length pngHeader) with 8%nat.
    rewrite drop_app_length' by (symmetry; exact Hsig). cbn [snd].
    destruct (fetchLoop_palette_prefix cs
                (mkFetcher (Container.serialize cs ++ lenb ++ bytesOf "IHDR" ++ rest)
                   dsStart None None None)
                (lenb ++ bytesOf "IHDR" ++ rest) 1 eq_refl) as (c' & Hloop & Hbb & Hst);
      [discriminate | exact Hcs|].
    assert (Hp : parsePNGChunkWithPalette c' = panic).
    { unfold parsePNGChunkWithPalette. rewrite Hbb, Hhdr.
      rewrite take_app_length' by (symmetry; exact Hl).
      rewrite drop_app_length' by (symmetry; exact Hl).
      rewrite decide_True by reflexivity.
      rewrite decide_True by exact Hbig. reflexivity. }
    cbn [fetchLoop] in Hloop. rewrite decide_False in Hloop by exact Hst.
    rewrite Hp in Hloop.
    rewrite (runFetch_of_fuel _ parsePNGChunkWithPalette_progress _ _ _ Hloop). reflexivity.
Qed.

Lemma oversize_header_panics_witness :
  fetchPNGChunk (pngHeader ++ Container.serialize [] ++ [0; 0; 3; 1] ++ bytesOf "IHDR" ++ [])
  = panic
  /\ fetchPaletteChunk
       (pngHeader ++ Container.serialize [] ++ [0; 0; 3; 1] ++ bytesOf "IHDR" ++ [])
     = panic.
Proof.
  apply (oversize_header_panics pngHeader [] [0; 0; 3; 1] []);
    [reflexivity | reflexivity | constructor | vm_compute; reflexivity].
Defined.

(** ** What the reader keeps of a stream *)

(** [absorb] looks at the tag and the payload of a chunk only, and only at
    chunks of the four kinds it knows. *)
Lemma absorb_content (p : pngChunk) (c c' : Container.chunk) :
  content c = content c' -> absorb p c = absorb p c'.
Proof.
  unfold content, absorb. intros Hc. injection Hc as Ht Hd. rewrite Ht, Hd. reflexivity.
Qed.

Lemma absorb_not_kept (p : pngChunk) (c : Container.chunk) :
  kept c = false -> absorb p c = p.
Proof.
  unfold kept, absorb, Container.hasType. intros Hk.
  apply orb_false_iff in Hk as [Hk H4]. apply orb_false_iff in Hk as [Hk H3].
  apply orb_false_iff in Hk as [H1 H2].
  apply bool_decide_eq_false in H1, H2, H3, H4.
  rewrite !decide_False by assumption. reflexivity.
Qed.

Lemma foldl_absorb_kept (cs : list Container.chunk) : forall p,
  foldl absorb p cs = foldl absorb p (List.filter kept cs).
Proof.
  induction cs as [|c cs IH]; intros p; [reflexivity|]. cbn [foldl List.filter].
  destruct (kept c) eqn:Hk; cbn [foldl]; [apply IH|].
  rewrite (absorb_not_kept _ _ Hk). apply IH.
Qed.

Lemma foldl_absorb_content (cs : list Container.chunk) : forall cs' p,
  map content cs = map content cs' -> foldl absorb p cs = foldl absorb p cs'.
Proof.
  induction cs as [|c cs IH]; intros [|c' cs'] p Hm; try discriminate; [reflexivity|].
  cbn [map] in Hm. apply (f_equal head) in Hm as Hc. apply (f_equal tail) in Hm.
  cbn [head tail] in Hc, Hm. cbn [foldl].
  rewrite (absorb_content p c c') by congruence. apply IH, Hm.
Qed.

(** X6.  [fetchPNGChunk] reads the tags and the payloads of the IHDR,
    PLTE, tRNS and IDAT chunks and nothing else: two well-formed streams
    whose chunks of these four kinds agree in tag and payload give the same
    result, whatever their signatures, their other chunks, their CRC fields
    and the bytes after the IEND tag are. *)
Theorem fetchPNGChunk_reads_kept_content (sig sig' : list byte)
    (cs cs' : list Container.chunk) (lenb lenb' rest rest' : list byte) :
  length sig = 8%nat -> length sig' = 8%nat ->
  length lenb = 4%nat -> length lenb' = 4%nat ->
  Forall readable cs -> Forall readable cs' ->
  map content (List.filter kept cs) = map content (List.filter kept cs') ->
  fetchPNGChunk (sig ++ Container.serialize cs ++ lenb ++ bytesOf "IEND" ++ rest)
  = fetchPNGChunk (sig' ++ Container.serialize cs' ++ lenb' ++ bytesOf "IEND" ++ rest').
Proof.
  intros Hsig Hsig' Hl Hl' Hcs Hcs' Hsame.
  rewrite (fetchPNGChunk_wellformed sig cs lenb rest Hsig Hl Hcs).
  rewrite (fetchPNGChunk_wellformed sig' cs' lenb' rest' Hsig' Hl' Hcs').
  rewrite (foldl_absorb_kept cs), (foldl_absorb_kept cs').
  rewrite (foldl_absorb_content _ _ _ Hsame). reflexivity.
Qed.

Lemma fetchPNGChunk_reads_kept_content_witness :
  fetchPNGChunk Samples.stream
  = fetchPNGChunk (replicate 8 0 ++ Container.serialize Samples.bareChunks
                   ++ [0; 0; 0; 9] ++ bytesOf "IEND" ++ []).
Proof.
  apply (fetchPNGChunk_reads_kept_content pngHeader (replicate 8 0)
           Samples.chunks Samples.bareChunks (writeUint32 0) [0; 0; 0; 9]
           [174; 66; 96; 130] []);
    [reflexivity | reflexivity | reflexivity | reflexivity
    | exact Samples_chunks_readable | exact Samples_bareChunks_readable
    | vm_compute; reflexivity].
Defined.

Lemma absorb_ihdr (cs : list Container.chunk) : forall p,
  pc_ihdr (foldl absorb p cs)
  = default (pc_ihdr p) (last (map Container.c_data (List.filter (Container.hasType "IHDR") cs))).
Proof.
  induction cs as [|c cs IH]; intros p; [reflexivity|].
  cbn [foldl List.filter]. rewrite IH. unfold absorb, Container.hasType.
  destruct (decide (Container.c_type c = bytesOf "IHDR")) as [Hi|Hi].
  - rewrite bool_decide_true by exact Hi. cbn [map pc_ihdr]. rewrite last_cons.
    destruct (last _); reflexivity.
  - rewrite bool_decide_false by exact Hi. repeat case_decide; reflexivity.
Qed.

(** X7.  From a well-formed stream [fetchPNGChunk] returns the payload of
    the last IHDR chunk (empty when there is none) and the payloads of the
    IDAT chunks in the order of the stream. *)
Theorem fetchPNGChunk_header_and_data (sig : list byte) (cs : list Container.chunk)
    (lenb rest : list byte) :
  length sig = 8%nat -> length lenb = 4%nat -> Forall readable cs ->
  exists p,
    fetchPNGChunk (sig ++ Container.serialize cs ++ lenb ++ bytesOf "IEND" ++ rest)
    = Some (Ok p)
    /\ pc_ihdr p
       = default [] (last (map Container.c_data (List.filter (Container.hasType "IHDR") cs)))
    /\ pc_idats p = map Container.c_data (List.filter (Container.hasType "IDAT") cs).
Proof.
  intros Hsig Hl Hcs. eexists. split; [apply fetchPNGChunk_wellformed; assumption|].
  split; [apply (absorb_ihdr cs new_pngChunk) | apply (absorb_idats cs new_pngChunk)].
Qed.

Lemma fetchPNGChunk_header_and_data_witness :
  exists p,
    fetchPNGChunk Samples.stream = Some (Ok p)
    /\ pc_ihdr p
       = default [] (last (map Container.c_data
                             (List.filter (Container.hasType "IHDR") Samples.chunks)))
    /\ pc_idats p
       = map Container.c_data (List.filter (Container.hasType "IDAT") Samples.chunks).
Proof.
  apply (fetchPNGChunk_header_and_data pngHeader Samples.chunks (writeUint32 0)
           [174; 66; 96; 130]);
    [reflexivity | reflexivity | exact Samples_chunks_readable].
Defined.

(** X8.  The slice [parsePLTE] and [parsetRNS] build for a payload of
    less than 2^32 bytes is cut back to that payload by the slice expression
    of [EncodeAll], and it opens with the length and the tag. *)
Theorem framed_payload_round_trip (name : string) (data g : list byte) :
  String.length name = 4%nat -> Z.of_nat (length data) < 2 ^ 32 ->
  framed name (Z.of_nat (length data)) data = Some g ->
  payloadOfFramed g = Some data
  /\ BigEndian_Uint32 (take 4 g) = Z.of_nat (length data)
  /\ take 4 (drop 4 g) = bytesOf name.
Proof.
  intros Hname Hlen Hg.
  destruct (framed_wf name (Z.of_nat (length data)) data g Hname) as [Hwf Hdrop];
    [lia | lia | exact Hg|].
  split; [unfold wfFramed in Hwf; rewrite Hwf, Hdrop; reflexivity|].
  unfold framed in Hg. case_decide; [discriminate|].
  assert (g = writeUint32 (Z.of_nat (length data)) ++ bytesOf name ++ data) as ->
    by congruence.
  split; [rewrite BigEndian_Uint32_app; apply uint32_small; lia|].
  rewrite drop_app_length' by reflexivity.
  apply take_app_length'. rewrite length_bytesOf. symmetry. exact Hname.
Qed.

Lemma framed_payload_round_trip_witness :
  payloadOfFramed (writeUint32 3 ++ bytesOf "PLTE" ++ [7; 8; 9]) = Some [7; 8; 9]
  /\ BigEndian_Uint32 (take 4 (writeUint32 3 ++ bytesOf "PLTE" ++ [7; 8; 9]))
     = Z.of_nat (length [7; 8; 9])
  /\ take 4 (drop 4 (writeUint32 3 ++ bytesOf "PLTE" ++ [7; 8; 9])) = bytesOf "PLTE".
Proof.
  apply (framed_payload_round_trip "PLTE" [7; 8; 9]
           (writeUint32 3 ++ bytesOf "PLTE" ++ [7; 8; 9]));
    [reflexivity | simpl; lia | vm_compute; reflexivity].
Defined.

(** ** The writes of a call *)

Section WriteAllFacts.
Context {W : Type} `{Writer W}.
Implicit Types e : encoder W.

Lemma writeAll_error (w : W) (x : error) (ps : list (list byte)) :
  writeAll w (Some x) ps = (w, Some x).
Proof. destruct ps; reflexivity. Qed.

Lemma writeAll_nil (w : W) (r : option error) : writeAll w r [] = (w, r).
Proof. destruct r; reflexivity. Qed.

Lemma writeAll_app (ps qs : list (list byte)) : forall (w : W) (r : option error),
  writeAll w r (ps ++ qs) = writeAll (writeAll w r ps).1 (writeAll w r ps).2 qs.
Proof.
  induction ps as [|p ps IH]; intros w r.
  - rewrite writeAll_nil. reflexivity.
  - destruct r as [x|]; [rewrite !writeAll_error; cbn; rewrite writeAll_error; reflexivity|].
    cbn [app writeAll]. destruct (Write w p) as [w' r']. apply IH.
Qed.

Lemma writeAll_written (ps : list (list byte)) : forall (w w' : W),
  writeAll w None ps = (w', None) -> written w' = written w ++ concat ps.
Proof.
  induction ps as [|p ps IH]; intros w w'; cbn [writeAll concat].
  - intros [= <-]. rewrite app_nil_r. reflexivity.
  - destruct (Write w p) as [w1 [x|]] eqn:Hw.
    + rewrite writeAll_error. discriminate.
    + intros Hrest. apply Write_nil in Hw. rewrite (IH _ _ Hrest), Hw, app_assoc. reflexivity.
Qed.

Lemma after_nil e : after e [] = e.
Proof. unfold after. rewrite writeAll_nil. destruct e; reflexivity. Qed.

Lemma after_app e ps qs : after e (ps ++ qs) = after (after e ps) qs.
Proof. unfold after. rewrite writeAll_app. reflexivity. Qed.

Lemma writeChunk_after e (b : list byte) (name : string) :
  Z.of_nat (length b) < 2 ^ 32 -> (4 <= String.length name)%nat ->
  writeChunk e b name = Some (after e (pieces (Container.sealed name b))).
Proof.
  intros Hb Hname. unfold writeChunk, after, nameBytes.
  destruct (err e) as [x|] eqn:He.
  { rewrite writeAll_error. cbn. destruct e; cbn in *. rewrite He. reflexivity. }
  rewrite uint32_small by lia. rewrite Z.eqb_refl. cbn [negb].
  rewrite decide_True by exact Hname. cbn [mbind option_bind].
  unfold pieces, Container.sealed. cbn [Container.c_data Container.c_type Container.c_crc].
  cbn [writeAll]. rewrite crc32_of_two_writes.
  rewrite (drop_app_length' (writeUint32 _)) by reflexivity.
  destruct (Write (writer e) _) as [w1 [x1|]]; [reflexivity|].
  destruct (Write w1 b) as [w2 [x2|]]; [reflexivity|].
  destruct (Write w2 _) as [w3 [x3|]]; reflexivity.
Qed.

Lemma replay_refl e : replay e e [].
Proof. apply writeAll_nil. Qed.

Lemma replay_trans e1 e2 e3 ps qs :
  replay e1 e2 ps -> replay e2 e3 qs -> replay e1 e3 (ps ++ qs).
Proof. unfold replay. intros H12 H23. rewrite writeAll_app, H12. exact H23. Qed.

Lemma writeChunk_replay e (b : list byte) (name : string) :
  Z.of_nat (length b) < 2 ^ 32 -> (4 <= String.length name)%nat ->
  exists e',
    writeChunk e b name = Some e'
    /\ sameFrame e e' /\ seqNum e' = seqNum e
    /\ replay e e' (pieces (Container.sealed name b)).
Proof.
  intros Hb Hname. exists (after e (pieces (Container.sealed name b))).
  split; [apply writeChunk_after; assumption|].
  split; [repeat split|]. split; [reflexivity|].
  unfold replay, after. cbn [writer err setWriterErr]. apply surjective_pairing.
Qed.

Lemma writefcTL_replay e (i : nat) (img : image.Image) (delay dispose : Z) :
  Images (aPNG e) !! i = Some (Some img) -> Delays (aPNG e) !! i = Some delay ->
  disposeOp (aPNG e) i = Some dispose ->
  exists e',
    writefcTL e i = Some e'
    /\ sameFrame e e' /\ seqNum e' = uint32 (seqNum e + 1)
    /\ replay e e' (pieces (Container.sealed "fcTL"
                              (fcTLData (seqNum e) (image.Bounds img) delay dispose))).
Proof.
  intros Himg Hdelay Hdisp. unfold writefcTL. rewrite Himg, Hdelay, Hdisp.
  cbn -[writeChunk fcTLData].
  destruct (writeChunk_replay e (fcTLData (seqNum e) (image.Bounds img) delay dispose) "fcTL")
    as (e1 & Hw & Hf & Hs & Hr); [rewrite length_fcTLData; lia | simpl; lia|].
  rewrite Hw. cbn. eexists. split; [reflexivity|].
  split; [exact Hf|]. split; [cbn; rewrite Hs; reflexivity | exact Hr].
Qed.

Lemma writeIDATs_loop_replay (ids : list (list byte)) : forall e,
  Forall small (map (Container.sealed "IDAT") ids) ->
  exists e',
    writeIDATs_loop e ids = Some e'
    /\ sameFrame e e' /\ seqNum e' = seqNum e
    /\ replay e e' (flat_map pieces (map (Container.sealed "IDAT") ids)).
Proof.
  induction ids as [|id ids IH]; intros e Hids.
  - exists e. split; [reflexivity|]. split; [apply sameFrame_refl|].
    split; [reflexivity | apply replay_refl].
  - cbn [map] in Hids. apply Forall_cons in Hids as [Hid Hids]. cbn [writeIDATs_loop].
    destruct (writeChunk_replay e id "IDAT") as (e1 & Hw & Hf & Hs & Hr);
      [exact Hid | simpl; lia|].
    rewrite Hw. cbn -[writeIDATs_loop].
    destruct (IH e1 Hids) as (e2 & Hw2 & Hf2 & Hs2 & Hr2).
    exists e2. split; [exact Hw2|]. split; [eauto using sameFrame_trans|].
    split; [congruence|]. exact (replay_trans _ _ _ _ _ Hr Hr2).
Qed.

Lemma writefdATs_loop_replay (ids : list (list byte)) : forall e,
  Forall small (fdATChunks (seqNum e) ids) ->
  exists e',
    writefdATs_loop e ids = Some e'
    /\ sameFrame e e' /\ seqNum e' = advance (seqNum e) (length ids)
    /\ replay e e' (flat_map pieces (fdATChunks (seqNum e) ids)).
Proof.
  induction ids as [|id ids IH]; intros e Hids.
  - exists e. split; [reflexivity|]. split; [apply sameFrame_refl|].
    split; [reflexivity | apply replay_refl].
  - cbn [fdATChunks] in Hids. apply Forall_cons in Hids as [Hid Hids].
    cbn [writefdATs_loop].
    destruct (writeChunk_replay e (writeUint32 (seqNum e) ++ id) "fdAT")
      as (e1 & Hw & Hf & Hs & Hr); [exact Hid | simpl; lia|].
    rewrite Hw. cbn -[writefdATs_loop].
    destruct (IH (setSeqNum e1 (uint32 (seqNum e1 + 1)))) as (e2 & Hw2 & Hf2 & Hs2 & Hr2).
    { cbn [seqNum setSeqNum]. rewrite Hs. exact Hids. }
    exists e2. split; [exact Hw2|].
    split; [apply (sameFrame_trans _ e1); [exact Hf | exact Hf2]|].
    cbn [seqNum setSeqNum] in Hs2, Hr2. rewrite Hs in Hs2, Hr2.
    split; [exact Hs2|].
    exact (replay_trans _ e1 _ _ _ Hr Hr2).
Qed.

Lemma writeGlobalPalette_replay e (has : bool) (gp gt : option (list byte)) :
  (forall g, gp = Some g -> wfFramed g) -> (forall g, gt = Some g -> wfFramed g) ->
  exists e',
    writeGlobalPalette e has gp gt = Some e'
    /\ sameFrame e e' /\ seqNum e' = seqNum e
    /\ replay e e' (flat_map pieces (paletteChunks has gp gt)).
Proof.
  intros Hgp Hgt. unfold writeGlobalPalette, paletteChunks.
  assert (Hnone : exists e', Some e = Some e' /\ sameFrame e e' /\ seqNum e' = seqNum e
                             /\ replay e e' (flat_map pieces [])).
  { exists e. split; [reflexivity|]. split; [apply sameFrame_refl|].
    split; [reflexivity | apply replay_refl]. }
  destruct has; [|exact Hnone]. destruct gp as [g|]; [|exact Hnone].
  pose proof (Hgp g eq_refl) as Hg. rewrite Hg. cbn -[writeChunk].
  destruct (writeChunk_replay e (drop 8 g) "PLTE") as (e1 & Hw & Hf & Hs & Hr);
    [apply wfFramed_small, Hg | simpl; lia|].
  rewrite Hw. cbn -[writeChunk].
  destruct gt as [t|].
  - pose proof (Hgt t eq_refl) as Ht. rewrite Ht. cbn -[writeChunk].
    destruct (writeChunk_replay e1 (drop 8 t) "tRNS") as (e2 & Hw2 & Hf2 & Hs2 & Hr2);
      [apply wfFramed_small, Ht | simpl; lia|].
    exists e2. split; [exact Hw2|]. split; [eauto using sameFrame_trans|].
    split; [congruence|]. exact (replay_trans _ _ _ _ _ Hr Hr2).
  - exists e1. split; [reflexivity|]. split; [exact Hf|]. split; [exact Hs|].
    exact Hr.
Qed.

End WriteAllFacts.

Section Replay.
Context {W : Type} `{Writer W}.
Implicit Types e : encoder W.

Lemma otherFrames_replay (m : gmap nat frameData) (todo : list nat) : forall e fs,
  mapM (frameFrom (aPNG e) m) todo = Some fs ->
  Forall small (laterFrames (seqNum e) fs) ->
  exists e',
    otherFrames m e todo = Some (e', None)
    /\ aPNG e' = aPNG e
    /\ replay e e' (flat_map pieces (laterFrames (seqNum e) fs)).
Proof.
  induction todo as [|i todo IH]; intros e fs Hfs Hsmall.
  - injection Hfs as <-. exists e. split; [reflexivity|]. split; [reflexivity|].
    apply replay_refl.
  - apply mapM_Some in Hfs. destruct fs as [|f fs]; [inversion Hfs|].
    apply Forall2_cons in Hfs as [Hf Hfs]. apply mapM_Some in Hfs.
    unfold frameFrom in Hf.
    destruct (Images (aPNG e) !! i) as [[img|]|] eqn:Himg; cbn in Hf; try discriminate.
    destruct (Delays (aPNG e) !! i) as [delay|] eqn:Hdelay; cbn in Hf; try discriminate.
    destruct (disposeOp (aPNG e) i) as [dispose|] eqn:Hdisp; cbn in Hf; try discriminate.
    destruct (m !! i) as [fd|] eqn:Hfd; cbn in Hf; [|discriminate].
    injection Hf as <-.
    cbn [laterFrames f_bounds f_delay f_dispose f_idats] in Hsmall |- *.
    apply Forall_cons in Hsmall as [_ Hsmall]. apply Forall_app in Hsmall as [Hs1 Hs2].
    cbn [otherFrames]. rewrite Hfd.
    destruct (writefcTL_replay (setFrame e (fd_ihdr fd) (fd_idats fd)) i img delay dispose)
      as (e1 & H1 & (Ha1 & _ & Hd1) & Hq1 & Hr1); [assumption..|].
    rewrite H1. cbn -[writefdATs otherFrames].
    cbn [seqNum setFrame aPNG idats] in Ha1, Hd1, Hq1, Hr1.
    destruct (writefdATs_loop_replay (idats e1) e1) as (e2 & H2 & (Ha2 & _ & _) & Hq2 & Hr2).
    { rewrite Hd1, Hq1. exact Hs1. }
    unfold writefdATs. rewrite H2. cbn -[otherFrames].
    rewrite Hd1, Hq1 in Hq2, Hr2.
    destruct (IH e2 fs) as (e3 & H3 & Ha3 & Hr3).
    { rewrite Ha2, Ha1. exact Hfs. }
    { rewrite Hq2. cbn [advance] in Hs2 |- *. exact Hs2. }
    exists e3. split; [exact H3|]. split; [congruence|].
    rewrite Hq2 in Hr3.
    change (replay e e3
              (pieces (Container.sealed "fcTL"
                         (fcTLData (seqNum e) (image.Bounds img) delay dispose))
               ++ flat_map pieces (fdATChunks (uint32 (seqNum e + 1)) (fd_idats fd)
                                   ++ laterFrames (advance (seqNum e) (S (length (fd_idats fd)))) fs))).
    rewrite flat_map_app.
    apply (replay_trans _ e1); [exact Hr1|].
    apply (replay_trans _ e2); [exact Hr2 | exact Hr3].
Qed.

Lemma assemble_replay (a : APNG) (w : W) (m : gmap nat frameData) (has : bool)
    (gp gt : option (list byte)) (f0 : frame) (fs : list frame) :
  (forall g, gp = Some g -> wfFramed g) -> (forall g, gt = Some g -> wfFramed g) ->
  mapM (frameFrom a m) (seq 0 (length (Images a))) = Some (f0 :: fs) ->
  Forall small (container a (paletteChunks has gp gt) (f0 :: fs)) ->
  assemble a w m has gp gt
  = Some (writeAll w None (flat_map pieces (container a (paletteChunks has gp gt) (f0 :: fs)))).
Proof.
  intros Hgp Hgt Hfs Hsmall.
  destruct (length (Images a)) as [|n] eqn:Hn; [discriminate Hfs|].
  cbn [seq] in Hfs. apply mapM_Some in Hfs. apply Forall2_cons in Hfs as [Hf0 Hfs].
  apply mapM_Some in Hfs. unfold frameFrom in Hf0.
  destruct (Images a !! 0%nat) as [[img|]|] eqn:Himg; cbn in Hf0; try discriminate.
  destruct (Delays a !! 0%nat) as [delay|] eqn:Hdelay; cbn in Hf0; try discriminate.
  destruct (disposeOp a 0) as [dispose|] eqn:Hdisp; cbn in Hf0; try discriminate.
  destruct (m !! 0%nat) as [fd|] eqn:Hfd; cbn in Hf0; [|discriminate].
  injection Hf0 as <-.
  cbn [container f_ihdr f_bounds f_delay f_dispose f_idats] in Hsmall |- *.
  apply Forall_cons in Hsmall as [Hs0 Hsmall]. apply Forall_app in Hsmall as [_ Hsmall].
  apply Forall_cons in Hsmall as [_ Hsmall]. apply Forall_cons in Hsmall as [_ Hsmall].
  apply Forall_app in Hsmall as [Hs1 Hsmall]. apply Forall_app in Hsmall as [Hs2 _].
  unfold assemble. rewrite Hfd, Hn. replace (S n - 1)%nat with n by lia.
  set (e0 := mkEncoder a w 0 (fd_ihdr fd) (fd_idats fd) None).
  destruct (writeChunk_replay e0 (ihdr e0) "IHDR") as (e1 & H1 & (Ha1 & _ & Hd1) & Hq1 & Hr1);
    [exact Hs0 | simpl; lia|].
  unfold writeIHDR. rewrite H1.
  cbn -[writeGlobalPalette writeacTL writefcTL writeIDATs otherFrames writeIEND].
  destruct (writeGlobalPalette_replay e1 has gp gt Hgp Hgt)
    as (e2 & H2 & (Ha2 & _ & Hd2) & Hq2 & Hr2).
  rewrite H2. cbn -[writeacTL writefcTL writeIDATs otherFrames writeIEND].
  destruct (writeChunk_replay e2 (acTLData (aPNG e2)) "acTL")
    as (e3 & H3 & (Ha3 & _ & Hd3) & Hq3 & Hr3); [simpl; lia | simpl; lia|].
  unfold writeacTL. rewrite H3. cbn -[writefcTL writeIDATs otherFrames writeIEND].
  assert (Ha : aPNG e3 = a) by (rewrite Ha3, Ha2, Ha1; reflexivity).
  assert (Hq : seqNum e3 = 0) by (rewrite Hq3, Hq2, Hq1; reflexivity).
  destruct (writefcTL_replay e3 0 img delay dispose)
    as (e4 & H4 & (Ha4 & _ & Hd4) & Hq4 & Hr4); [rewrite Ha; assumption..|].
  rewrite H4. cbn -[writeIDATs otherFrames writeIEND].
  assert (Hd : idats e4 = fd_idats fd) by (rewrite Hd4, Hd3, Hd2, Hd1; reflexivity).
  destruct (writeIDATs_loop_replay (idats e4) e4) as (e5 & H5 & (Ha5 & _ & _) & Hq5 & Hr5).
  { rewrite Hd. exact Hs1. }
  unfold writeIDATs. rewrite H5. cbn -[otherFrames writeIEND].
  assert (Hq' : seqNum e5 = 1) by (rewrite Hq5, Hq4, Hq; reflexivity).
  destruct (otherFrames_replay m (seq 1 n) e5 fs) as (e6 & H6 & Ha6 & Hr6).
  { rewrite Ha5, Ha4, Ha. exact Hfs. }
  { rewrite Hq'. exact Hs2. }
  rewrite H6. cbn -[writeIEND].
  destruct (writeChunk_replay e6 [] "IEND") as (e7 & H7 & _ & _ & Hr7);
    [simpl; lia | simpl; lia|].
  unfold writeIEND. rewrite H7. cbn. f_equal.
  rewrite Ha2, Ha1 in Hr3. rewrite Hq in Hr4. rewrite Hd in Hr5. rewrite Hq' in Hr6.
  pose proof (replay_trans _ _ _ _ _ Hr1
               (replay_trans _ _ _ _ _ Hr2
                  (replay_trans _ _ _ _ _ Hr3
                     (replay_trans _ _ _ _ _ Hr4
                        (replay_trans _ _ _ _ _ Hr5
                           (replay_trans _ _ _ _ _ Hr6 Hr7)))))) as Hall.
  unfold replay in Hall. cbn [writer err e0 ihdr aPNG] in Hall.
  rewrite <- Hall. f_equal.
  change (flat_map pieces (?c :: ?l)) with (pieces c ++ flat_map pieces l).
  rewrite flat_map_app.
  change (flat_map pieces (?c :: ?l)) with (pieces c ++ flat_map pieces l).
  change (flat_map pieces (?c :: ?l)) with (pieces c ++ flat_map pieces l).
  rewrite !flat_map_app. reflexivity.
Qed.

End Replay.

Lemma concat_pieces (c : Container.chunk) : concat (pieces c) = Container.chunkBytes c.
Proof.
  unfold pieces, Container.chunkBytes. cbn [concat]. rewrite app_nil_r, <- !app_assoc.
  reflexivity.
Qed.

Lemma concat_flat_map_pieces (cs : list Container.chunk) :
  concat (flat_map pieces cs) = Container.serialize cs.
Proof.
  induction cs as [|c cs IH]; [reflexivity|].
  change (flat_map pieces (c :: cs)) with (pieces c ++ flat_map pieces cs).
  rewrite concat_app, IH, concat_pieces. reflexivity.
Qed.

(** The writes of a call, from any call on the same input that returned
    nil: the signature and then every chunk of the container in its three
    pieces, up to the first write that fails. *)
Lemma EncodeAll_writes {W0 : Type} `{Writer W0}
    (pngEncode : image.Image -> string + list byte)
    (sched : list nat) (w0 : W0) (a : APNG) (w0' : W0) :
  EncodeAll pngEncode sched w0 a = Some (w0', None) ->
  exists has gp gt fs,
    firstPalette pngEncode a = Some (Ok (has, gp, gt))
    /\ framesOf pngEncode a = Some fs
    /\ written w0' = written w0 ++ pngHeader
                     ++ Container.serialize (container a (paletteChunks has gp gt) fs)
    /\ forall (W : Type) (HW : Writer W) (w : W),
         EncodeAll pngEncode sched w a
         = Some (writeAll w None
                   (pngHeader :: flat_map pieces (container a (paletteChunks has gp gt) fs))).
Proof.
  intros Hrun.
  destruct (EncodeAll_container _ _ _ _ _ Hrun)
    as (has & gp & gt & fs & _ & Hpal & Hframes & Hout & _).
  exists has, gp, gt, fs. do 3 (split; [assumption|]).
  revert Hrun. unfold EncodeAll.
  destruct (validate a) as [e|] eqn:Hval; [discriminate|].
  destruct (Write w0 pngHeader) as [w1 err0] eqn:Hsig.
  rewrite Hpal. simpl.
  destruct (mapM _ _) as [results|] eqn:Hres; simpl; [|discriminate].
  destruct (gather results sched err0) as [m err1] eqn:Hg.
  destruct err1 as [x|]; [discriminate|].
  intros Hasm.
  assert (err0 = None) as ->.
  { destruct err0 as [x|]; [|reflexivity].
    pose proof (gather_sticky results sched x) as Hs. rewrite Hg in Hs. discriminate Hs. }
  destruct (firstPalette_wf _ _ _ _ _ Hpal) as [Hgp Hgt].
  destruct (assemble_emits _ _ _ _ _ _ _ Hgp Hgt Hasm) as (fs' & Hfs & _ & Hsmall).
  assert (fs' = fs) as ->.
  { assert (Hfs' : framesOf pngEncode a = Some fs'); [|congruence].
    unfold framesOf. apply mapM_Some. apply mapM_Some_1 in Hfs.
    eapply Forall2_impl; [exact Hfs|]. intros j f Hj. cbv beta in Hj.
    replace m with (gather results sched None).1 in Hj by (rewrite Hg; reflexivity).
    exact (frameFrom_frameOf _ _ _ _ _ _ _ Hres Hj). }
  destruct fs as [|f0 fs].
  { apply validate_nonempty in Hval. apply length_mapM in Hfs. rewrite length_seq in Hfs.
    destruct (Images a); [congruence | discriminate Hfs]. }
  intros W HW w. cbn [writeAll].
  destruct (Write w pngHeader) as [w2 [x|]].
  - pose proof (gather_sticky results sched x) as Hs.
    destruct (gather results sched (Some x)) as [m' err']. cbn in Hs. rewrite Hs.
    rewrite writeAll_error. reflexivity.
  - rewrite Hg. apply assemble_replay; assumption.
Qed.

(** X10.  The writes of [EncodeAll].  When a call has returned nil there
    is a list of writes whose concatenation is what that call has appended,
    and on the same input every destination receives exactly these writes
    in this order up to the first one that fails: the call returns the
    error of that write and the destination as that write has left it. *)
Theorem EncodeAll_replays {W0 : Type} `{Writer W0}
    (pngEncode : image.Image -> string + list byte)
    (sched : list nat) (w0 : W0) (a : APNG) (w0' : W0) :
  EncodeAll pngEncode sched w0 a = Some (w0', None) ->
  exists ps,
    written w0' = written w0 ++ concat ps
    /\ forall (W : Type) (HW : Writer W) (w : W),
         EncodeAll pngEncode sched w a = Some (writeAll w None ps).
Proof.
  intros Hrun.
  destruct (EncodeAll_writes _ _ _ _ _ Hrun) as (has & gp & gt & fs & _ & _ & Hout & Hall).
  eexists. split; [|exact Hall].
  cbn [concat]. rewrite concat_flat_map_pieces. exact Hout.
Qed.

Lemma EncodeAll_replays_witness :
  exists w0',
    EncodeAll Demo.encode [2; 0; 1]%nat (mkBuffer []) Inputs.three = Some (w0', None)
    /\ exists ps,
         written w0' = written (mkBuffer []) ++ concat ps
         /\ forall (W : Type) (HW : Writer W) (w : W),
              EncodeAll Demo.encode [2; 0; 1]%nat w Inputs.three = Some (writeAll w None ps).
Proof.
  eexists. split; [vm_compute; reflexivity|].
  apply (EncodeAll_replays Demo.encode [2; 0; 1]%nat (mkBuffer []) Inputs.three).
  vm_compute. reflexivity.
Defined.

Lemma writeAll_Limited (ps : list (list byte)) : forall (base : list byte) (r : nat),
  writeAll (mkLimited base r) None ps
  = (mkLimited (base ++ take r (concat ps)) (r - length (concat ps)),
     if decide (length (concat ps) <= r)%nat then None else Some ErrShortWrite).
Proof.
  induction ps as [|p ps IH]; intros base r.
  - cbn. rewrite take_nil, app_nil_r, Nat.sub_0_r. rewrite decide_True by lia. reflexivity.
  - cbn [writeAll concat Write LimitedWriter_Writer]. unfold LimitedWriter_Write.
    cbn [room lwBytes]. rewrite length_app.
    destruct (decide (length p <= r)%nat) as [Hfit|Hfit].
    + rewrite IH. f_equal.
      * f_equal; [|lia]. rewrite <- app_assoc. f_equal.
        rewrite take_app_ge by exact Hfit. reflexivity.
      * repeat case_decide; try reflexivity; lia.
    + rewrite writeAll_error. f_equal.
      * f_equal; [|lia]. f_equal. rewrite take_app_le by lia. reflexivity.
      * rewrite decide_False by lia. reflexivity.
Qed.

(** X11.  A destination with room for [r] more bytes receives the first
    [r] bytes of the container and nothing after them; [EncodeAll] returns
    [io.ErrShortWrite] when the container is longer than [r] bytes and nil
    otherwise. *)
Theorem short_destination_gets_prefix
    (pngEncode : image.Image -> string + list byte)
    (sched : list nat) (a : APNG) (buf : Buffer) (base : list byte) (r : nat) :
  EncodeAll pngEncode sched (mkBuffer []) a = Some (buf, None) ->
  EncodeAll pngEncode sched (mkLimited base r) a
  = Some (mkLimited (base ++ take r (bufBytes buf)) (r - length (bufBytes buf)),
          if decide (length (bufBytes buf) <= r)%nat then None else Some ErrShortWrite).
Proof.
  intros Hrun.
  destruct (EncodeAll_writes _ _ _ _ _ Hrun) as (has & gp & gt & fs & _ & _ & Hout & Hall).
  rewrite Hall, writeAll_Limited. cbn [concat]. rewrite concat_flat_map_pieces.
  cbn [written Buffer_Writer bufBytes app] in Hout. rewrite Hout. reflexivity.
Qed.

Lemma short_destination_gets_prefix_witness :
  exists buf,
    EncodeAll Demo.encode [2; 0; 1]%nat (mkBuffer []) Inputs.three = Some (buf, None)
    /\ EncodeAll Demo.encode [2; 0; 1]%nat (mkLimited [] 20) Inputs.three
       = Some (mkLimited ([] ++ take 20 (bufBytes buf)) (20 - length (bufBytes buf)),
               if decide (length (bufBytes buf) <= 20)%nat then None
               else Some ErrShortWrite).
Proof.
  eexists. split; [vm_compute; reflexivity|].
  apply (short_destination_gets_prefix Demo.encode [2; 0; 1]%nat Inputs.three).
  vm_compute. reflexivity.
Defined.

(** ** The errors of a call on a buffer *)

Section BufferErrors.
Implicit Types e : encoder Buffer.

Lemma writeChunk_quiet e (b : list byte) (name : string) e' :
  quiet e -> writeChunk e b name = Some e' -> quiet e'.
Proof.
  unfold quiet, writeChunk. intros Hq.
  destruct (err e) as [x|] eqn:He; [intros [= <-]; rewrite He; exact Hq|].
  destruct (negb _); [intros [= <-]; right; reflexivity|].
  destruct (nameBytes name); cbn; [|discriminate].
  intros [= <-]. left. reflexivity.
Qed.

Lemma writefcTL_quiet e (i : nat) e' : quiet e -> writefcTL e i = Some e' -> quiet e'.
Proof.
  unfold writefcTL. intros Hq.
  destruct (mjoin _) as [img|]; cbn -[writeChunk]; [|discriminate].
  destruct (Delays _ !! i) as [delay|]; cbn -[writeChunk]; [|discriminate].
  destruct (disposeOp _ i) as [dispose|]; cbn -[writeChunk]; [|discriminate].
  destruct (writeChunk e _ "fcTL") as [e1|] eqn:Hw; cbn; [|discriminate].
  intros [= <-]. exact (writeChunk_quiet _ _ _ _ Hq Hw).
Qed.

Lemma writeIDATs_loop_quiet (ids : list (list byte)) : forall e e',
  quiet e -> writeIDATs_loop e ids = Some e' -> quiet e'.
Proof.
  induction ids as [|id ids IH]; intros e e' Hq; cbn [writeIDATs_loop].
  - intros [= <-]. exact Hq.
  - destruct (writeChunk e id "IDAT") as [e1|] eqn:Hw; cbn -[writeIDATs_loop]; [|discriminate].
    apply IH. exact (writeChunk_quiet _ _ _ _ Hq Hw).
Qed.

Lemma writefdATs_loop_quiet (ids : list (list byte)) : forall e e',
  quiet e -> writefdATs_loop e ids = Some e' -> quiet e'.
Proof.
  induction ids as [|id ids IH]; intros e e' Hq; cbn [writefdATs_loop].
  - intros [= <-]. exact Hq.
  - destruct (writeChunk e _ "fdAT") as [e1|] eqn:Hw; cbn -[writefdATs_loop]; [|discriminate].
    apply IH. exact (writeChunk_quiet _ _ _ _ Hq Hw).
Qed.

Lemma writeGlobalPalette_quiet e (has : bool) (gp gt : option (list byte)) e' :
  quiet e -> writeGlobalPalette e has gp gt = Some e' -> quiet e'.
Proof.
  unfold writeGlobalPalette. intros Hq.
  destruct has; [|intros [= <-]; exact Hq]. destruct gp as [g|]; [|intros [= <-]; exact Hq].
  destruct (payloadOfFramed g) as [b|]; cbn -[writeChunk]; [|discriminate].
  destruct (writeChunk e b "PLTE") as [e1|] eqn:Hw; cbn -[writeChunk]; [|discriminate].
  pose proof (writeChunk_quiet _ _ _ _ Hq Hw) as Hq1.
  destruct gt as [t|]; [|intros [= <-]; exact Hq1].
  destruct (payloadOfFramed t) as [b'|]; cbn -[writeChunk]; [|discriminate].
  apply writeChunk_quiet, Hq1.
Qed.

Lemma otherFrames_quiet (m : gmap nat frameData) (todo : list nat) : forall e e' ret,
  quiet e -> otherFrames m e todo = Some (e', ret) ->
  quiet e' /\ forall x, ret = Some x -> MissingFrame x.
Proof.
  induction todo as [|i todo IH]; intros e e' ret Hq; cbn [otherFrames].
  - intros [= <- <-]. split; [exact Hq | discriminate].
  - destruct (m !! i) as [fd|].
    + destruct (writefcTL _ i) as [e1|] eqn:H1; cbn -[writefdATs otherFrames]; [|discriminate].
      apply writefcTL_quiet in H1; [|exact Hq].
      destruct (writefdATs e1) as [e2|] eqn:H2; cbn -[otherFrames]; [|discriminate].
      apply writefdATs_loop_quiet in H2; [|exact H1].
      apply IH, H2.
    + intros [= <- <-]. split; [exact Hq|]. intros x [= <-]. exists i. reflexivity.
Qed.

Lemma assemble_Buffer_error (a : APNG) (w : Buffer) (m : gmap nat frameData) (has : bool)
    (gp gt : option (list byte)) (w' : Buffer) (x : error) :
  assemble a w m has gp gt = Some (w', Some x) -> TooLarge x \/ MissingFrame x.
Proof.
  unfold assemble.
  destruct (m !! 0%nat) as [fd|]; [|intros [= <- <-]; right; exists 0%nat; reflexivity].
  set (e0 := mkEncoder a w 0 (fd_ihdr fd) (fd_idats fd) None).
  assert (Hq0 : quiet e0) by (left; reflexivity).
  destruct (writeIHDR e0) as [e1|] eqn:H1; cbn -[writeGlobalPalette writeacTL writefcTL writeIDATs otherFrames writeIEND]; [|discriminate].
  apply writeChunk_quiet in H1; [|exact Hq0].
  destruct (writeGlobalPalette e1 has gp gt) as [e2|] eqn:H2; cbn -[writeacTL writefcTL writeIDATs otherFrames writeIEND]; [|discriminate].
  apply writeGlobalPalette_quiet in H2; [|exact H1].
  destruct (writeacTL e2) as [e3|] eqn:H3; cbn -[writefcTL writeIDATs otherFrames writeIEND]; [|discriminate].
  apply writeChunk_quiet in H3; [|exact H2].
  destruct (writefcTL e3 0) as [e4|] eqn:H4; cbn -[writeIDATs otherFrames writeIEND]; [|discriminate].
  apply writefcTL_quiet in H4; [|exact H3].
  destruct (writeIDATs e4) as [e5|] eqn:H5; cbn -[otherFrames writeIEND]; [|discriminate].
  apply writeIDATs_loop_quiet in H5; [|exact H4].
  destruct (otherFrames m e5 _) as [[e6 ret]|] eqn:H6; cbn -[writeIEND]; [|discriminate].
  apply otherFrames_quiet in H6 as [H6 Hret]; [|exact H5].
  destruct ret as [y|].
  - intros [= <- <-]. right. apply Hret. reflexivity.
  - destruct (writeIEND e6) as [e7|] eqn:H7; cbn; [|discriminate].
    apply writeChunk_quiet in H7; [|exact H6].
    intros [= <- Hx]. destruct H7 as [H7 | H7]; [congruence|].
    left. unfold TooLarge. congruence.
Qed.

End BufferErrors.

(** ** Errors of the frames *)

Section FrameErrors.
Variable pngEncode : image.Image -> string + list byte.

Lemma frameWork_error (i : nat) (o : option image.Image) (x : error) :
  frameWork pngEncode i o = Some (Fail x) -> EncodingError x.
Proof.
  unfold frameWork, encodePalettedImage, EncodingError.
  destruct o as [img|]; cbn -[fetchPNGChunk]; [|discriminate].
  destruct (image.isPaletted img); destruct (pngEncode img) as [msg|stream];
    cbn -[fetchPNGChunk].
  - intros [= <-]. right. left. exists msg. reflexivity.
  - destruct (fetchPNGChunk stream) as [[p|y]|] eqn:Hf; cbn; try discriminate.
    intros [= <-]. right. right. exact (fetchPNGChunk_error _ _ Hf).
  - intros [= <-]. left. exists msg. reflexivity.
  - destruct (fetchPNGChunk stream) as [[p|y]|] eqn:Hf; cbn; try discriminate.
    intros [= <-]. right. right. exact (fetchPNGChunk_error _ _ Hf).
Qed.

Lemma firstPalette_error (a : APNG) (x : error) :
  firstPalette pngEncode a = Some (Fail x) -> EncodingError x.
Proof.
  unfold firstPalette, EncodingError.
  destruct (Images a !! 0%nat) as [[img|]|]; cbn -[fetchPaletteChunk]; try discriminate.
  destruct (image.isPaletted img); [|discriminate].
  destruct (pngEncode img) as [msg|stream].
  - intros [= <-]. left. exists msg. reflexivity.
  - destruct (fetchPaletteChunk stream) as [[[p t]|y]|] eqn:Hf; cbn; try discriminate.
    intros [= <-]. right. right. exact (fetchPaletteChunk_error _ _ Hf).
Qed.

(** The error found after the fan-in is that of the first goroutine, in
    the order of completion, that has failed. *)
Lemma foldl_complete_error (results : list (result frameData)) (sched : list nat) (x : error) :
  forall st : fanIn,
    st.2 = None -> (foldl (complete results) st sched).2 = Some x ->
    exists pre i post,
      sched = pre ++ i :: post
      /\ results !! i = Some (Fail x)
      /\ Forall (fun j => forall y, results !! j <> Some (Fail y)) pre.
Proof.
  induction sched as [|i sched IH]; intros st Hst; cbn [foldl].
  - rewrite Hst. discriminate.
  - destruct (results !! i) as [[fd|y]|] eqn:Hi.
    + intros Hx. destruct (IH (complete results st i)) as (pre & j & post & -> & Hj & Hpre).
      { unfold complete. rewrite Hi. exact Hst. }
      { exact Hx. }
      exists (i :: pre), j, post. split; [reflexivity|]. split; [exact Hj|].
      constructor; [|exact Hpre]. intros y. rewrite Hi. discriminate.
    + intros Hx. rewrite (foldl_complete_sticky results sched _ y) in Hx.
      * injection Hx as <-. exists [], i, sched. split; [reflexivity|].
        split; [exact Hi | constructor].
      * unfold complete. rewrite Hi, Hst. reflexivity.
    + intros Hx. destruct (IH (complete results st i)) as (pre & j & post & -> & Hj & Hpre).
      { unfold complete. rewrite Hi. exact Hst. }
      { exact Hx. }
      exists (i :: pre), j, post. split; [reflexivity|]. split; [exact Hj|].
      constructor; [|exact Hpre]. intros y. rewrite Hi. discriminate.
Qed.

End FrameErrors.

(** The ways a call on a buffer returns an error. *)
Lemma EncodeAll_Buffer_error_cases (pngEncode : image.Image -> string + list byte)
    (sched : list nat) (w : Buffer) (a : APNG) (w' : Buffer) (x : error) :
  EncodeAll pngEncode sched w a = Some (w', Some x) ->
  validate a = Some x \/ EncodingError x \/ TooLarge x \/ MissingFrame x.
Proof.
  unfold EncodeAll.
  destruct (validate a) as [e|] eqn:Hval.
  { intros [= <- <-]. left. reflexivity. }
  cbn [Write Buffer_Writer].
  destruct (firstPalette pngEncode a) as [[[[has gp] gt]|e]|] eqn:Hpal;
    cbn -[assemble gather]; try discriminate.
  2: { intros [= <- <-]. right. left. exact (firstPalette_error _ _ _ Hpal). }
  destruct (mapM _ _) as [results|] eqn:Hres; cbn -[assemble gather]; [|discriminate].
  destruct (gather results sched None) as [m err1] eqn:Hg.
  destruct err1 as [y|].
  - intros [= <- <-]. right. left.
    destruct (foldl_complete_error results sched y (∅, None) eq_refl)
      as (pre & i & post & _ & Hi & _).
    { fold (gather results sched None). rewrite Hg. reflexivity. }
    destruct (results_lookup _ _ _ _ _ Hres Hi) as (o & _ & Hw).
    exact (frameWork_error _ _ _ _ Hw).
  - intros Hasm. right. right. exact (assemble_Buffer_error _ _ _ _ _ _ _ _ Hasm).
Qed.

(** X12.  The errors of [EncodeAll] on a buffer: a validation error, an
    error of the external encoder or of a chunk reader, the error of a chunk
    that is too large, or that of a frame missing from the map. *)
Theorem EncodeAll_Buffer_errors (pngEncode : image.Image -> string + list byte)
    (sched : list nat) (w : Buffer) (a : APNG) (w' : Buffer) (x : error) :
  EncodeAll pngEncode sched w a = Some (w', Some x) ->
  ValidationError x \/ EncodingError x \/ TooLarge x \/ MissingFrame x.
Proof.
  intros Hrun.
  destruct (EncodeAll_Buffer_error_cases _ _ _ _ _ _ Hrun) as [Hval | Hrest].
  - left. exact (validate_ValidationError _ _ Hval).
  - right. exact Hrest.
Qed.

Lemma EncodeAll_Buffer_errors_witness :
  exists w' x,
    EncodeAll Demo.encode [0; 1]%nat (mkBuffer []) Samples.brokenSecond = Some (w', Some x)
    /\ (ValidationError x \/ EncodingError x \/ TooLarge x \/ MissingFrame x).
Proof.
  eexists _, _. split; [vm_compute; reflexivity|].
  apply (EncodeAll_Buffer_errors Demo.encode [0; 1]%nat (mkBuffer []) Samples.brokenSecond
           (mkBuffer pngHeader)).
  vm_compute. reflexivity.
Defined.

(** X13.  When the signature is written, the palette of frame 0 is found
    and the encoding of some frame whose goroutine finishes has failed,
    [EncodeAll] writes nothing after the signature and returns the error of
    the first goroutine, in the order of completion, whose frame failed. *)
Theorem frame_failure_leaves_signature {W : Type} `{Writer W}
    (pngEncode : image.Image -> string + list byte)
    (sched : list nat) (w w1 : W) (a : APNG)
    (pal : bool * option (list byte) * option (list byte))
    (i : nat) (o : option image.Image) (x : error) (w' : W) (r : option error) :
  validate a = None ->
  Write w pngHeader = (w1, None) ->
  firstPalette pngEncode a = Some (Ok pal) ->
  i ∈ sched -> Images a !! i = Some o -> frameWork pngEncode i o = Some (Fail x) ->
  EncodeAll pngEncode sched w a = Some (w', r) ->
  w' = w1 /\ written w' = written w ++ pngHeader
  /\ exists pre j post o' y,
       sched = pre ++ j :: post
       /\ Images a !! j = Some o' /\ frameWork pngEncode j o' = Some (Fail y)
       /\ r = Some y /\ EncodingError y
       /\ Forall (fun k => forall o'' z, Images a !! k = Some o'' ->
                             frameWork pngEncode k o'' <> Some (Fail z)) pre.
Proof.
  intros Hval Hsig Hpal Hi Ho Hfail. unfold EncodeAll.
  rewrite Hval, Hsig, Hpal. destruct pal as [[has gp] gt]. cbn -[assemble gather].
  destruct (mapM _ _) as [results|] eqn:Hres; cbn -[assemble gather]; [|discriminate].
  assert (Hlook : forall k o'', Images a !! k = Some o'' ->
            exists rk, results !! k = Some rk /\ frameWork pngEncode k o'' = Some rk).
  { intros k o'' Hk. pose proof (length_mapM _ _ _ Hres) as Hlen.
    rewrite length_imap in Hlen.
    destruct (lookup_lt_is_Some_2 results k) as [rk Hrk];
      [rewrite <- Hlen; exact (lookup_lt_Some _ _ _ Hk)|].
    exists rk. split; [exact Hrk|].
    destruct (results_lookup _ _ _ _ _ Hres Hrk) as (o3 & Ho3 & Hw). congruence. }
  destruct (Hlook i o Ho) as (ri & Hri & Hwi).
  assert (ri = Fail x) as -> by congruence.
  assert (Herr : exists y, (gather results sched None).2 = Some y).
  { apply list_elem_of_split in Hi as (pre & post & ->).
    unfold gather. rewrite foldl_app. cbn [foldl].
    destruct (foldl (complete results) (∅, None) pre) as [m0 [z|]] eqn:Hpre.
    - exists z. apply foldl_complete_sticky, complete_sticky. reflexivity.
    - exists x. apply foldl_complete_sticky. unfold complete. rewrite Hri. reflexivity. }
  destruct Herr as [y Hy].
  destruct (gather results sched None) as [m err1] eqn:Hg. cbn in Hy. subst err1.
  intros [= <- <-]. split; [reflexivity|].
  split; [exact (Write_nil _ _ _ Hsig)|].
  destruct (foldl_complete_error results sched y (∅, None) eq_refl)
    as (pre & j & post & Hsched & Hj & Hpre).
  { fold (gather results sched None). rewrite Hg. reflexivity. }
  destruct (results_lookup _ _ _ _ _ Hres Hj) as (o' & Ho' & Hw').
  exists pre, j, post, o', y. do 4 (split; [assumption || reflexivity|]).
  split; [exact (frameWork_error _ _ _ _ Hw')|].
  eapply Forall_impl; [exact Hpre|]. intros k Hk o'' z Ho'' Hz.
  destruct (Hlook k o'' Ho'') as (rk & Hrk & Hwk). apply (Hk z). congruence.
Qed.

Lemma frame_failure_leaves_signature_witness :
  exists w' r,
    EncodeAll Demo.encode [0; 1]%nat (mkBuffer []) Samples.brokenSecond = Some (w', r)
    /\ w' = mkBuffer pngHeader /\ written w' = written (mkBuffer []) ++ pngHeader
    /\ exists pre j post o' y,
         [0; 1]%nat = pre ++ j :: post
         /\ Images Samples.brokenSecond !! j = Some o'
         /\ frameWork Demo.encode j o' = Some (Fail y)
         /\ r = Some y /\ EncodingError y
         /\ Forall (fun k => forall o'' z, Images Samples.brokenSecond !! k = Some o'' ->
                               frameWork Demo.encode k o'' <> Some (Fail z)) pre.
Proof.
  eexists _, _. split; [vm_compute; reflexivity|].
  apply (frame_failure_leaves_signature Demo.encode [0; 1]%nat (mkBuffer [])
           (mkBuffer pngHeader) Samples.brokenSecond (false, None, None) 1
           (Demo.rgba 0 0 0 0 [])
           (errorString "apng: png encoding error(png: invalid format: invalid image size)"));
    [reflexivity | reflexivity | reflexivity | repeat constructor | reflexivity
    | vm_compute; reflexivity | vm_compute; reflexivity].
Defined.

(** X14.  When the destination refuses the signature and frame 0 is not
    paletted, [EncodeAll] returns the error of that write, whatever happens
    to the frames, and the destination is as that write has left it. *)
Theorem signature_failure_is_returned {W : Type} `{Writer W}
    (pngEncode : image.Image -> string + list byte)
    (sched : list nat) (w w1 : W) (a : APNG) (x : error) (img : image.Image)
    (w' : W) (r : option error) :
  validate a = None ->
  Write w pngHeader = (w1, Some x) ->
  Images a !! 0%nat = Some (Some img) -> image.isPaletted img = false ->
  EncodeAll pngEncode sched w a = Some (w', r) ->
  w' = w1 /\ r = Some x.
Proof.
  intros Hval Hsig Himg Hp. unfold EncodeAll, firstPalette.
  rewrite Hval, Hsig, Himg. cbn -[assemble gather]. rewrite Hp. cbn -[assemble gather].
  destruct (mapM _ _) as [results|]; cbn -[assemble gather]; [|discriminate].
  pose proof (gather_sticky results sched x) as Hs.
  destruct (gather results sched (Some x)) as [m err1]. cbn in Hs. rewrite Hs.
  intros [= <- <-]. split; reflexivity.
Qed.

Lemma signature_failure_is_returned_witness :
  exists w' r,
    EncodeAll Demo.encode [2; 0; 1]%nat (mkLimited [] 0) Inputs.three = Some (w', r)
    /\ w' = mkLimited [] 0 /\ r = Some ErrShortWrite.
Proof.
  eexists _, _. split; [vm_compute; reflexivity|].
  apply (signature_failure_is_returned Demo.encode [2; 0; 1]%nat (mkLimited [] 0)
           (mkLimited [] 0) Inputs.three ErrShortWrite
           (image.mkImage (image.Rect 0 0 2 1) image.RGBAModel false [1; 2; 3; 4; 5; 6; 7; 8]));
    [reflexivity | reflexivity | reflexivity | reflexivity | vm_compute; reflexivity].
Defined.


(** ** The errors of the convenience functions *)

Lemma not_CountError (x : error) :
  RegionError x \/ EncodingError x \/ TooLarge x \/ MissingFrame x -> ~ CountError x.
Proof.
  unfold RegionError, EncodingError, TooLarge, MissingFrame, CountError.
  intros [-> | [[(msg & ->) | [(msg & ->) | ->]] | [-> | (i & ->)]]] [Hc | [Hc | Hc]];
    cbn in Hc; discriminate Hc.
Qed.

(** X21.  [APNGBytes] never returns a count error of [EncodeAll]: without
    images it returns its own error, and with images the delays it builds
    match them, so what is left is the frame-region error, an error of the
    encoding, or an error made while writing. *)
Theorem APNGBytes_errors (pngEncode : image.Image -> string + list byte)
    (sched : list nat) (images : list (option image.Image)) (delay : Z) (x : error) :
  APNGBytes pngEncode sched images delay = Some (Fail x) ->
  ~ CountError x
  /\ ((images = [] /\ x = errorString "apng: no images provided")
      \/ (images <> []
          /\ (RegionError x \/ EncodingError x \/ TooLarge x \/ MissingFrame x))).
Proof.
  unfold APNGBytes. destruct (decide (length images = 0%nat)) as [Hn|Hn].
  { intros [= <-]. split.
    - intros [Hc | [Hc | Hc]]; discriminate Hc.
    - left. split; [destruct images; [reflexivity | discriminate Hn] | reflexivity]. }
  destruct (EncodeAll _ _ _ _) as [[buf [e|]]|] eqn:Hrun; cbn; try discriminate.
  intros [= ->].
  assert (Hx : RegionError x \/ EncodingError x \/ TooLarge x \/ MissingFrame x).
  { destruct (EncodeAll_Buffer_error_cases _ _ _ _ _ _ Hrun) as [Hval | Hrest];
      [|right; exact Hrest].
    left. rewrite validate_counts in Hval.
    - destruct (fullfillFrameRegionConstraints _); [discriminate Hval|].
      injection Hval as <-. reflexivity.
    - unfold countsOK. cbn [Images Delays Disposals].
      split; [exact Hn|]. split; [rewrite length_replicate; reflexivity | discriminate]. }
  split; [exact (not_CountError x Hx)|].
  right. split; [intros ->; apply Hn; reflexivity | exact Hx].
Qed.

Lemma APNGBytes_errors_witness :
  exists x,
    APNGBytes Demo.encode [0; 1]%nat (Images Inputs.outside) 10 = Some (Fail x)
    /\ ~ CountError x
    /\ ((Images Inputs.outside = [] /\ x = errorString "apng: no images provided")
        \/ (Images Inputs.outside <> []
            /\ (RegionError x \/ EncodingError x \/ TooLarge x \/ MissingFrame x))).
Proof.
  eexists. split; [vm_compute; reflexivity|].
  apply (APNGBytes_errors Demo.encode [0; 1]%nat (Images Inputs.outside) 10).
  vm_compute. reflexivity.
Defined.

(** ** The animation-control chunk *)

Lemma paletteChunks_no_acTL (has : bool) (gp gt : option (list byte)) :
  List.filter (Container.hasType "acTL") (paletteChunks has gp gt) = [].
Proof. unfold paletteChunks. destruct has, gp, gt; reflexivity. Qed.

Lemma IDATs_no_acTL (ids : list (list byte)) :
  List.filter (Container.hasType "acTL") (map (Container.sealed "IDAT") ids) = [].
Proof. induction ids as [|id ids IH]; [reflexivity | exact IH]. Qed.

Lemma fdATChunks_no_acTL (ids : list (list byte)) : forall s,
  List.filter (Container.hasType "acTL") (fdATChunks s ids) = [].
Proof. induction ids as [|id ids IH]; intros s; [reflexivity | apply IH]. Qed.

Lemma laterFrames_no_acTL (fs : list frame) : forall s,
  List.filter (Container.hasType "acTL") (laterFrames s fs) = [].
Proof.
  induction fs as [|f fs IH]; intros s; [reflexivity|]. cbn [laterFrames].
  change (List.filter ?f (?c :: ?l)) with (List.filter f l).
  rewrite List.filter_app, fdATChunks_no_acTL, IH. reflexivity.
Qed.

Lemma container_acTL (a : APNG) (has : bool) (gp gt : option (list byte))
    (f0 : frame) (fs : list frame) :
  List.filter (Container.hasType "acTL") (container a (paletteChunks has gp gt) (f0 :: fs))
  = [Container.sealed "acTL" (acTLData a)].
Proof.
  cbn [container].
  change (List.filter ?f (?c :: ?l)) with (List.filter f l).
  rewrite List.filter_app, paletteChunks_no_acTL. cbn [app].
  change (List.filter ?f (?c :: ?d :: ?l)) with (c :: List.filter f l).
  rewrite !List.filter_app, IDATs_no_acTL, laterFrames_no_acTL. reflexivity.
Qed.

(** ** The animation made by the convenience functions *)

(** X22.  The bytes [APNGBytes] returns are the signature and a container
    whose animation-control chunk holds the number of images and the loop
    count 0, with one frame-control chunk per image, each with the delay
    given (in 16 bits) over 100, disposal code 0 and blend code 0. *)
Theorem APNGBytes_uniform_animation (pngEncode : image.Image -> string + list byte)
    (sched : list nat) (images : list (option image.Image)) (delay : Z) (bytes : list byte) :
  APNGBytes pngEncode sched images delay = Some (Ok bytes) ->
  exists out cs,
    bytes = pngHeader ++ out
    /\ Container.parse out = Some cs
    /\ map Container.c_data (List.filter (Container.hasType "acTL") cs)
       = [writeUint32 (uint32 (Z.of_nat (length images))) ++ writeUint32 0]
    /\ length (List.filter (Container.hasType "fcTL") cs) = length images
    /\ Forall (fun c =>
                 Container.fc_delayNum (Container.decodeFrameControl (Container.c_data c))
                 = uint16 delay
                 /\ Container.fc_delayDen (Container.decodeFrameControl (Container.c_data c))
                    = 100
                 /\ Container.fc_disposeOp (Container.decodeFrameControl (Container.c_data c))
                    = 0
                 /\ Container.fc_blendOp (Container.decodeFrameControl (Container.c_data c))
                    = 0)
         (List.filter (Container.hasType "fcTL") cs).
Proof.
  unfold APNGBytes. case_decide; [discriminate|].
  set (a := mkAPNG images (replicate (length images) delay) None 0).
  destruct (EncodeAll pngEncode sched (mkBuffer []) a) as [[buf [e|]]|] eqn:Hrun;
    cbn -[Container.decodeFrameControl]; try discriminate.
  intros [= <-].
  destruct (EncodeAll_parse _ _ _ _ _ Hrun)
    as (has & gp & gt & f0 & fs & out & Hpal & Hfs & Hw & Hparse).
  exists out, (container a (paletteChunks has gp gt) (f0 :: fs)).
  split; [exact Hw|]. split; [exact Hparse|].
  split; [rewrite container_acTL; reflexivity|].
  rewrite container_fcTL.
  pose proof (framesOf_length _ _ _ Hfs) as Hlen.
  split; [cbn [length]; rewrite length_frameControls; exact Hlen|].
  assert (Hf : forall f, f ∈ f0 :: fs -> f_delay f = delay /\ f_dispose f = 0).
  { intros f Hin. apply list_elem_of_lookup in Hin as [i Hi].
    apply (framesOf_lookup _ _ _ _ _ Hfs) in Hi.
    apply frameOf_Some in Hi as (img & fd & _ & Hdelay & Hdisp & _).
    cbn [a Delays] in Hdelay. apply lookup_replicate in Hdelay as [Hd _].
    split; [exact Hd|]. unfold disposeOp in Hdisp. cbn in Hdisp. congruence. }
  assert (Hfc : forall c, c ∈ Container.sealed "fcTL"
                                (fcTLData 0 (f_bounds f0) (f_delay f0) (f_dispose f0))
                              :: frameControls 1 fs ->
            exists f seq, f ∈ f0 :: fs
              /\ c = Container.sealed "fcTL"
                       (fcTLData seq (f_bounds f) (f_delay f) (f_dispose f))).
  { intros c Hc. apply elem_of_cons in Hc as [-> | Hc].
    - exists f0, 0. split; [left | reflexivity].
    - apply list_elem_of_lookup in Hc as [i Hi].
      destruct (frameControls_lookup _ _ _ _ Hi) as (f & seq & Hf' & ->).
      exists f, seq. split; [right; apply list_elem_of_lookup; eauto | reflexivity]. }
  apply Forall_forall. intros c Hc.
  destruct (Hfc c Hc) as (f & seq & Hin & ->). destruct (Hf f Hin) as [-> ->].
  cbn [Container.sealed Container.c_data]. rewrite decode_fcTLData.
  repeat split.
Qed.

Lemma APNGBytes_uniform_animation_witness :
  exists bytes,
    APNGBytes Demo.encode [2; 0; 1]%nat (Images Inputs.three) 7 = Some (Ok bytes)
    /\ exists out cs,
         bytes = pngHeader ++ out
         /\ Container.parse out = Some cs
         /\ map Container.c_data (List.filter (Container.hasType "acTL") cs)
            = [writeUint32 (uint32 (Z.of_nat (length (Images Inputs.three))))
               ++ writeUint32 0]
         /\ length (List.filter (Container.hasType "fcTL") cs) = length (Images Inputs.three)
         /\ Forall (fun c =>
                      Container.fc_delayNum (Container.decodeFrameControl (Container.c_data c))
                      = uint16 7
                      /\ Container.fc_delayDen
                           (Container.decodeFrameControl (Container.c_data c)) = 100
                      /\ Container.fc_disposeOp
                           (Container.decodeFrameControl (Container.c_data c)) = 0
                      /\ Container.fc_blendOp
                           (Container.decodeFrameControl (Container.c_data c)) = 0)
              (List.filter (Container.hasType "fcTL") cs).
Proof.
  eexists. split; [vm_compute; reflexivity|].
  apply (APNGBytes_uniform_animation Demo.encode [2; 0; 1]%nat (Images Inputs.three) 7).
  vm_compute. reflexivity.
Defined.

(** ** Saving to a file *)

(** X23.  [Save] sends to the file it has created the bytes [APNGBytes]
    returns for the same images and delay, write by write up to the first
    write that fails, and returns the error of that write; when it returns
    nil the file has received all of them. *)
Theorem Save_writes_the_bytes_of_APNGBytes {W : Type} `{Writer W}
    (pngEncode : image.Image -> string + list byte) (osCreate : string -> W + error)
    (sched : list nat) (filePath : string) (images : list (option image.Image))
    (delay : Z) (file : W) (bytes : list byte) :
  osCreate filePath = inl file ->
  APNGBytes pngEncode sched images delay = Some (Ok bytes) ->
  exists ps file' r,
    concat ps = bytes
    /\ writeAll file None ps = (file', r)
    /\ Save pngEncode osCreate sched filePath images delay = Some (Some file', r)
    /\ (r = None -> written file' = written file ++ bytes).
Proof.
  intros Hcreate. unfold APNGBytes, Save. case_decide; [discriminate|].
  rewrite Hcreate.
  set (a := mkAPNG images (replicate (length images) delay) None 0).
  destruct (EncodeAll pngEncode sched (mkBuffer []) a) as [[buf [e|]]|] eqn:Hrun;
    cbn; try discriminate.
  intros [= <-].
  destruct (EncodeAll_writes _ _ _ _ _ Hrun) as (has & gp & gt & fs & _ & _ & Hout & Hall).
  set (ps := pngHeader :: flat_map pieces (container a (paletteChunks has gp gt) fs)) in *.
  destruct (writeAll file None ps) as [file' r] eqn:Hps.
  exists ps, file', r.
  assert (Hbytes : concat ps = bufBytes buf).
  { unfold ps. cbn [concat]. rewrite concat_flat_map_pieces. symmetry. exact Hout. }
  split; [exact Hbytes|]. split; [exact Hps|].
  split; [rewrite Hall, Hps; reflexivity|].
  intros ->. rewrite <- Hbytes. exact (writeAll_written _ _ _ Hps).
Qed.

Lemma Save_writes_the_bytes_of_APNGBytes_witness :
  exists bytes,
    APNGBytes Demo.encode [2; 0; 1]%nat (Images Inputs.three) 7 = Some (Ok bytes)
    /\ exists ps file' r,
         concat ps = bytes
         /\ writeAll (mkLimited [] 30) None ps = (file', r)
         /\ Save Demo.encode (fun _ => inl (mkLimited [] 30)) [2; 0; 1]%nat "out.png"
              (Images Inputs.three) 7
            = Some (Some file', r)
         /\ (r = None -> written file' = written (mkLimited [] 30) ++ bytes).
Proof.
  eexists. split; [vm_compute; reflexivity|].
  apply (Save_writes_the_bytes_of_APNGBytes Demo.encode (fun _ => inl (mkLimited [] 30))
           [2; 0; 1]%nat "out.png" (Images Inputs.three) 7 (mkLimited [] 30));
    [reflexivity | vm_compute; reflexivity].
Defined.

(** X24.  [Save] creates the file before the frames are validated: for
    images that are not within the canvas of the first it returns the
    frame-region error and leaves the file it has created, with nothing
    written to it. *)
Theorem Save_leaves_the_file_of_a_rejected_animation {W : Type} `{Writer W}
    (pngEncode : image.Image -> string + list byte) (osCreate : string -> W + error)
    (sched : list nat) (filePath : string) (images : list (option image.Image))
    (delay : Z) (file : W) :
  images <> [] -> ~ withinCanvas images ->
  osCreate filePath = inl file ->
  Save pngEncode osCreate sched filePath images delay
  = Some (Some file, Some (errorString "apng: must fullfill frame region constraints")).
Proof.
  intros Hne Hout Hcreate. unfold Save.
  rewrite decide_False by (destruct images; [congruence | discriminate]).
  rewrite Hcreate. unfold EncodeAll. rewrite validate_counts.
  - cbn [Images]. destruct (fullfillFrameRegionConstraints images) eqn:Hf; [|reflexivity].
    exfalso. apply Hout, fullfill_spec, Hf.
  - unfold countsOK. cbn [Images Delays Disposals].
    split; [destruct images; [congruence | discriminate]|].
    split; [rewrite length_replicate; reflexivity | discriminate].
Qed.

Lemma Save_leaves_the_file_of_a_rejected_animation_witness :
  Save Demo.encode (fun _ => inl (mkBuffer [])) [0; 1]%nat "out.png"
    (Images Inputs.outside) 10
  = Some (Some (mkBuffer []),
          Some (errorString "apng: must fullfill frame region constraints")).
Proof.
  apply (Save_leaves_the_file_of_a_rejected_animation Demo.encode
           (fun _ => inl (mkBuffer [])) [0; 1]%nat "out.png" (Images Inputs.outside) 10
           (mkBuffer [])); [discriminate | | reflexivity].
  intros Hin. apply fullfill_spec in Hin. discriminate Hin.
Defined.

(** ** Bytes and tags *)

Lemma uint8_range (x : Z) : 0 <= uint8 x < 256.
Proof. unfold uint8. apply Z.mod_pos_bound. lia. Qed.

(** X1.  [writeUint32] and [writeUint16] store the low 32, resp. 16, bits
    of their argument as bytes, most significant first:
    [binary.BigEndian] reads them back. *)
Theorem writeUint_round_trip (u v : Z) :
  BigEndian_Uint32 (writeUint32 u) = uint32 u
  /\ BigEndian_Uint16 (writeUint16 v) = uint16 v
  /\ (0 <= u < 2 ^ 32 -> BigEndian_Uint32 (writeUint32 u) = u)
  /\ (0 <= v < 2 ^ 16 -> BigEndian_Uint16 (writeUint16 v) = v)
  /\ Forall (fun b => 0 <= b < 256) (writeUint32 u ++ writeUint16 v).
Proof.
  split; [apply BigEndian_Uint32_writeUint32|].
  split; [apply BigEndian_Uint16_writeUint16|].
  split; [intros Hu; rewrite BigEndian_Uint32_writeUint32; apply uint32_small, Hu|].
  split; [intros Hv; rewrite BigEndian_Uint16_writeUint16; apply uint16_small, Hv|].
  unfold writeUint32, writeUint16. cbn [app]. repeat constructor; apply uint8_range.
Qed.

(** X2.  [writeChunk] takes the first four bytes of the tag: with no
    error stored and a payload that fits, it panics exactly on a tag
    shorter than four bytes, and bytes after the fourth do not matter. *)
Theorem writeChunk_tag {W : Type} `{Writer W} (e : encoder W) (b : list byte) (name : string) :
  err e = None -> Z.of_nat (length b) < 2 ^ 32 ->
  (writeChunk e b name = panic <-> (String.length name < 4)%nat)
  /\ forall suffix : string,
       (String.length name = 4)%nat -> writeChunk e b (name +:+ suffix) = writeChunk e b name.
Proof.
  intros He Hb. split.
  - unfold writeChunk, nameBytes. rewrite He, uint32_small by lia.
    rewrite Z.eqb_refl. cbn [negb]. case_decide as Hn.
    + cbn. split; [|lia].
      destruct (Write (writer e) _) as [w1 [x1|]]; [discriminate|].
      destruct (Write w1 b) as [w2 [x2|]]; [discriminate|].
      destruct (Write w2 _) as [w3 r3]. discriminate.
    + split; [lia | reflexivity].
  - intros suffix Hn.
    assert (Htake : take 4 (bytesOf (name +:+ suffix)) = take 4 (bytesOf name)).
    { assert (Happ : forall s t, bytesOf (s +:+ t) = bytesOf s ++ bytesOf t).
      { intros s t. induction s as [|c s IH]; [reflexivity|].
        change (bytesOf (String c s +:+ t))
          with (Z.of_N (N_of_ascii c) :: bytesOf (s +:+ t)).
        rewrite IH. reflexivity. }
      rewrite Happ, take_app_le by (rewrite length_bytesOf; lia). reflexivity. }
    assert (Hlen : (4 <= String.length (name +:+ suffix))%nat).
    { apply (f_equal length) in Htake. rewrite !length_take, !length_bytesOf in Htake. lia. }
    unfold writeChunk, nameBytes. rewrite He.
    rewrite decide_True by exact Hlen. rewrite decide_True by lia. rewrite Htake. reflexivity.
Qed.

Lemma writeChunk_tag_witness :
  (writeChunk Samples.fresh [1; 2; 3] "IDAT" = panic <-> (String.length "IDAT" < 4)%nat)
  /\ forall suffix : string,
       (String.length "IDAT" = 4)%nat ->
       writeChunk Samples.fresh [1; 2; 3] ("IDAT" +:+ suffix)
       = writeChunk Samples.fresh [1; 2; 3] "IDAT".
Proof.
  apply (writeChunk_tag Samples.fresh [1; 2; 3] "IDAT"); [reflexivity | simpl; lia].
Defined.

(** ** The canvas and the earlier validation *)

(** X17.  When the first frame sits at the origin, every frame of an
    accepted animation lies within the canvas: its offsets are not negative
    and offset plus size does not exceed the size of the first frame. *)
Theorem accepted_frames_fit_the_canvas (a : APNG) (img0 : image.Image) (i : nat)
    (img : image.Image) :
  validate a = None ->
  Images a !! 0%nat = Some (Some img0) -> Images a !! i = Some (Some img) ->
  image.Min (image.Bounds img0) = image.mkPoint 0 0 ->
  0 <= image.X (image.Min (image.Bounds img))
  /\ 0 <= image.Y (image.Min (image.Bounds img))
  /\ image.X (image.Min (image.Bounds img)) + Demo.width img <= Demo.width img0
  /\ image.Y (image.Min (image.Bounds img)) + Demo.height img <= Demo.height img0.
Proof.
  intros Hv H0 Hi Hmin. apply validate_None in Hv as [_ (img0' & rest & Himgs & Hx & Hy & Hall)].
  rewrite Himgs in H0, Hi. injection H0 as ->.
  unfold Demo.width, Demo.height. rewrite Hmin in *. cbn [image.X image.Y] in *.
  destruct i as [|i].
  - injection Hi as ->. rewrite Hmin. cbn [image.X image.Y]. lia.
  - cbn in Hi. destruct (proj1 (Forall_lookup _ _) Hall i _ Hi) as (img' & [= <-] & Hb).
    lia.
Qed.

Lemma accepted_frames_fit_the_canvas_witness :
  0 <= 1 /\ 0 <= 0
  /\ 1 + Demo.width (image.mkImage (image.Rect 1 0 2 1) image.RGBAModel false [9; 9; 9; 9])
     <= Demo.width (image.mkImage (image.Rect 0 0 2 1) image.RGBAModel false
                      [1; 2; 3; 4; 5; 6; 7; 8])
  /\ 0 + Demo.height (image.mkImage (image.Rect 1 0 2 1) image.RGBAModel false [9; 9; 9; 9])
     <= Demo.height (image.mkImage (image.Rect 0 0 2 1) image.RGBAModel false
                       [1; 2; 3; 4; 5; 6; 7; 8]).
Proof.
  apply (accepted_frames_fit_the_canvas Inputs.three
           (image.mkImage (image.Rect 0 0 2 1) image.RGBAModel false [1; 2; 3; 4; 5; 6; 7; 8])
           1
           (image.mkImage (image.Rect 1 0 2 1) image.RGBAModel false [9; 9; 9; 9]));
    reflexivity.
Defined.

(** X18.  [isSameColorModel] of the earlier encoder: when the color model
    of the first frame is not a palette it does not panic, and it returns
    true exactly when every later frame is an image with the color model
    of the first. *)
Theorem Legacy_isSameColorModel_spec (img0 : image.Image) (rest : list (option image.Image)) :
  (forall colors, image.ColorModel img0 <> image.Palette colors) ->
  exists same : bool,
    Legacy.isSameColorModel (Some img0 :: rest) = Some same
    /\ (same = true
        <-> Forall (fun o => exists img, o = Some img
                               /\ image.ColorModel img = image.ColorModel img0) rest).
Proof.
  intros Hnp. cbn [Legacy.isSameColorModel].
  induction rest as [|o rest IH]; cbn [Legacy.sameAs].
  - exists true. split; [reflexivity|]. split; [constructor | reflexivity].
  - destruct o as [img|].
    + assert (Hne : Legacy.modelNe (image.ColorModel img) (image.ColorModel img0)
                    = Some (bool_decide (image.ColorModel img <> image.ColorModel img0))).
      { unfold Legacy.modelNe. destruct (image.ColorModel img); try reflexivity.
        destruct (image.ColorModel img0) eqn:Hm; try reflexivity.
        exfalso. exact (Hnp _ eq_refl). }
      rewrite Hne. cbn [mbind option_bind].
      destruct (decide (image.ColorModel img = image.ColorModel img0)) as [Heq|Hneq].
      * rewrite bool_decide_false by (intros Hc; apply Hc, Heq).
        destruct IH as (same & Hs & Hiff). exists same. split; [exact Hs|].
        rewrite Hiff. split.
        -- intros Hr. constructor; [exists img; split; [reflexivity | exact Heq] | exact Hr].
        -- intros Hr. apply Forall_cons in Hr as [_ Hr]. exact Hr.
      * rewrite bool_decide_true by exact Hneq. exists false. split; [reflexivity|].
        split; [discriminate|].
        intros Hr. apply Forall_cons in Hr as [(img' & [= <-] & Hc) _]. destruct (Hneq Hc).
    + exists false. split; [reflexivity|]. split; [discriminate|].
      intros Hr. apply Forall_cons in Hr as [(img' & Hc & _) _]. discriminate Hc.
Qed.

Lemma Legacy_isSameColorModel_spec_witness :
  exists same : bool,
    Legacy.isSameColorModel (Images Inputs.mixed) = Some same
    /\ (same = true
        <-> Forall (fun o => exists img, o = Some img
                               /\ image.ColorModel img = image.RGBAModel)
              [Demo.gray 0 0 1 1 [7]]).
Proof.
  apply (Legacy_isSameColorModel_spec
           (image.mkImage (image.Rect 0 0 1 1) image.RGBAModel false [1; 2; 3; 4])
           [Demo.gray 0 0 1 1 [7]]).
  discriminate.
Defined.

(** X19.  In the earlier encoder an animation whose first two frames have
    palettes as color models panics in [isSameColorModel], and so does the
    validation once the count checks have passed: two [color.Palette]
    values cannot be compared. *)
Theorem Legacy_paletted_frames_panic (a : APNG) (img0 img1 : image.Image)
    (rest : list (option image.Image)) (c0 c1 : list (Z * Z * Z * Z)) :
  Images a = Some img0 :: Some img1 :: rest ->
  image.ColorModel img0 = image.Palette c0 -> image.ColorModel img1 = image.Palette c1 ->
  Legacy.isSameColorModel (Images a) = panic
  /\ (countsOK a -> Legacy.validate a = panic).
Proof.
  intros Himgs H0 H1.
  assert (Hp : Legacy.isSameColorModel (Images a) = panic).
  { rewrite Himgs. cbn [Legacy.isSameColorModel Legacy.sameAs]. rewrite H0, H1. reflexivity. }
  split; [exact Hp|].
  intros (Hn & Hd & Hds). unfold Legacy.validate.
  rewrite decide_False by exact Hn. rewrite decide_False by (intros Hc; apply Hc, Hd).
  destruct (Disposals a) as [ds|].
  - rewrite bool_decide_false by (intros Hc; apply Hc, Hds; reflexivity).
    rewrite Hp. reflexivity.
  - rewrite Hp. reflexivity.
Qed.

Lemma Legacy_paletted_frames_panic_witness :
  Legacy.isSameColorModel (Images Inputs.twoPaletted) = panic
  /\ (countsOK Inputs.twoPaletted -> Legacy.validate Inputs.twoPaletted = panic).
Proof.
  apply (Legacy_paletted_frames_panic Inputs.twoPaletted
           (image.mkImage (image.Rect 0 0 2 1)
              (image.Palette [(0, 0, 0, 255); (255, 0, 0, 128)]) true [0; 1])
           (image.mkImage (image.Rect 0 0 2 1)
              (image.Palette [(0, 0, 0, 255); (255, 0, 0, 128)]) true [1; 0])
           [] [(0, 0, 0, 255); (255, 0, 0, 128)] [(0, 0, 0, 255); (255, 0, 0, 128)]);
    reflexivity.
Defined.

(** ** Calls that return nil *)

(** X15.  Two calls on the same input that return nil have appended the
    same bytes, whatever the two destinations and the two orders of
    completion are. *)
Theorem output_is_independent_of_the_destination {W1 W2 : Type} `{Writer W1} `{Writer W2}
    (pngEncode : image.Image -> string + list byte)
    (sched1 sched2 : list nat) (w1 : W1) (w2 : W2) (a : APNG) (w1' : W1) (w2' : W2) :
  EncodeAll pngEncode sched1 w1 a = Some (w1', None) ->
  EncodeAll pngEncode sched2 w2 a = Some (w2', None) ->
  exists out, written w1' = written w1 ++ out /\ written w2' = written w2 ++ out.
Proof.
  intros H1 H2.
  destruct (EncodeAll_container _ _ _ _ _ H1)
    as (has & gp & gt & fs & _ & Hpal & Hfs & Hw & _).
  destruct (EncodeAll_container _ _ _ _ _ H2)
    as (has' & gp' & gt' & fs' & _ & Hpal' & Hfs' & Hw' & _).
  rewrite Hpal in Hpal'. injection Hpal' as <- <- <-.
  rewrite Hfs in Hfs'. injection Hfs' as <-.
  eexists. split; [exact Hw | exact Hw'].
Qed.

Lemma output_is_independent_of_the_destination_witness :
  exists w1' w2',
    EncodeAll Demo.encode [2; 0; 1]%nat (mkBuffer []) Inputs.three = Some (w1', None)
    /\ EncodeAll Demo.encode [0; 1; 2]%nat (mkLimited [7] 1000) Inputs.three = Some (w2', None)
    /\ exists out,
         written w1' = written (mkBuffer []) ++ out
         /\ written w2' = written (mkLimited [7] 1000) ++ out.
Proof.
  eexists _, _. split; [vm_compute; reflexivity|]. split; [vm_compute; reflexivity|].
  apply (output_is_independent_of_the_destination Demo.encode [2; 0; 1]%nat [0; 1; 2]%nat
           (mkBuffer []) (mkLimited [7] 1000) Inputs.three);
    vm_compute; reflexivity.
Defined.

(** X16.  On a valid input, with well-formed streams from the external
    encoder and a buffer as destination, [EncodeAll] returns nil whenever
    every goroutine finishes, and the buffer has received the signature and
    a container with one frame-control chunk per frame. *)
Theorem valid_animation_is_encoded (pngEncode : image.Image -> string + list byte)
    (sched : list nat) (w : Buffer) (a : APNG) :
  validate a = None ->
  (forall img, Some img ∈ Images a -> wellEncoded pngEncode img) ->
  (forall i, (i < length (Images a))%nat -> i ∈ sched) ->
  exists w' out cs,
    EncodeAll pngEncode sched w a = Some (w', None)
    /\ bufBytes w' = bufBytes w ++ pngHeader ++ out
    /\ Container.parse out = Some cs
    /\ length (List.filter (Container.hasType "fcTL") cs) = length (Images a).
Proof.
  intros Hv Henc Hsched.
  destruct (EncodeAll_succeeds pngEncode sched w a Hv Henc Hsched) as [w' Hrun].
  destruct (EncodeAll_frame_controls _ _ _ _ _ Hrun) as (out & cs & Hw & Hparse & Hn & _).
  exists w', out, cs. repeat split; assumption.
Qed.

Lemma valid_animation_is_encoded_witness :
  exists w' out cs,
    EncodeAll Demo.encode [2; 0; 1]%nat (mkBuffer []) Inputs.three = Some (w', None)
    /\ bufBytes w' = bufBytes (mkBuffer []) ++ pngHeader ++ out
    /\ Container.parse out = Some cs
    /\ length (List.filter (Container.hasType "fcTL") cs) = length (Images Inputs.three).
Proof.
  apply (valid_animation_is_encoded Demo.encode [2; 0; 1]%nat (mkBuffer []) Inputs.three);
    [reflexivity | exact Inputs_three_wellEncoded | exact all_three_finish].
Defined.

(** ** Integrity of the container *)

Lemma sealed_crc (name : string) (data : list byte) :
  Container.c_crc (Container.sealed name data) = Container.crcOf (Container.sealed name data).
Proof. reflexivity. Qed.

Lemma fdATChunks_sealed (ids : list (list byte)) : forall s,
  Forall (fun c => Container.c_crc c = Container.crcOf c) (fdATChunks s ids).
Proof.
  induction ids as [|id ids IH]; intros s; cbn [fdATChunks]; constructor;
    [apply sealed_crc | apply IH].
Qed.

Lemma laterFrames_sealed (fs : list frame) : forall s,
  Forall (fun c => Container.c_crc c = Container.crcOf c) (laterFrames s fs).
Proof.
  induction fs as [|f fs IH]; intros s; cbn [laterFrames]; constructor;
    [apply sealed_crc|]. apply Forall_app. split; [apply fdATChunks_sealed | apply IH].
Qed.

Lemma container_sealed (a : APNG) (has : bool) (gp gt : option (list byte)) (fs : list frame) :
  Forall (fun c => Container.c_crc c = Container.crcOf c)
    (container a (paletteChunks has gp gt) fs).
Proof.
  destruct fs as [|f0 fs]; [constructor|]. cbn [container].
  constructor; [apply sealed_crc|]. apply Forall_app. split.
  { unfold paletteChunks. destruct has, gp, gt; repeat constructor. }
  constructor; [apply sealed_crc|]. constructor; [apply sealed_crc|].
  apply Forall_app. split.
  { apply Forall_map, Forall_forall. intros id _. apply sealed_crc. }
  apply Forall_app. split; [apply laterFrames_sealed | repeat constructor].
Qed.

(** X20.  After a call that returns nil the bytes behind the signature
    are chunks, each with a tag of four bytes, a payload that fits the
    length field and the CRC of its tag and payload; the first of them is
    the IHDR chunk, with the header payload read from the stream of
    frame 0. *)
Theorem output_chunks_are_intact {W : Type} `{Writer W}
    (pngEncode : image.Image -> string + list byte)
    (sched : list nat) (w : W) (a : APNG) (w' : W) :
  EncodeAll pngEncode sched w a = Some (w', None) ->
  exists out cs,
    written w' = written w ++ pngHeader ++ out
    /\ Container.parse out = Some cs
    /\ Container.serialize cs = out
    /\ Forall (fun c => length (Container.c_type c) = 4%nat
                        /\ Container.c_crc c = Container.crcOf c
                        /\ Z.of_nat (length (Container.c_data c)) < 2 ^ 32) cs
    /\ exists c0 img0 fd0,
         cs !! 0%nat = Some c0
         /\ Container.c_type c0 = bytesOf "IHDR"
         /\ Images a !! 0%nat = Some (Some img0)
         /\ frameWork pngEncode 0 (Some img0) = Some (Ok fd0)
         /\ Container.c_data c0 = fd_ihdr fd0.
Proof.
  intros Hrun.
  destruct (EncodeAll_container _ _ _ _ _ Hrun)
    as (has & gp & gt & fs & Hval & Hpal & Hfs & Hw & Hsmall).
  destruct fs as [|f0 fs].
  { apply framesOf_length in Hfs. apply validate_nonempty in Hval.
    destruct (Images a); [congruence | discriminate Hfs]. }
  pose proof (container_wf a has gp gt (f0 :: fs) Hsmall) as Hwf.
  exists (Container.serialize (container a (paletteChunks has gp gt) (f0 :: fs))),
    (container a (paletteChunks has gp gt) (f0 :: fs)).
  split; [exact Hw|]. split; [apply parse_serialize, Hwf|]. split; [reflexivity|].
  split.
  { pose proof (container_sealed a has gp gt (f0 :: fs)) as Hs.
    apply Forall_forall. intros c Hc.
    destruct (proj1 (Forall_forall _ _) Hwf c Hc) as (Ht & _ & Hd).
    split; [exact Ht|]. split; [exact (proj1 (Forall_forall _ _) Hs c Hc) | exact Hd]. }
  assert (Hf0 : frameOf pngEncode a 0 = Some f0)
    by (apply (framesOf_lookup _ _ _ _ _ Hfs); reflexivity).
  apply frameOf_Some in Hf0 as (img0 & fd0 & Himg & _ & _ & _ & Hwork & Hh & _).
  exists (Container.sealed "IHDR" (f_ihdr f0)), img0, fd0.
  split; [reflexivity|]. split; [reflexivity|]. split; [exact Himg|].
  split; [exact Hwork | exact Hh].
Qed.

Lemma output_chunks_are_intact_witness :
  exists w',
    EncodeAll Demo.encode [1; 0]%nat (mkBuffer []) Inputs.twoPaletted = Some (w', None)
    /\ exists out cs,
         written w' = written (mkBuffer []) ++ pngHeader ++ out
         /\ Container.parse out = Some cs
         /\ Container.serialize cs = out
         /\ Forall (fun c => length (Container.c_type c) = 4%nat
                             /\ Container.c_crc c = Container.crcOf c
                             /\ Z.of_nat (length (Container.c_data c)) < 2 ^ 32) cs
         /\ exists c0 img0 fd0,
              cs !! 0%nat = Some c0
              /\ Container.c_type c0 = bytesOf "IHDR"
              /\ Images Inputs.twoPaletted !! 0%nat = Some (Some img0)
              /\ frameWork Demo.encode 0 (Some img0) = Some (Ok fd0)
              /\ Container.c_data c0 = fd_ihdr fd0.
Proof.
  eexists. split; [vm_compute; reflexivity|].
  apply (output_chunks_are_intact Demo.encode [1; 0]%nat (mkBuffer []) Inputs.twoPaletted).
  vm_compute. reflexivity.
Defined.

(** ** The palette of a stream *)

Lemma framed_readable (name : string) (ch : Container.chunk) :
  readable ch ->
  Container.c_type ch = bytesOf "PLTE" \/ Container.c_type ch = bytesOf "tRNS" ->
  framed name (Z.of_nat (length (Container.c_data ch))) (Container.c_data ch)
  = Some (framedOf name ch).
Proof.
  intros (_ & _ & _ & Hpal) Ht. specialize (Hpal Ht). unfold framed.
  rewrite decide_False; [reflexivity|]. rewrite uint32_small; lia.
Qed.

Lemma parsePNGChunkWithPalette_slots (c : chunkFetcher) (ch : Container.chunk)
    (rest : list byte) :
  bb c = Container.chunkBytes ch ++ rest -> stage c <> dsSeenIEND -> readable ch ->
  exists c',
    parsePNGChunkWithPalette c = Some (c', None) /\ bb c' = rest /\ stage c' <> dsSeenIEND
    /\ plte c' = fill "PLTE" (plte c) ch /\ trns c' = fill "tRNS" (trns c) ch.
Proof.
  intros Hbb Hstage Hr. pose proof Hr as ((Ht & Hc & Hd) & Hend & Hhdr & Hpal).
  pose proof (framed_readable "PLTE" ch Hr) as HfP.
  pose proof (framed_readable "tRNS" ch Hr) as HfT.
  unfold fill, Container.hasType.
  destruct ch as [type data crc].
  cbn [Container.c_type Container.c_data Container.c_crc] in *.
  unfold Container.chunkBytes in Hbb.
  cbn [Container.c_type Container.c_data Container.c_crc] in Hbb.
  rewrite <- !app_assoc in Hbb.
  set (len := Z.of_nat (length data)) in *.
  assert (Hn : Z.to_nat len = length data) by (unfold len; lia).
  assert (Hlen : BigEndian_Uint32 (take 4 (writeUint32 len ++ type)) = len).
  { rewrite BigEndian_Uint32_app. apply uint32_small. unfold len. lia. }
  assert (Htag : drop 4 (writeUint32 len ++ type) = type)
    by (apply drop_app_length'; reflexivity).
  unfold parsePNGChunkWithPalette.
  rewrite Hbb, (app_assoc (writeUint32 len)).
  rewrite (ReadFull_exact 8) by (rewrite length_app, Ht; reflexivity).
  rewrite Hlen, Htag. unfold skipCRC, Next.
  destruct (decide (type = bytesOf "IHDR")) as [Hi|_].
  { rewrite decide_False by (specialize (Hhdr Hi); lia).
    cbn [bb setBB setStage]. rewrite (ReadFull_exact _ data) by (symmetry; exact Hn). simpl.
    eexists. split; [reflexivity|]. simpl.
    split; [apply drop_app_length'; symmetry; exact Hc|]. split; [discriminate|].
    rewrite !bool_decide_false by (rewrite Hi; discriminate). split; reflexivity. }
  destruct (decide (type = bytesOf "PLTE")) as [Hp|Hn1].
  { unfold parsePLTE. cbn [bb setBB setStage].
    rewrite (ReadFull_exact _ data) by (symmetry; exact Hn).
    rewrite HfP by auto. simpl.
    eexists. split; [reflexivity|]. simpl.
    split; [apply drop_app_length'; symmetry; exact Hc|]. split; [discriminate|].
    rewrite bool_decide_true by exact Hp.
    rewrite bool_decide_false by (rewrite Hp; discriminate). split; reflexivity. }
  destruct (decide (type = bytesOf "tRNS")) as [Hp|Hn2].
  { unfold parsetRNS. cbn [bb setBB setStage].
    rewrite (ReadFull_exact _ data) by (symmetry; exact Hn).
    rewrite HfT by auto. simpl.
    eexists. split; [reflexivity|]. simpl.
    split; [apply drop_app_length'; symmetry; exact Hc|]. split; [discriminate|].
    rewrite bool_decide_false by exact Hn1.
    rewrite bool_decide_true by exact Hp. split; reflexivity. }
  destruct (decide (type = bytesOf "IDAT")) as [Hp|_].
  { cbn [bb setBB setStage]. rewrite Hn, drop_app_length. simpl.
    eexists. split; [reflexivity|]. simpl.
    split; [apply drop_app_length'; symmetry; exact Hc|]. split; [discriminate|].
    rewrite !bool_decide_false by (rewrite Hp; discriminate). split; reflexivity. }
  rewrite decide_False by exact Hend.
  cbn [bb setBB]. rewrite Hn, drop_app_length. simpl.
  eexists. split; [reflexivity|]. simpl.
  split; [apply drop_app_length'; symmetry; exact Hc|]. split; [exact Hstage|].
  rewrite bool_decide_false by exact Hn1. rewrite bool_decide_false by exact Hn2.
  split; reflexivity.
Qed.

Lemma fill_last (name : string) (cs : list Container.chunk) : forall old,
  foldl (fill name) old cs
  = match last (List.filter (Container.hasType name) cs) with
    | Some ch => Some (framedOf name ch)
    | None => old
    end.
Proof.
  induction cs as [|c cs IH]; intros old; [reflexivity|].
  cbn [foldl List.filter]. rewrite IH. unfold fill.
  destruct (Container.hasType name c); [|reflexivity].
  rewrite last_cons. destruct (last _); reflexivity.
Qed.

Lemma fetchLoop_palette_slots (cs : list Container.chunk) : forall c rest fuel,
  bb c = Container.serialize cs ++ rest -> stage c <> dsSeenIEND -> Forall readable cs ->
  exists c',
    fetchLoop parsePNGChunkWithPalette (length cs + fuel) c
    = fetchLoop parsePNGChunkWithPalette fuel c'
    /\ bb c' = rest /\ stage c' <> dsSeenIEND
    /\ plte c' = foldl (fill "PLTE") (plte c) cs
    /\ trns c' = foldl (fill "tRNS") (trns c) cs.
Proof.
  induction cs as [|ch cs IH]; intros c rest fuel Hbb Hstage Hcs.
  - exists c. repeat split; assumption.
  - apply Forall_cons in Hcs as [Hch Hcs].
    change (Container.serialize (ch :: cs))
      with (Container.chunkBytes ch ++ Container.serialize cs) in Hbb.
    rewrite <- app_assoc in Hbb.
    destruct (parsePNGChunkWithPalette_slots c ch _ Hbb Hstage Hch)
      as (c1 & Hstep & Hbb1 & Hst1 & Hp1 & Ht1).
    destruct (IH c1 rest fuel Hbb1 Hst1 Hcs) as (c' & Hloop & Hrest & Hst & Hp & Ht).
    exists c'. split.
    { cbn [length Nat.add fetchLoop]. rewrite decide_False by exact Hstage.
      rewrite Hstep. exact Hloop. }
    split; [exact Hrest|]. split; [exact Hst|].
    cbn [foldl]. rewrite <- Hp1, <- Ht1. split; assumption.
Qed.

Lemma parsePNGChunkWithPalette_IEND_slots (c : chunkFetcher) (lenb rest : list byte) :
  bb c = lenb ++ bytesOf "IEND" ++ rest -> length lenb = 4%nat ->
  exists c',
    parsePNGChunkWithPalette c = Some (c', None) /\ stage c' = dsSeenIEND
    /\ plte c' = plte c /\ trns c' = trns c.
Proof.
  intros Hbb Hl. unfold parsePNGChunkWithPalette.
  rewrite Hbb, (app_assoc lenb).
  rewrite (ReadFull_exact 8) by (rewrite length_app, Hl; reflexivity).
  rewrite (drop_app_length' lenb) by (symmetry; exact Hl).
  rewrite decide_False by discriminate. rewrite decide_False by discriminate.
  rewrite decide_False by discriminate. rewrite decide_False by discriminate.
  rewrite decide_True by reflexivity. simpl.
  eexists. repeat split.
Qed.

(** X9.  From a well-formed stream [fetchPaletteChunk] returns the last
    PLTE chunk and the last tRNS chunk, each as length, tag and payload,
    and nil for a kind the stream does not have. *)
Theorem fetchPaletteChunk_keeps_last (sig : list byte) (cs : list Container.chunk)
    (lenb rest : list byte) :
  length sig = 8%nat -> length lenb = 4%nat -> Forall readable cs ->
  fetchPaletteChunk (sig ++ Container.serialize cs ++ lenb ++ bytesOf "IEND" ++ rest)
  = Some (Ok (framedOf "PLTE" <$> last (List.filter (Container.hasType "PLTE") cs),
              framedOf "tRNS" <$> last (List.filter (Container.hasType "tRNS") cs))).
Proof.
  intros Hsig Hl Hcs. unfold fetchPaletteChunk, Next.
  change (length pngHeader) with 8%nat.
  rewrite drop_app_length' by (symmetry; exact Hsig). cbn [snd].
  destruct (fetchLoop_palette_slots cs
              (mkFetcher (Container.serialize cs ++ lenb ++ bytesOf "IEND" ++ rest)
                 dsStart None None None)
              (lenb ++ bytesOf "IEND" ++ rest) 2 eq_refl)
    as (c' & Hloop & Hbb & Hst & Hp & Ht); [discriminate | exact Hcs|].
  destruct (parsePNGChunkWithPalette_IEND_slots c' lenb rest Hbb Hl)
    as (c2 & Hstep & Hst2 & Hp2 & Ht2).
  cbn [fetchLoop] in Hloop. rewrite decide_False in Hloop by exact Hst.
  rewrite Hstep, decide_True in Hloop by exact Hst2.
  rewrite (runFetch_of_fuel _ parsePNGChunkWithPalette_progress _ _ _ Hloop).
  cbn [mbind option_bind]. rewrite Hp2, Ht2, Hp, Ht, !fill_last. cbn [plte trns].
  destruct (last (List.filter (Container.hasType "PLTE") cs));
    destruct (last (List.filter (Container.hasType "tRNS") cs)); reflexivity.
Qed.

Lemma fetchPaletteChunk_keeps_last_witness :
  fetchPaletteChunk Samples.stream
  = Some (Ok (framedOf "PLTE"
                <$> last (List.filter (Container.hasType "PLTE") Samples.chunks),
              framedOf "tRNS"
                <$> last (List.filter (Container.hasType "tRNS") Samples.chunks))).
Proof.
  apply (fetchPaletteChunk_keeps_last pngHeader Samples.chunks (writeUint32 0)
           [174; 66; 96; 130]);
    [reflexivity | reflexivity | exact Samples_chunks_readable].
Defined.

(** ** Streams cut short *)

Lemma ReadFull_cases (s : list byte) (n : nat) :
  ((n <= length s)%nat /\ ReadFull s n = (take n s, None, drop n s))
  \/ ((length s < n)%nat /\ exists d e s', ReadFull s n = (d, Some e, s')).
Proof.
  unfold ReadFull. destruct (decide (n = 0%nat)) as [->|Hn].
  { left. split; [lia|]. rewrite take_0, drop_0. reflexivity. }
  destruct (decide (length s = 0%nat)); [right; split; [lia | eauto]|].
  destruct (decide (length s < n)%nat); [right; split; [lia | eauto]|].
  left. split; [lia | reflexivity].
Qed.

(** A buffer that holds less than a chunk header ends the scan with
    [io.ErrUnexpectedEOF]. *)
Lemma fetchLoop_starved (step : chunkFetcher -> option (chunkFetcher * option error))
    (c : chunkFetcher) (fuel : nat) :
  (forall c, step c = parsePNGChunk c) \/ (forall c, step c = parsePNGChunkWithPalette c) ->
  (length (bb c) < 8)%nat -> stage c <> dsSeenIEND ->
  fetchLoop step (S fuel) c = Finished (Some (Fail ErrUnexpectedEOF)).
Proof.
  intros Hstep Hlen Hstage. cbn [fetchLoop]. rewrite decide_False by exact Hstage.
  destruct (ReadFull_cases (bb c) 8) as [[Hle _] | [_ (d & e & s' & Hr)]]; [lia|].
  assert (He : match e with EOF => ErrUnexpectedEOF | _ => e end = ErrUnexpectedEOF).
  { destruct (ReadFull_error _ _ _ _ _ Hr) as [-> | ->]; reflexivity. }
  destruct Hstep as [Hs | Hs]; rewrite Hs.
  - unfold parsePNGChunk. rewrite Hr, He. reflexivity.
  - unfold parsePNGChunkWithPalette. rewrite Hr, He. reflexivity.
Qed.

(** A chunk whose payload or CRC is cut short: the step reports an error,
    or it leaves an empty buffer. *)
Lemma parsePNGChunk_cut (c : chunkFetcher) (p : pngChunk) (lenb type r : list byte) :
  bb c = lenb ++ type ++ r -> length lenb = 4%nat -> length type = 4%nat ->
  type <> bytesOf "IEND" ->
  (length r < Z.to_nat (BigEndian_Uint32 lenb) + 4)%nat ->
  (type = bytesOf "IHDR" -> BigEndian_Uint32 lenb <= tmpSize) ->
  (type = bytesOf "PLTE" \/ type = bytesOf "tRNS" -> BigEndian_Uint32 lenb + 8 < 2 ^ 32) ->
  pc c = Some p -> stage c <> dsSeenIEND ->
  (exists c' e, parsePNGChunk c = Some (c', Some e))
  \/ (exists c', parsePNGChunk c = Some (c', None) /\ bb c' = [] /\ stage c' <> dsSeenIEND
                 /\ is_Some (pc c')).
Proof.
  intros Hbb Hl Ht Hend Hr Hhdr Hpal Hpc Hstage.
  pose proof (BigEndian_Uint32_range lenb) as Hrange.
  set (len := BigEndian_Uint32 lenb) in *.
  assert (Hempty : forall s : list byte, (length s < Z.to_nat len + 4)%nat ->
            drop 4 (drop (Z.to_nat len) s) = []).
  { intros s Hs. apply drop_ge. rewrite length_drop. lia. }
  unfold parsePNGChunk. rewrite Hbb, (app_assoc lenb).
  rewrite (ReadFull_exact 8) by (rewrite length_app, Hl, Ht; reflexivity).
  rewrite (take_app_length' lenb) by (symmetry; exact Hl).
  rewrite (drop_app_length' lenb) by (symmetry; exact Hl).
  fold len. unfold skipCRC, Next.
  destruct (decide (type = bytesOf "IHDR")) as [Hi|_].
  { unfold parseIHDR. rewrite decide_False by (specialize (Hhdr Hi); lia).
    cbn [bb setBB setStage pc].
    destruct (ReadFull_cases r (Z.to_nat len)) as [[_ ->] | [_ (d & e & s' & ->)]].
    - rewrite Hpc. cbn. right. eexists. split; [reflexivity|]. cbn.
      split; [apply Hempty, Hr|]. split; [discriminate | eexists; reflexivity].
    - cbn. left. eauto. }
  destruct (decide (type = bytesOf "PLTE")) as [Hp|_].
  { unfold parsePLTE. cbn [bb setBB setStage pc].
    destruct (ReadFull_cases r (Z.to_nat len)) as [[_ ->] | [_ (d & e & s' & ->)]].
    - destruct (framed_Some "PLTE" len (take (Z.to_nat len) r)) as [g ->];
        [lia | apply Hpal; auto|].
      rewrite Hpc. cbn. right. eexists. split; [reflexivity|]. cbn.
      split; [apply Hempty, Hr|]. split; [discriminate | eexists; reflexivity].
    - cbn. left. eauto. }
  destruct (decide (type = bytesOf "tRNS")) as [Hp|_].
  { unfold parsetRNS. cbn [bb setBB setStage pc].
    destruct (ReadFull_cases r (Z.to_nat len)) as [[_ ->] | [_ (d & e & s' & ->)]].
    - destruct (framed_Some "tRNS" len (take (Z.to_nat len) r)) as [g ->];
        [lia | apply Hpal; auto|].
      rewrite Hpc. cbn. right. eexists. split; [reflexivity|]. cbn.
      split; [apply Hempty, Hr|]. split; [discriminate | eexists; reflexivity].
    - cbn. left. eauto. }
  destruct (decide (type = bytesOf "IDAT")) as [Hp|_].
  { unfold parseIDAT, Next. cbn [bb setBB setStage pc].
    case_decide.
    - cbn. left. eauto.
    - rewrite Hpc. cbn. right. eexists. split; [reflexivity|]. cbn.
      split; [apply Hempty, Hr|]. split; [discriminate | eexists; reflexivity]. }
  rewrite decide_False by exact Hend. cbn [bb setBB].
  right. eexists. split; [reflexivity|]. cbn.
  split; [apply Hempty, Hr|]. split; [exact Hstage | rewrite Hpc; eexists; reflexivity].
Qed.

Lemma parsePNGChunkWithPalette_cut (c : chunkFetcher) (lenb type r : list byte) :
  bb c = lenb ++ type ++ r -> length lenb = 4%nat -> length type = 4%nat ->
  type <> bytesOf "IEND" ->
  (length r < Z.to_nat (BigEndian_Uint32 lenb) + 4)%nat ->
  (type = bytesOf "IHDR" -> BigEndian_Uint32 lenb <= tmpSize) ->
  (type = bytesOf "PLTE" \/ type = bytesOf "tRNS" -> BigEndian_Uint32 lenb + 8 < 2 ^ 32) ->
  stage c <> dsSeenIEND ->
  (exists c' e, parsePNGChunkWithPalette c = Some (c', Some e))
  \/ (exists c', parsePNGChunkWithPalette c = Some (c', None) /\ bb c' = []
                 /\ stage c' <> dsSeenIEND).
Proof.
  intros Hbb Hl Ht Hend Hr Hhdr Hpal Hstage.
  pose proof (BigEndian_Uint32_range lenb) as Hrange.
  set (len := BigEndian_Uint32 lenb) in *.
  assert (Hempty : forall s : list byte, (length s < Z.to_nat len + 4)%nat ->
            drop 4 (drop (Z.to_nat len) s) = []).
  { intros s Hs. apply drop_ge. rewrite length_drop. lia. }
  unfold parsePNGChunkWithPalette. rewrite Hbb, (app_assoc lenb).
  rewrite (ReadFull_exact 8) by (rewrite length_app, Hl, Ht; reflexivity).
  rewrite (take_app_length' lenb) by (symmetry; exact Hl).
  rewrite (drop_app_length' lenb) by (symmetry; exact Hl).
  fold len. unfold skipCRC, Next.
  destruct (decide (type = bytesOf "IHDR")) as [Hi|_].
  { rewrite decide_False by (specialize (Hhdr Hi); lia).
    cbn [bb setBB setStage pc].
    destruct (ReadFull_cases r (Z.to_nat len)) as [[_ ->] | [_ (d & e & s' & ->)]].
    - cbn. right. eexists. split; [reflexivity|]. cbn.
      split; [apply Hempty, Hr | discriminate].
    - cbn. left. eauto. }
  destruct (decide (type = bytesOf "PLTE")) as [Hp|_].
  { unfold parsePLTE. cbn [bb setBB setStage pc].
    destruct (ReadFull_cases r (Z.to_nat len)) as [[_ ->] | [_ (d & e & s' & ->)]].
    - destruct (framed_Some "PLTE" len (take (Z.to_nat len) r)) as [g ->];
        [lia | apply Hpal; auto|].
      cbn. right. eexists. split; [reflexivity|]. cbn.
      split; [apply Hempty, Hr | discriminate].
    - cbn. left. eauto. }
  destruct (decide (type = bytesOf "tRNS")) as [Hp|_].
  { unfold parsetRNS. cbn [bb setBB setStage pc].
    destruct (ReadFull_cases r (Z.to_nat len)) as [[_ ->] | [_ (d & e & s' & ->)]].
    - destruct (framed_Some "tRNS" len (take (Z.to_nat len) r)) as [g ->];
        [lia | apply Hpal; auto|].
      cbn. right. eexists. split; [reflexivity|]. cbn.
      split; [apply Hempty, Hr | discriminate].
    - cbn. left. eauto. }
  destruct (decide (type = bytesOf "IDAT")) as [Hp|_].
  { cbn [bb setBB setStage pc].
    right. eexists. split; [reflexivity|]. cbn.
    split; [apply Hempty, Hr | discriminate]. }
  rewrite decide_False by exact Hend. cbn [bb setBB].
  right. eexists. split; [reflexivity|]. cbn.
  split; [apply Hempty, Hr | exact Hstage].
Qed.

(** The bytes of a chunk, cut short. *)
Lemma chunkBytes_cut (ch : Container.chunk) (k : nat) :
  wfChunk ch -> (8 <= k < length (Container.chunkBytes ch))%nat ->
  exists r,
    take k (Container.chunkBytes ch)
    = writeUint32 (Z.of_nat (length (Container.c_data ch))) ++ Container.c_type ch ++ r
    /\ (length r < length (Container.c_data ch) + 4)%nat.
Proof.
  intros (Ht & Hc & Hd) Hk. unfold Container.chunkBytes in *.
  rewrite !length_app, length_writeUint32, Ht, Hc in Hk.
  exists (take (k - 8) (Container.c_data ch ++ Container.c_crc ch)). split.
  - rewrite (app_assoc (writeUint32 _)), take_app_ge
      by (rewrite length_app, length_writeUint32, Ht; lia).
    rewrite length_app, length_writeUint32, Ht, <- app_assoc. reflexivity.
  - rewrite length_take, length_app, Hc. lia.
Qed.


Lemma fetchLoop_truncated (cs : list Container.chunk) : forall c p k tail,
  bb c = take k (Container.serialize cs ++ tail) ->
  (k < length (Container.serialize cs) + 8)%nat ->
  pc c = Some p -> stage c <> dsSeenIEND -> Forall readable cs ->
  fetchLoop parsePNGChunk (length cs + 2) c = Finished (Some (Fail ErrUnexpectedEOF)).
Proof.
  induction cs as [|ch cs IH]; intros c p k tail Hbb Hk Hpc Hstage Hcs.
  - apply (fetchLoop_starved parsePNGChunk c 1); [left; reflexivity | | exact Hstage].
    rewrite Hbb, length_take. cbn in Hk. lia.
  - apply Forall_cons in Hcs as [Hch Hcs].
    change (Container.serialize (ch :: cs))
      with (Container.chunkBytes ch ++ Container.serialize cs) in Hbb, Hk.
    rewrite length_app in Hk. rewrite <- app_assoc in Hbb.
    replace (length (ch :: cs) + 2)%nat with (S (length cs + 2)) by (cbn; lia).
    destruct (decide (length (Container.chunkBytes ch) <= k)%nat) as [Hfull|Hcut].
    + rewrite take_app_ge in Hbb by exact Hfull.
      destruct (parsePNGChunk_chunk c p ch _ Hbb Hpc Hstage Hch)
        as (c1 & Hstep & Hbb1 & Hpc1 & Hst1).
      cbn [fetchLoop]. rewrite decide_False by exact Hstage. rewrite Hstep.
      apply (IH c1 (absorb p ch) _ tail Hbb1); [lia | exact Hpc1 | exact Hst1 | exact Hcs].
    + rewrite take_app_le in Hbb by lia.
      destruct (decide (k < 8)%nat) as [Hshort|Hhdr].
      { apply (fetchLoop_starved parsePNGChunk c); [left; reflexivity | | exact Hstage].
        rewrite Hbb, length_take. lia. }
      pose proof Hch as (Hwf & Hend & Hi & Hpal).
      destruct (chunkBytes_cut ch k Hwf) as (r & Hr & Hlen); [lia|].
      rewrite Hr in Hbb.
      assert (Hbe : BigEndian_Uint32 (writeUint32 (Z.of_nat (length (Container.c_data ch))))
                    = Z.of_nat (length (Container.c_data ch))).
      { rewrite BigEndian_Uint32_writeUint32. apply uint32_small.
        destruct Hwf as (_ & _ & Hd). lia. }
      destruct (parsePNGChunk_cut c p _ _ r Hbb) as [(c1 & e & Hstep) | (c1 & Hstep & Hbb1 & Hst1 & _)];
        try (rewrite Hbe); try assumption; try reflexivity; try (apply Hwf); try lia.
      * cbn [fetchLoop]. rewrite decide_False by exact Hstage. rewrite Hstep.
        destruct (parsePNGChunk_error _ _ _ Hstep) as [-> | ->]; reflexivity.
      * cbn [fetchLoop]. rewrite decide_False by exact Hstage. rewrite Hstep.
        replace (length cs + 2)%nat with (S (length cs + 1)) by lia.
        apply (fetchLoop_starved parsePNGChunk c1); [left; reflexivity | | exact Hst1].
        rewrite Hbb1. cbn. lia.
Qed.

Lemma fetchLoop_palette_truncated (cs : list Container.chunk) : forall c k tail,
  bb c = take k (Container.serialize cs ++ tail) ->
  (k < length (Container.serialize cs) + 8)%nat ->
  stage c <> dsSeenIEND -> Forall readable cs ->
  fetchLoop parsePNGChunkWithPalette (length cs + 2) c
  = Finished (Some (Fail ErrUnexpectedEOF)).
Proof.
  induction cs as [|ch cs IH]; intros c k tail Hbb Hk Hstage Hcs.
  - apply (fetchLoop_starved parsePNGChunkWithPalette c 1);
      [right; reflexivity | | exact Hstage].
    rewrite Hbb, length_take. cbn in Hk. lia.
  - apply Forall_cons in Hcs as [Hch Hcs].
    change (Container.serialize (ch :: cs))
      with (Container.chunkBytes ch ++ Container.serialize cs) in Hbb, Hk.
    rewrite length_app in Hk. rewrite <- app_assoc in Hbb.
    replace (length (ch :: cs) + 2)%nat with (S (length cs + 2)) by (cbn; lia).
    destruct (decide (length (Container.chunkBytes ch) <= k)%nat) as [Hfull|Hcut].
    + rewrite take_app_ge in Hbb by exact Hfull.
      destruct (parsePNGChunkWithPalette_chunk c ch _ Hbb Hstage Hch)
        as (c1 & Hstep & Hbb1 & Hst1).
      cbn [fetchLoop]. rewrite decide_False by exact Hstage. rewrite Hstep.
      apply (IH c1 _ tail Hbb1); [lia | exact Hst1 | exact Hcs].
    + rewrite take_app_le in Hbb by lia.
      destruct (decide (k < 8)%nat) as [Hshort|Hhdr].
      { apply (fetchLoop_starved parsePNGChunkWithPalette c);
          [right; reflexivity | | exact Hstage].
        rewrite Hbb, length_take. lia. }
      pose proof Hch as (Hwf & Hend & Hi & Hpal).
      destruct (chunkBytes_cut ch k Hwf) as (r & Hr & Hlen); [lia|].
      rewrite Hr in Hbb.
      assert (Hbe : BigEndian_Uint32 (writeUint32 (Z.of_nat (length (Container.c_data ch))))
                    = Z.of_nat (length (Container.c_data ch))).
      { rewrite BigEndian_Uint32_writeUint32. apply uint32_small.
        destruct Hwf as (_ & _ & Hd). lia. }
      destruct (parsePNGChunkWithPalette_cut c _ _ r Hbb)
        as [(c1 & e & Hstep) | (c1 & Hstep & Hbb1 & Hst1)];
        try (rewrite Hbe); try assumption; try reflexivity; try (apply Hwf); try lia.
      * cbn [fetchLoop]. rewrite decide_False by exact Hstage. rewrite Hstep.
        destruct (parsePNGChunkWithPalette_error _ _ _ Hstep) as [-> | ->]; reflexivity.
      * cbn [fetchLoop]. rewrite decide_False by exact Hstage. rewrite Hstep.
        replace (length cs + 2)%nat with (S (length cs + 1)) by lia.
        apply (fetchLoop_starved parsePNGChunkWithPalette c1);
          [right; reflexivity | | exact Hst1].
        rewrite Hbb1. cbn. lia.
Qed.

Lemma drop_take_signature (sig body : list byte) (k : nat) :
  length sig = 8%nat -> drop 8 (take k (sig ++ body)) = take (k - 8) body.
Proof.
  intros Hsig. destruct (decide (k <= 8)%nat) as [Hk|Hk].
  - replace (k - 8)%nat with 0%nat by lia. rewrite take_0.
    apply drop_ge. rewrite length_take. lia.
  - rewrite take_app_ge by lia. rewrite Hsig. apply drop_app_length'. symmetry. exact Hsig.
Qed.

(** X25.  A well-formed stream cut anywhere before the end of the header
    of its IEND chunk is answered with [io.ErrUnexpectedEOF] by both
    readers: no cut makes them panic or return chunks. *)
Theorem truncated_stream_is_unexpected_EOF (sig : list byte) (cs : list Container.chunk)
    (lenb rest : list byte) (k : nat) :
  length sig = 8%nat -> length lenb = 4%nat -> Forall readable cs ->
  (k < 8 + length (Container.serialize cs) + 8)%nat ->
  fetchPNGChunk (take k (sig ++ Container.serialize cs ++ lenb ++ bytesOf "IEND" ++ rest))
  = Some (Fail ErrUnexpectedEOF)
  /\ fetchPaletteChunk
       (take k (sig ++ Container.serialize cs ++ lenb ++ bytesOf "IEND" ++ rest))
     = Some (Fail ErrUnexpectedEOF).
Proof.
  intros Hsig Hl Hcs Hk. split.
  - unfold fetchPNGChunk, Next. change (length pngHeader) with 8%nat. cbn [snd].
    rewrite (drop_take_signature sig _ k Hsig).
    rewrite (runFetch_of_fuel _ parsePNGChunk_progress (length cs + 2) _
               (Some (Fail ErrUnexpectedEOF))); [reflexivity|].
    apply (fetchLoop_truncated cs _ new_pngChunk (k - 8) (lenb ++ bytesOf "IEND" ++ rest));
      [reflexivity | lia | reflexivity | discriminate | exact Hcs].
  - unfold fetchPaletteChunk, Next. change (length pngHeader) with 8%nat. cbn [snd].
    rewrite (drop_take_signature sig _ k Hsig).
    rewrite (runFetch_of_fuel _ parsePNGChunkWithPalette_progress (length cs + 2) _
               (Some (Fail ErrUnexpectedEOF))); [reflexivity|].
    apply (fetchLoop_palette_truncated cs _ (k - 8) (lenb ++ bytesOf "IEND" ++ rest));
      [reflexivity | lia | discriminate | exact Hcs].
Qed.

Lemma truncated_stream_is_unexpected_EOF_witness :
  fetchPNGChunk (take 100 Samples.stream) = Some (Fail ErrUnexpectedEOF)
  /\ fetchPaletteChunk (take 100 Samples.stream) = Some (Fail ErrUnexpectedEOF).
Proof.
  apply (truncated_stream_is_unexpected_EOF pngHeader Samples.chunks (writeUint32 0)
           [174; 66; 96; 130] 100);
    [reflexivity | reflexivity | exact Samples_chunks_readable | vm_compute; lia].
Defined.
